(** * KatyaAi: the native utility calculator

    A shallow embedding of [src/native/UtilityCalculator.h] and the
    verification of its specification.

    The header exports one function,

      float CalculateUtility(const float* factors, const float* weights,
                             size_t length)

    which validates its arguments, accumulates [factors[i] * weights[i]] and
    [weights[i]] over [i = 0 .. length-1] in two [float] accumulators and
    returns their quotient, or [0.0f] when the accumulated weight is zero.

    Modelling choices, all visible in the definitions below:

    - [float] is IEEE 754 binary32 with round-to-nearest-even, every
      operation rounded to binary32 (no extended intermediate precision, no
      fused multiply-add).  The arithmetic is the executable specification
      [SpecFloat] of the standard library at precision 24 and exponent
      bound 128.  NaNs carry no payload there.
    - [size_t] is a 64-bit unsigned integer, a [Z] with its wrap-around
      written out.
    - memory is a finite map from addresses to [float] objects; an address
      counts [float]-sized cells, so [p[i]] is the cell [p + i], and the
      null pointer is address [0].  Reading a cell that holds no [float] is
      undefined behaviour in C++ and is an outcome of its own here.
    - the function runs in a small state-and-outcome monad whose state is
      the memory together with the log of the array accesses made so far;
      the loop takes fuel, and running out of it is an outcome of its own. *)

From Stdlib Require Import ZArith QArith Qpower Lia Lqa List Bool String.
From Stdlib Require Import Floats.SpecFloat.
From stdpp Require Import base option list gmap.

Local Open Scope Z_scope.

(** ** Single-precision arithmetic *)

Module F32.

Definition prec : Z := 24.
Definition emax : Z := 128.

(** The C++ type [float]. *)
Definition float32 : Type := spec_float.

Definition fadd : float32 -> float32 -> float32 := SFadd prec emax.
Definition fmul : float32 -> float32 -> float32 := SFmul prec emax.
Definition fdiv : float32 -> float32 -> float32 := SFdiv prec emax.

(** [x == y], [x <= y] on [float]: false as soon as one side is a NaN. *)
Definition feqb : float32 -> float32 -> bool := SFeqb.
Definition fleb : float32 -> float32 -> bool := SFleb.

(** The literal [0.0f]. *)
Definition fzero : float32 := S754_zero false.

(** The [float] nearest to an integer, for writing literals such as
    [5.0f]. *)
Definition of_Z (z : Z) : float32 := binary_normalize prec emax z 0 false.

Definition is_finite (x : float32) : bool :=
  match x with S754_zero _ | S754_finite _ _ _ => true | _ => false end.

(** A [float] object holds a canonical mantissa and an exponent in
    range. *)
Definition valid (x : float32) : bool := valid_binary prec emax x.

(** The rational number a finite [float] stands for, [m * 2^e] with its
    sign; [0] for the values that stand for no number. *)
Definition Qval (x : float32) : Q :=
  match x with
  | S754_finite s m e =>
      ((if s then -1 else 1) * (inject_Z (Zpos m) * 2 ^ e))%Q
  | _ => 0%Q
  end.

End F32.
Import F32.

(** ** Memory, pointers and [size_t] *)

(** A [const float*]: the address of a cell, [nullptr] being address 0. *)
Definition ptr : Type := Z.
Definition nullptr : ptr := 0.

(** [size_t] arithmetic: [++i] wraps around at 2^64. *)
Definition SIZE_MAX : Z := 2 ^ 64 - 1.
Definition size_incr (i : Z) : Z := (i + 1) mod (SIZE_MAX + 1).

(** One evaluation of the subscript expression [p[i]]. *)
Inductive access : Type :=
  | Read (p : ptr) (i : Z).

(** What a call can observe and change: the [float] cells of memory, and the
    log of the subscript reads made so far, oldest first. *)
Record world : Type := World {
  heap : gmap Z float32;
  accesses : list access
}.

(** ** Outcomes and the monad of the function body *)

(** [std::invalid_argument], the one exception the header throws. *)
Inductive exn : Type :=
  | invalid_argument (what : string).

Inductive outcome (A : Type) : Type :=
  | Return (a : A)        (* normal completion *)
  | Throw (e : exn)       (* an exception leaves the function *)
  | Undefined             (* a read outside any [float] object *)
  | OutOfFuel.            (* the loop was cut short by the model *)
Arguments Return {A} a.
Arguments Throw {A} e.
Arguments Undefined {A}.
Arguments OutOfFuel {A}.

Definition M (A : Type) : Type := world -> outcome A * world.

Definition ret {A} (a : A) : M A := fun w => (Return a, w).

Definition bind {A B} (c : M A) (k : A -> M B) : M B :=
  fun w =>
    match c w with
    | (Return a, w') => k a w'
    | (Throw e, w') => (Throw e, w')
    | (Undefined, w') => (Undefined, w')
    | (OutOfFuel, w') => (OutOfFuel, w')
    end.

Definition throw {A} (e : exn) : M A := fun w => (Throw e, w).

Definition out_of_fuel {A} : M A := fun w => (OutOfFuel, w).

(** [p[i]] as an rvalue: the access is logged, then the cell [p + i] is
    read; there is no operation that writes a cell. *)
Definition load (p : ptr) (i : Z) : M float32 :=
  fun w =>
    let w' := World (heap w) (accesses w ++ [Read p i]) in
    match heap w !! (p + i) with
    | Some v => (Return v, w')
    | None => (Undefined, w')
    end.

Notation "x <- c ;; k" := (bind c (fun x => k))
  (at level 100, c at next level, right associativity).

(** ** The function *)

(** The [for] loop of [CalculateUtility], from the test [i < length] on.
    Each execution of the body uses one unit of fuel.  The body evaluates
    [factors[i]], then [weights[i]], for the product, and [weights[i]] once
    more for the second statement. *)
Fixpoint for_loop (fuel : nat) (factors weights : ptr) (length : Z)
    (i : Z) (weightedSum weightTotal : float32) : M (float32 * float32) :=
  if i <? length then
    match fuel with
    | O => out_of_fuel
    | S fuel' =>
        f <- load factors i ;;
        w <- load weights i ;;
        let weightedSum := fadd weightedSum (fmul f w) in
        w' <- load weights i ;;
        let weightTotal := fadd weightTotal w' in
        for_loop fuel' factors weights length (size_incr i)
          weightedSum weightTotal
    end
  else ret (weightedSum, weightTotal).

Definition CalculateUtility (fuel : nat) (factors weights : ptr) (length : Z)
    : M float32 :=
  if (factors =? nullptr) || (weights =? nullptr) || (length =? 0) then
    throw (invalid_argument
      "Factors and weights arrays must not be null and must have a positive length.")
  else
    sums <- for_loop fuel factors weights length 0 fzero fzero ;;
    let '(weightedSum, weightTotal) := sums in
    if feqb weightTotal fzero then
      ret fzero
    else
      ret (fdiv weightedSum weightTotal).

(** ** Callers' view: arrays in memory *)

(** The cells from [p] on hold the elements of [l], in order. *)
Fixpoint array_at (h : gmap Z float32) (p : ptr) (l : list float32) : Prop :=
  match l with
  | [] => True
  | x :: l' => h !! p = Some x /\ array_at h (p + 1) l'
  end.

(** The memory [h] with the elements of [l] written from address [p] on. *)
Fixpoint store_array (p : ptr) (l : list float32) (h : gmap Z float32)
    : gmap Z float32 :=
  match l with
  | [] => h
  | x :: l' => <[p := x]> (store_array (p + 1) l' h)
  end.

(** ** The specification's formula

    These follow the words of the specification, not the code: both sums
    are accumulated from [0.0f], left to right, in [float]. *)

Definition weighted_sum_from (acc : float32) (F W : list float32) : float32 :=
  fold_left (fun a fw => fadd a (fmul (fst fw) (snd fw))) (combine F W) acc.

Definition weight_total_from (acc : float32) (W : list float32) : float32 :=
  fold_left fadd W acc.

Definition weighted_sum (F W : list float32) : float32 :=
  weighted_sum_from fzero F W.

Definition weight_total (W : list float32) : float32 :=
  weight_total_from fzero W.

Definition normalized_weighted_sum (F W : list float32) : float32 :=
  fdiv (weighted_sum F W) (weight_total W).

(** The subscript reads of [k] iterations of the loop body from index [i]
    on, in program order. *)
Fixpoint loop_accesses (factors weights : ptr) (i : Z) (k : nat)
    : list access :=
  match k with
  | O => []
  | S k' =>
      Read factors i :: Read weights i :: Read weights i ::
      loop_accesses factors weights (i + 1) k'
  end.

(** The arguments of a call describe the sequences [F] and [W]: the two
    pointers address arrays that hold them, and [length] is their common
    length, which fits [size_t]. *)
Record arrays_of (h : gmap Z float32) (factors weights : ptr) (length : Z)
    (F W : list float32) : Prop := ArraysOf {
  arrays_factors : array_at h factors F;
  arrays_weights : array_at h weights W;
  arrays_length_F : length = Z.of_nat (List.length F);
  arrays_length_W : length = Z.of_nat (List.length W);
  arrays_length_max : length <= SIZE_MAX
}.

(** The score the function returns for the sequences [F] and [W]. *)
Definition score (F W : list float32) : float32 :=
  if feqb (weight_total W) fzero then fzero
  else normalized_weighted_sum F W.

(** The specification's one error kind, InvalidInput, is the exception
    [std::invalid_argument] of the code. *)
Definition raises_InvalidInput {A} (o : outcome A) : Prop :=
  exists what : string, o = Throw (invalid_argument what).

(** ** Reading scores as numbers *)

(** [min(F) <= r <= max(F)] with the comparisons of [float]. *)
Definition within_factors (F : list float32) (r : float32) : bool :=
  existsb (fun f => fleb f r) F && existsb (fun f => fleb r f) F.

(** The same for the numbers the [float]s stand for. *)
Definition value_within_factors (F : list float32) (r : float32) : Prop :=
  is_finite r = true /\
  (exists f, In f F /\ (Qval f <= Qval r)%Q) /\
  (exists f, In f F /\ (Qval r <= Qval f)%Q).

(** The arithmetic mean of [F] computed in [float], left to right. *)
Definition arithmetic_mean (F : list float32) : float32 :=
  fdiv (fold_left fadd F fzero) (of_Z (Z.of_nat (List.length F))).

(** Exact sums and dot products of rational numbers. *)
Fixpoint qsum (W : list Q) : Q :=
  match W with
  | [] => 0
  | w :: W' => w + qsum W'
  end%Q.

Fixpoint qdot (F W : list Q) : Q :=
  match F, W with
  | f :: F', w :: W' => f * w + qdot F' W'
  | _, _ => 0
  end%Q.

(** The operation [op] on [x] and [y] is exact: operands and result are
    finite, and the result stands for what [qop] gives on the numbers the
    operands stand for, so no rounding, overflow or underflow took place. *)
Definition exact_op (op : float32 -> float32 -> float32) (qop : Q -> Q -> Q)
    (x y : float32) : Prop :=
  is_finite x = true /\ is_finite y = true /\ is_finite (op x y) = true /\
  (Qval (op x y) == qop (Qval x) (Qval y))%Q.

(** Every product and every partial sum the loop computes on [F] and [W],
    from the accumulators [ws] and [wt] on, is exact. *)
Fixpoint exact_sums (ws wt : float32) (F W : list float32) : Prop :=
  match F, W with
  | f :: F', w :: W' =>
      exact_op fmul Qmult f w /\
      exact_op fadd Qplus ws (fmul f w) /\
      exact_op fadd Qplus wt w /\
      exact_sums (fadd ws (fmul f w)) (fadd wt w) F' W'
  | _, _ => True
  end.

(** Every partial sum of [F] alone, from the accumulator [acc] on, is
    exact: these are the sums the arithmetic mean of [F] in [float] adds
    up. *)
Fixpoint exact_adds (acc : float32) (F : list float32) : Prop :=
  match F with
  | [] => True
  | f :: F' => exact_op fadd Qplus acc f /\ exact_adds (fadd acc f) F'
  end.

(** ** Example calls *)

(** A memory that holds [F] from address 100 on and [W] from address 200
    on, and nothing else. *)
Definition example_heap (F W : list float32) : gmap Z float32 :=
  store_array 100 F (store_array 200 W ∅).

Definition example_world (F W : list float32) : world :=
  World (example_heap F W) [].

(** [0.05263158f], the [float] nearest to 1/19. *)
Definition one_19th : float32 := S754_finite false 14128182 (-28).

(** [2.9999998f], the [float] just below [3.0f]. *)
Definition below_3 : float32 := S754_finite false 12582911 (-22).

(** [3e38f], a finite [float] whose double is not. *)
Definition f_3e38 : float32 := of_Z (3 * 10 ^ 38).

(** [0.5f]. *)
Definition one_half : float32 := S754_finite false 8388608 (-24).

(** [0.50000006f], the [float] just above [0.5f]. *)
Definition above_half : float32 := S754_finite false 8388609 (-24).

(** [2^-24], half the gap between [1.0f] and the next [float]. *)
Definition two_m24 : float32 := S754_finite false 8388608 (-47).

(** [3.0000002f], the [float] just above [3.0f]. *)
Definition above_3 : float32 := S754_finite false 12582913 (-22).

(** ** Signs, zeros and NaNs *)

(** The least exponent of a binary32 value, -149. *)
Definition emin32 : Z := emin prec emax.

(** The exponent of [x], when it has one, is not below the least one. *)
Definition low_exp (x : float32) : Prop :=
  match x with
  | S754_finite _ _ e => emin32 <= e
  | _ => True
  end.

(** [-0.0f]. *)
Definition neg_zero : float32 := S754_zero true.

(** What the loop keeps true of an accumulator. *)
Definition acc_ok (x : float32) : Prop := low_exp x /\ x <> neg_zero.

Definition is_nan (x : float32) : bool :=
  match x with S754_nan => true | _ => false end.

(** Unary minus on [float]. *)
Definition fneg : float32 -> float32 := SFopp.

(** [x'] is [x] negated, or both are [0.0f]. *)
Definition mirrored (x x' : float32) : Prop :=
  x' = fneg x \/ (x = fzero /\ x' = fzero).

(** Every [float] object in memory is a valid binary32 value. *)
Definition heap_valid (h : gmap Z float32) : Prop :=
  forall (a : Z) (v : float32), h !! a = Some v -> valid v = true.

(** [x] is a NaN or satisfies [0.0f <= x]. *)
Definition not_negative (x : float32) : Prop :=
  is_nan x = true \/ fleb fzero x = true.

(** ** Rounding, read as numbers *)

(** [2^z] as a rational number. *)
Definition P2 (z : Z) : Q := (2 ^ z)%Q.

(** The number [u] lies where the location [l] says, counted from the
    whole number [m]: on [m], or strictly between [m] and [m + 1], below,
    on or above the middle. *)
Definition locu (m : Z) (l : location) (u : Q) : Prop :=
  match l with
  | loc_Exact => u == inject_Z m
  | loc_Inexact Lt => inject_Z m < u /\ 2 * u < 2 * inject_Z m + 1
  | loc_Inexact Eq => 2 * u == 2 * inject_Z m + 1
  | loc_Inexact Gt => 2 * inject_Z m + 1 < 2 * u /\ u < inject_Z m + 1
  end%Q.

(** The same for a shift record, the state of a right shift under way. *)
Definition locr (mrs : shr_record) (u : Q) : Prop :=
  0 <= shr_m mrs /\ locu (shr_m mrs) (loc_of_shr_record mrs) u.

(** In units of [2^e], the number [v] lies at [l] from [m >= 0] on. *)
Definition loc_at (m e : Z) (l : location) (v : Q) : Prop :=
  0 <= m /\ locu m l (v * P2 (- e)).

(** [m1 * 2^e1] is the truncation of [v] to the format, [l1] saying where
    [v] lies from it on: the mantissa fits the precision, the exponent is
    not below the least one, and above the least one the mantissa is
    normal. *)
Definition canon_at (m1 e1 : Z) (l1 : location) (v : Q) : Prop :=
  loc_at m1 e1 l1 v /\
  m1 < 2 ^ prec /\ emin32 <= e1 /\ (emin32 < e1 -> 2 ^ (prec - 1) <= m1).

(** What rounding to nearest, ties to even, makes of the truncation
    [m1 * 2^e1] with the location [l1]: the mantissa goes up or stays, a
    carry out of the precision moves to the next exponent, and an exponent
    out of range gives an infinity. *)
Definition round_from (s : bool) (m1 e1 : Z) (l1 : location) : float32 :=
  let m2 := round_nearest_even m1 l1 in
  let '(m3, e3) :=
    if m2 =? 2 ^ prec then (2 ^ (prec - 1), e1 + 1) else (m2, e1) in
  match m3 with
  | Z0 => S754_zero s
  | Zpos p =>
      if e3 <=? emax - prec then S754_finite s p e3 else S754_infinity s
  | Zneg _ => S754_nan
  end.

(** The exact quotient of [mx * 2^ex] by [my * 2^ey]. *)
Definition quotient (mx : positive) (ex : Z) (my : positive) (ey : Z) : Q :=
  (inject_Z (Zpos mx) * P2 ex / (inject_Z (Zpos my) * P2 ey))%Q.

(** * Lemmas on the loop *)

(** Closes a goal that compares two outcomes with different constructors. *)
Ltac now_outcome :=
  unfold ret, throw, out_of_fuel; simpl; discriminate.

Lemma size_incr_small (i n : Z) :
  0 <= i -> i < n -> n <= SIZE_MAX -> size_incr i = i + 1.
Proof.
  intros H0 Hlt Hmax. unfold size_incr.
  apply Z.mod_small. lia.
Qed.

Lemma load_hit (h : gmap Z float32) (t : list access) (p : ptr) (i : Z)
    (v : float32) :
  h !! (p + i) = Some v ->
  load p i (World h t) = (Return v, World h (t ++ [Read p i])).
Proof. intros E. unfold load. simpl. rewrite E. reflexivity. Qed.

Lemma load_miss (h : gmap Z float32) (t : list access) (p : ptr) (i : Z) :
  h !! (p + i) = None ->
  load p i (World h t) = (Undefined, World h (t ++ [Read p i])).
Proof. intros E. unfold load. simpl. rewrite E. reflexivity. Qed.

(** On arrays that hold [F] and [W] from index [i] on, enough fuel makes the
    loop return the two left-to-right sums, having read exactly the cells of
    the remaining iterations. *)
Lemma for_loop_arrays (F : list float32) :
  forall (W : list float32) (fuel : nat) (pf pw : ptr) (n i : Z)
         (ws wt : float32) (h : gmap Z float32) (t : list access),
    List.length F = List.length W ->
    array_at h (pf + i) F -> array_at h (pw + i) W ->
    0 <= i -> n = i + Z.of_nat (List.length F) -> n <= SIZE_MAX ->
    (List.length F <= fuel)%nat ->
    for_loop fuel pf pw n i ws wt (World h t) =
      (Return (weighted_sum_from ws F W, weight_total_from wt W),
       World h (t ++ loop_accesses pf pw i (List.length F))).
Proof.
  induction F as [|f F IH]; intros W fuel pf pw n i ws wt h t HL HF HW Hi Hn Hmax Hfuel.
  - destruct W; [|discriminate]. simpl in Hn.
    destruct fuel; simpl; rewrite (proj2 (Z.ltb_ge i n)) by lia;
      unfold ret; rewrite app_nil_r; reflexivity.
  - destruct W as [|w W]; [discriminate|].
    destruct fuel as [|fuel]; [simpl in Hfuel; lia|].
    simpl in HL, Hfuel. injection HL as HL.
    destruct HF as [Ef HF]. destruct HW as [Ew HW].
    cbn [for_loop]. rewrite (proj2 (Z.ltb_lt i n)) by (simpl in Hn; lia).
    unfold bind. rewrite (load_hit _ _ _ _ _ Ef).
    rewrite (load_hit _ _ _ _ _ Ew). rewrite (load_hit _ _ _ _ _ Ew).
    rewrite (size_incr_small i n) by (simpl in Hn; lia).
    rewrite <- Z.add_assoc in HF, HW.
    rewrite (IH W fuel pf pw n (i + 1) _ _ h _ HL HF HW) by (simpl in Hn; lia).
    simpl. rewrite <- !app_assoc. reflexivity.
Qed.

(** With less fuel than iterations to run, the loop is cut short after
    [fuel] iterations. *)
Lemma for_loop_short (F : list float32) :
  forall (W : list float32) (fuel : nat) (pf pw : ptr) (n i : Z)
         (ws wt : float32) (h : gmap Z float32) (t : list access),
    List.length F = List.length W ->
    array_at h (pf + i) F -> array_at h (pw + i) W ->
    0 <= i -> n = i + Z.of_nat (List.length F) -> n <= SIZE_MAX ->
    (fuel < List.length F)%nat ->
    for_loop fuel pf pw n i ws wt (World h t) =
      (OutOfFuel, World h (t ++ loop_accesses pf pw i fuel)).
Proof.
  induction F as [|f F IH]; intros W fuel pf pw n i ws wt h t HL HF HW Hi Hn Hmax Hfuel.
  - simpl in Hfuel. lia.
  - destruct W as [|w W]; [discriminate|].
    simpl in HL, Hfuel, HF, HW. injection HL as HL.
    destruct HF as [Ef HF]. destruct HW as [Ew HW].
    destruct fuel as [|fuel]; cbn [for_loop];
      rewrite (proj2 (Z.ltb_lt i n)) by (simpl in Hn; lia).
    { unfold out_of_fuel. simpl. rewrite app_nil_r. reflexivity. }
    unfold bind. rewrite (load_hit _ _ _ _ _ Ef).
    rewrite (load_hit _ _ _ _ _ Ew). rewrite (load_hit _ _ _ _ _ Ew).
    rewrite (size_incr_small i n) by (simpl in Hn; lia).
    rewrite <- Z.add_assoc in HF, HW.
    rewrite (IH W fuel pf pw n (i + 1) _ _ h _ HL HF HW) by (simpl in Hn; lia).
    simpl. rewrite <- !app_assoc. reflexivity.
Qed.

(** On any memory at all, the loop leaves the cells as they are, only
    extends the log, and its outcome does not depend on the log. *)
Lemma for_loop_frame (fuel : nat) :
  forall (pf pw : ptr) (n i : Z) (ws wt : float32) (h : gmap Z float32),
  exists (o : outcome (float32 * float32)) (new : list access),
    forall t : list access,
      for_loop fuel pf pw n i ws wt (World h t) = (o, World h (t ++ new)).
Proof.
  induction fuel as [|fuel IH]; intros pf pw n i ws wt h; cbn [for_loop].
  - destruct (i <? n).
    + exists OutOfFuel, []. intros t. rewrite app_nil_r. reflexivity.
    + exists (Return (ws, wt)), []. intros t. rewrite app_nil_r. reflexivity.
  - destruct (i <? n).
    2:{ exists (Return (ws, wt)), []. intros t. rewrite app_nil_r. reflexivity. }
    unfold bind.
    destruct (h !! (pf + i)) as [f|] eqn:Ef.
    2:{ exists Undefined, [Read pf i]. intros t.
        rewrite (load_miss _ _ _ _ Ef). reflexivity. }
    destruct (h !! (pw + i)) as [w|] eqn:Ew.
    2:{ exists Undefined, [Read pf i; Read pw i]. intros t.
        rewrite (load_hit _ _ _ _ _ Ef), (load_miss _ _ _ _ Ew).
        rewrite <- app_assoc. reflexivity. }
    destruct (IH pf pw n (size_incr i) (fadd ws (fmul f w)) (fadd wt w) h)
      as (o & new & Hrun).
    exists o, (Read pf i :: Read pw i :: Read pw i :: new). intros t.
    rewrite (load_hit _ _ _ _ _ Ef), (load_hit _ _ _ _ _ Ew),
      (load_hit _ _ _ _ _ Ew), Hrun.
    rewrite <- !app_assoc. reflexivity.
Qed.

(** The loop throws nothing. *)
Lemma for_loop_no_throw (fuel : nat) :
  forall (pf pw : ptr) (n i : Z) (ws wt : float32) (w : world) (e : exn),
    fst (for_loop fuel pf pw n i ws wt w) <> Throw e.
Proof.
  induction fuel as [|fuel IH]; intros pf pw n i ws wt [h t] e; cbn [for_loop].
  - destruct (i <? n); now_outcome.
  - destruct (i <? n); [|now_outcome].
    unfold bind.
    destruct (h !! (pf + i)) eqn:Ef;
      [rewrite (load_hit _ _ _ _ _ Ef) | rewrite (load_miss _ _ _ _ Ef); now_outcome].
    destruct (h !! (pw + i)) eqn:Ew;
      [rewrite !(load_hit _ _ _ _ _ Ew) | rewrite (load_miss _ _ _ _ Ew); now_outcome].
    apply IH.
Qed.

(** With one unit of fuel for each index from [i] up to [n], the loop is
    never cut short, whatever memory holds. *)
Lemma for_loop_enough_fuel (fuel : nat) :
  forall (pf pw : ptr) (n i : Z) (ws wt : float32) (w : world),
    0 <= i -> n <= SIZE_MAX -> n - i <= Z.of_nat fuel ->
    fst (for_loop fuel pf pw n i ws wt w) <> OutOfFuel.
Proof.
  induction fuel as [|fuel IH]; intros pf pw n i ws wt [h t] Hi Hmax Hfuel;
    cbn [for_loop].
  - rewrite (proj2 (Z.ltb_ge i n)) by lia. now_outcome.
  - destruct (i <? n) eqn:Elt; [|now_outcome].
    apply Z.ltb_lt in Elt.
    unfold bind.
    destruct (h !! (pf + i)) eqn:Ef;
      [rewrite (load_hit _ _ _ _ _ Ef) | rewrite (load_miss _ _ _ _ Ef); now_outcome].
    destruct (h !! (pw + i)) eqn:Ew;
      [rewrite !(load_hit _ _ _ _ _ Ew) | rewrite (load_miss _ _ _ _ Ew); now_outcome].
    rewrite (size_incr_small i n) by lia.
    apply IH; lia.
Qed.

(** Every read of [k] iterations from index [i] on is a read of one of the
    two arrays at an index in [i, i + k). *)
Lemma loop_accesses_in_range (pf pw : ptr) (k : nat) :
  forall i : Z,
    Forall (fun a => match a with
                     | Read p j => (p = pf \/ p = pw) /\ i <= j < i + Z.of_nat k
                     end)
           (loop_accesses pf pw i k).
Proof.
  induction k as [|k IH]; intros i; simpl.
  - constructor.
  - repeat (constructor; [split; [auto | lia]|]).
    eapply Forall_impl; [apply (IH (i + 1))|].
    intros [p j] [Hp Hj]. simpl. split; [exact Hp | lia].
Qed.

(** * The function on a well-formed call *)

Lemma checks_pass (pf pw : ptr) (n : Z) :
  pf <> nullptr -> pw <> nullptr -> 1 <= n ->
  (pf =? nullptr) || (pw =? nullptr) || (n =? 0) = false.
Proof.
  intros Hf Hw Hn.
  rewrite (proj2 (Z.eqb_neq pf nullptr) Hf), (proj2 (Z.eqb_neq pw nullptr) Hw).
  simpl. apply Z.eqb_neq. lia.
Qed.

Lemma checks_fail (pf pw : ptr) (n : Z) :
  (pf =? nullptr) || (pw =? nullptr) || (n =? 0) = true <->
  pf = nullptr \/ pw = nullptr \/ n = 0.
Proof.
  rewrite !orb_true_iff, !Z.eqb_eq. tauto.
Qed.

(** A well-formed call with enough fuel returns the score of the two
    sequences, having read each factor once and each weight twice. *)
Lemma CalculateUtility_arrays (fuel : nat) (pf pw : ptr) (n : Z)
    (F W : list float32) (h : gmap Z float32) (t : list access) :
  arrays_of h pf pw n F W -> pf <> nullptr -> pw <> nullptr ->
  1 <= n -> n <= Z.of_nat fuel ->
  CalculateUtility fuel pf pw n (World h t) =
    (Return (score F W),
     World h (t ++ loop_accesses pf pw 0 (List.length F))).
Proof.
  intros [HF HW HLF HLW Hmax] Hpf Hpw Hn Hfuel. unfold CalculateUtility.
  rewrite (checks_pass _ _ _ Hpf Hpw Hn).
  unfold bind.
  rewrite (for_loop_arrays F W fuel pf pw n 0 fzero fzero h t);
    try (rewrite ?Z.add_0_r; assumption); try lia.
  unfold score, normalized_weighted_sum, weighted_sum, weight_total.
  destruct (feqb (weight_total_from fzero W) fzero); reflexivity.
Qed.

(** The same call with too little fuel is cut short in the loop. *)
Lemma CalculateUtility_short (fuel : nat) (pf pw : ptr) (n : Z)
    (F W : list float32) (h : gmap Z float32) (t : list access) :
  arrays_of h pf pw n F W -> pf <> nullptr -> pw <> nullptr ->
  Z.of_nat fuel < n ->
  CalculateUtility fuel pf pw n (World h t) =
    (OutOfFuel, World h (t ++ loop_accesses pf pw 0 fuel)).
Proof.
  intros [HF HW HLF HLW Hmax] Hpf Hpw Hfuel. unfold CalculateUtility.
  rewrite (checks_pass _ _ _ Hpf Hpw) by lia.
  unfold bind.
  rewrite (for_loop_short F W fuel pf pw n 0 fzero fzero h t);
    try (rewrite ?Z.add_0_r; assumption); try lia.
  reflexivity.
Qed.

(** On any memory, the call leaves the cells as they are and only extends
    the log; its outcome does not depend on the log. *)
Lemma CalculateUtility_frame (fuel : nat) (pf pw : ptr) (n : Z)
    (h : gmap Z float32) :
  exists (o : outcome float32) (new : list access),
    forall t : list access,
      CalculateUtility fuel pf pw n (World h t) = (o, World h (t ++ new)).
Proof.
  unfold CalculateUtility.
  destruct ((pf =? nullptr) || (pw =? nullptr) || (n =? 0)).
  - eexists _, []. intros t. unfold throw. rewrite app_nil_r. reflexivity.
  - destruct (for_loop_frame fuel pf pw n 0 fzero fzero h) as (o & new & Hrun).
    destruct o as [[ws wt]| e | |].
    + exists (Return (if feqb wt fzero then fzero else fdiv ws wt)), new.
      intros t. unfold bind. rewrite Hrun.
      destruct (feqb wt fzero); reflexivity.
    + exists (Throw e), new. intros t. unfold bind. rewrite Hrun. reflexivity.
    + exists Undefined, new. intros t. unfold bind. rewrite Hrun. reflexivity.
    + exists OutOfFuel, new. intros t. unfold bind. rewrite Hrun. reflexivity.
Qed.

(** * Facts on [float] zeros *)

Lemma feqb_zero_iff (x : float32) :
  feqb x fzero = true <-> exists s : bool, x = S754_zero s.
Proof.
  split.
  - destruct x as [s|s| |s m e]; try (destruct s); try discriminate;
      intros _; eexists; reflexivity.
  - intros [s ->]. reflexivity.
Qed.

Lemma fadd_zeros (s1 s2 : bool) :
  exists s : bool, fadd (S754_zero s1) (S754_zero s2) = S754_zero s.
Proof. destruct s1, s2; eexists; reflexivity. Qed.

(** Adding up zeros of either sign from a zero gives a zero. *)
Lemma weight_total_from_zeros (W : list float32) :
  Forall (fun w => feqb w fzero = true) W ->
  forall s : bool, exists s' : bool,
    weight_total_from (S754_zero s) W = S754_zero s'.
Proof.
  induction 1 as [|w W Hw _ IH]; intros s.
  - exists s. reflexivity.
  - apply feqb_zero_iff in Hw. destruct Hw as [sw ->].
    destruct (fadd_zeros s sw) as [s1 E1].
    destruct (IH s1) as [s' E']. exists s'.
    change (weight_total_from (S754_zero s) (S754_zero sw :: W))
      with (weight_total_from (fadd (S754_zero s) (S754_zero sw)) W).
    rewrite E1. exact E'.
Qed.

Lemma weight_total_zeros (W : list float32) :
  Forall (fun w => feqb w fzero = true) W ->
  feqb (weight_total W) fzero = true.
Proof.
  intros HW. destruct (weight_total_from_zeros W HW false) as [s E].
  unfold weight_total, fzero. rewrite E. reflexivity.
Qed.

(** Proves [arrays_of] for sequences and a memory given in full. *)
Ltac solve_arrays_of :=
  constructor;
  [ vm_compute; repeat split; reflexivity
  | vm_compute; repeat split; reflexivity
  | vm_compute; reflexivity
  | vm_compute; reflexivity
  | vm_compute; discriminate ].

(** * Fuel *)

(** A loop that was not cut short runs the same with more fuel. *)
Lemma for_loop_more_fuel (fuel : nat) :
  forall (fuel' : nat) (pf pw : ptr) (n i : Z) (ws wt : float32) (w : world),
    (fuel <= fuel')%nat ->
    fst (for_loop fuel pf pw n i ws wt w) <> OutOfFuel ->
    for_loop fuel' pf pw n i ws wt w = for_loop fuel pf pw n i ws wt w.
Proof.
  induction fuel as [|fuel IH]; intros fuel' pf pw n i ws wt [h t] Hle Hrun.
  - cbn [for_loop] in *. destruct (i <? n) eqn:Elt.
    + exfalso. apply Hrun. reflexivity.
    + destruct fuel'; cbn [for_loop]; rewrite Elt; reflexivity.
  - destruct fuel' as [|fuel']; [lia|].
    cbn [for_loop] in *. destruct (i <? n); [|reflexivity].
    unfold bind in *.
    destruct (h !! (pf + i)) eqn:Ef;
      [rewrite (load_hit _ _ _ _ _ Ef) in * | rewrite (load_miss _ _ _ _ Ef); reflexivity].
    destruct (h !! (pw + i)) eqn:Ew;
      [rewrite !(load_hit _ _ _ _ _ Ew) in * | rewrite (load_miss _ _ _ _ Ew); reflexivity].
    apply IH; [lia | exact Hrun].
Qed.

Lemma CalculateUtility_more_fuel (fuel fuel' : nat) (pf pw : ptr) (n : Z)
    (w : world) :
  (fuel <= fuel')%nat ->
  fst (CalculateUtility fuel pf pw n w) <> OutOfFuel ->
  CalculateUtility fuel' pf pw n w = CalculateUtility fuel pf pw n w.
Proof.
  unfold CalculateUtility. intros Hle Hrun.
  destruct ((pf =? nullptr) || (pw =? nullptr) || (n =? 0)); [reflexivity|].
  unfold bind in *.
  rewrite (for_loop_more_fuel fuel fuel'); [reflexivity | exact Hle |].
  intros E. apply Hrun.
  destruct (for_loop fuel pf pw n 0 fzero fzero w) as [[[ws wt]| | |] w'];
    simpl in E; try discriminate. reflexivity.
Qed.

(** One unit of fuel for each element is enough on any memory. *)
Lemma CalculateUtility_enough_fuel (fuel : nat) (pf pw : ptr) (n : Z)
    (w : world) :
  n <= SIZE_MAX -> n <= Z.of_nat fuel ->
  fst (CalculateUtility fuel pf pw n w) <> OutOfFuel.
Proof.
  intros Hmax Hfuel. unfold CalculateUtility.
  destruct ((pf =? nullptr) || (pw =? nullptr) || (n =? 0)); [now_outcome|].
  unfold bind.
  pose proof (for_loop_enough_fuel fuel pf pw n 0 fzero fzero w) as Hloop.
  destruct (for_loop fuel pf pw n 0 fzero fzero w) as [[[ws wt]| | |] w'];
    simpl in *; try discriminate.
  - destruct (feqb wt fzero); now_outcome.
  - intros _. apply Hloop; try lia. reflexivity.
Qed.

(** Past the argument check nothing is thrown. *)
Lemma CalculateUtility_throws (fuel : nat) (pf pw : ptr) (n : Z) (w : world)
    (e : exn) :
  fst (CalculateUtility fuel pf pw n w) = Throw e ->
  (pf =? nullptr) || (pw =? nullptr) || (n =? 0) = true.
Proof.
  unfold CalculateUtility.
  destruct ((pf =? nullptr) || (pw =? nullptr) || (n =? 0)); [reflexivity|].
  unfold bind.
  pose proof (for_loop_no_throw fuel pf pw n 0 fzero fzero w) as Hloop.
  destruct (for_loop fuel pf pw n 0 fzero fzero w) as [[[ws wt]|e'| |] w'];
    simpl in *; try discriminate.
  - destruct (feqb wt fzero); now_outcome.
  - intros _. exfalso. apply (Hloop e'). reflexivity.
Qed.

(** * The numbers behind the [float]s *)

Lemma Qval_finite_pos (m : positive) (e : Z) :
  (0 < inject_Z (Zpos m) * 2 ^ e)%Q.
Proof.
  apply Qmult_lt_0_compat.
  - reflexivity.
  - apply Qpower_0_lt. reflexivity.
Qed.

Lemma Qval_finite (s : bool) (m : positive) (e : Z) :
  ~ (Qval (S754_finite s m e) == 0)%Q.
Proof.
  pose proof (Qval_finite_pos m e) as Hpos. unfold Qval.
  destruct s; intros E; lra.
Qed.

(** A finite [float] that does not compare equal to [0.0f] stands for a
    number other than zero. *)
Lemma feqb_zero_false (x : float32) :
  is_finite x = true -> feqb x fzero = false -> ~ (Qval x == 0)%Q.
Proof.
  destruct x as [s|s| |s m e]; cbn; try discriminate; intros _ H.
  apply (Qval_finite s m e).
Qed.

(** A finite [float] with [0.0f <= w] stands for a number that is not
    negative. *)
Lemma fleb_zero_nonneg (w : float32) :
  is_finite w = true -> fleb fzero w = true -> (0 <= Qval w)%Q.
Proof.
  destruct w as [s|s| |s m e]; try discriminate; intros _ H;
    try apply Qle_refl.
  destruct s; [discriminate|].
  pose proof (Qval_finite_pos m e) as Hpos. unfold Qval. lra.
Qed.

(** [float]s that compare equal stand for the same number. *)
Lemma feqb_Qval (x y : float32) :
  feqb x y = true -> (Qval x == Qval y)%Q.
Proof.
  destruct x as [sx|sx| |sx mx ex], y as [sy|sy| |sy my ey];
    cbn; try discriminate; try reflexivity;
    try (destruct sx; discriminate); try (destruct sy; discriminate);
    try (destruct sx, sy; discriminate).
  unfold feqb, SFeqb, SFcompare.
  destruct sx, sy; try discriminate;
    destruct (ex ?= ey) eqn:Ee; try discriminate;
    destruct (Pos.compare_cont Eq mx my) eqn:Em; try discriminate;
    intros _; apply Z.compare_eq in Ee; apply Pos.compare_eq in Em;
    subst; reflexivity.
Qed.

(** A quotient of finite [float]s is finite only if the divisor is not a
    zero. *)
Lemma fdiv_finite_divisor (x y : float32) :
  is_finite x = true -> is_finite y = true -> is_finite (fdiv x y) = true ->
  feqb y fzero = false.
Proof.
  destruct x as [sx|sx| |sx mx ex], y as [sy|sy| |sy my ey];
    cbn; try discriminate; intros _ _ H; try discriminate H;
    destruct sy; reflexivity.
Qed.

(** When no product and no partial sum rounds, the accumulators stand for
    the exact sums. *)
Lemma exact_sums_values (F : list float32) :
  forall (W : list float32) (ws wt : float32),
    List.length F = List.length W -> exact_sums ws wt F W ->
    is_finite ws = true -> is_finite wt = true ->
    is_finite (weighted_sum_from ws F W) = true /\
    is_finite (weight_total_from wt W) = true /\
    (Qval (weighted_sum_from ws F W) ==
       Qval ws + qdot (map Qval F) (map Qval W))%Q /\
    (Qval (weight_total_from wt W) == Qval wt + qsum (map Qval W))%Q /\
    Forall (fun f => is_finite f = true) F /\
    Forall (fun w => is_finite w = true) W.
Proof.
  induction F as [|f F IH]; intros [|w W] ws wt HL Hex Hws Hwt;
    try discriminate.
  - unfold weighted_sum_from, weight_total_from. simpl.
    split; [assumption|]. split; [assumption|].
    split; [ring|]. split; [ring|]. split; constructor.
  - injection HL as HL.
    destruct Hex as ((Hf & Hw & Hp & Ep) & (_ & _ & Hs & Es) & (_ & _ & Ht & Et) & Hex).
    destruct (IH W _ _ HL Hex Hs Ht) as (H1 & H2 & E1 & E2 & HF & HW).
    change (weighted_sum_from ws (f :: F) (w :: W))
      with (weighted_sum_from (fadd ws (fmul f w)) F W).
    change (weight_total_from wt (w :: W))
      with (weight_total_from (fadd wt w) W).
    repeat split; try assumption; try (constructor; assumption).
    + rewrite E1, Es, Ep. simpl. ring.
    + rewrite E2, Et. simpl. ring.
Qed.

(** * Weighted averages of rational numbers *)

Section Rationals.

Local Open Scope Q_scope.

Lemma qsum_nonneg (W : list Q) :
  Forall (fun w => 0 <= w) W -> 0 <= qsum W.
Proof.
  induction 1 as [|w W Hw _ IH]; simpl; lra.
Qed.

Lemma qdot_lower (m : Q) (F : list Q) :
  forall W : list Q,
    Forall (fun f => m <= f) F -> Forall (fun w => 0 <= w) W ->
    List.length F = List.length W ->
    m * qsum W <= qdot F W.
Proof.
  induction F as [|f F IH]; intros [|w W] HF HW HL; try discriminate; simpl.
  - lra.
  - inversion HF as [|? ? Hf HF']; subst.
    inversion HW as [|? ? Hw HW']; subst.
    injection HL as HL. specialize (IH W HF' HW' HL).
    assert (0 <= (f - m) * w) by (apply Qmult_le_0_compat; lra).
    lra.
Qed.

Lemma qdot_upper (M : Q) (F : list Q) :
  forall W : list Q,
    Forall (fun f => f <= M) F -> Forall (fun w => 0 <= w) W ->
    List.length F = List.length W ->
    qdot F W <= M * qsum W.
Proof.
  induction F as [|f F IH]; intros [|w W] HF HW HL; try discriminate; simpl.
  - lra.
  - inversion HF as [|? ? Hf HF']; subst.
    inversion HW as [|? ? Hw HW']; subst.
    injection HL as HL. specialize (IH W HF' HW' HL).
    assert (0 <= (M - f) * w) by (apply Qmult_le_0_compat; lra).
    lra.
Qed.

(** A weighted average with weights that are not negative lies between
    any lower and any upper bound of the averaged numbers. *)
Lemma weighted_average_bounds (m M : Q) (F W : list Q) :
  Forall (fun f => m <= f) F -> Forall (fun f => f <= M) F ->
  Forall (fun w => 0 <= w) W ->
  List.length F = List.length W -> ~ qsum W == 0 ->
  m <= qdot F W / qsum W <= M.
Proof.
  intros Hm HM HW HL HT.
  assert (HT' : 0 < qsum W).
  { pose proof (qsum_nonneg W HW) as H0. apply Qle_lteq in H0.
    destruct H0 as [H0|H0]; [exact H0|].
    exfalso. apply HT. symmetry. exact H0. }
  pose proof (qdot_lower m F W Hm HW HL) as Hlo.
  pose proof (qdot_upper M F W HM HW HL) as Hhi.
  split.
  - apply Qle_shift_div_l; assumption.
  - apply Qle_shift_div_r; assumption.
Qed.

(** With all weights equal to [c], the dot product is [c] times the sum
    and the weight total is [c] times the length. *)
Lemma qdot_equal_weights (c : Q) (F : list Q) :
  forall W : list Q,
    Forall (fun w => w == c) W -> List.length F = List.length W ->
    qdot F W == qsum F * c /\
    qsum W == inject_Z (Z.of_nat (List.length F)) * c.
Proof.
  induction F as [|f F IH]; intros [|w W] HW HL; try discriminate.
  - simpl. split; ring.
  - inversion HW as [|? ? Hw HW']; subst. injection HL as HL.
    destruct (IH W HW' HL) as [E1 E2].
    cbn [qdot qsum List.length]. rewrite E1, E2, Hw.
    rewrite Nat2Z.inj_succ. unfold Z.succ. rewrite inject_Z_plus.
    split; ring.
Qed.

(** A non-empty list of [float]s has an element of least value and one
    of greatest value. *)
Lemma factors_have_min (F : list float32) :
  F <> [] ->
  exists f, In f F /\ Forall (fun g => Qval f <= Qval g) F.
Proof.
  induction F as [|a F IH]; [congruence|]. intros _.
  destruct F as [|b F].
  - exists a. split; [left; reflexivity|].
    constructor; [apply Qle_refl | constructor].
  - destruct IH as (f & Hin & Hall); [discriminate|].
    destruct (Qlt_le_dec (Qval a) (Qval f)) as [Hlt|Hle].
    + exists a. split; [left; reflexivity|].
      constructor; [apply Qle_refl|].
      eapply List.Forall_impl; [|exact Hall].
      simpl. intros g Hg. lra.
    + exists f. split; [right; exact Hin|].
      constructor; assumption.
Qed.

Lemma factors_have_max (F : list float32) :
  F <> [] ->
  exists f, In f F /\ Forall (fun g => Qval g <= Qval f) F.
Proof.
  induction F as [|a F IH]; [congruence|]. intros _.
  destruct F as [|b F].
  - exists a. split; [left; reflexivity|].
    constructor; [apply Qle_refl | constructor].
  - destruct IH as (f & Hin & Hall); [discriminate|].
    destruct (Qlt_le_dec (Qval f) (Qval a)) as [Hlt|Hle].
    + exists a. split; [left; reflexivity|].
      constructor; [apply Qle_refl|].
      eapply List.Forall_impl; [|exact Hall].
      simpl. intros g Hg. lra.
    + exists f. split; [right; exact Hin|].
      constructor; assumption.
Qed.

End Rationals.

(** * The specification *)

(** The claims follow in their order, except the three that compare the
    score with the factor values: these rest on the rounding of quotients
    and close the file. *)

(** C1. For sequences [F] and [W] of equal length [n >= 1], held by arrays
    at two non-null pointers, whose accumulated weight total does not
    compare equal to zero, the call returns the normalized weighted sum:
    the sum of the [F[i] * W[i]] divided by the sum of the [W[i]], both
    sums accumulated left to right from [0.0f] in single precision. *)
Theorem CalculateUtility_normalized_weighted_sum
    (fuel : nat) (factors weights : ptr) (n : Z) (F W : list float32)
    (h : gmap Z float32) (t : list access) :
  arrays_of h factors weights n F W ->
  factors <> nullptr -> weights <> nullptr ->
  1 <= n -> n <= Z.of_nat fuel ->
  feqb (weight_total W) fzero = false ->
  fst (CalculateUtility fuel factors weights n (World h t)) =
    Return (normalized_weighted_sum F W).
Proof.
  intros Harr Hpf Hpw Hn Hfuel Hnz.
  rewrite (CalculateUtility_arrays fuel factors weights n F W h t)
    by assumption.
  unfold score. rewrite Hnz. reflexivity.
Qed.

Lemma CalculateUtility_normalized_weighted_sum_witness :
  let F := [of_Z 1; of_Z 2; of_Z 3] in
  let W := [of_Z 3; of_Z 2; of_Z 1] in
  arrays_of (example_heap F W) 100 200 3 F W /\
  100 <> nullptr /\ 200 <> nullptr /\ 1 <= 3 /\ 3 <= Z.of_nat 3 /\
  feqb (weight_total W) fzero = false /\
  fst (CalculateUtility 3 100 200 3 (example_world F W)) =
    Return (normalized_weighted_sum F W).
Proof.
  intros F W.
  assert (Harr : arrays_of (example_heap F W) 100 200 3 F W)
    by solve_arrays_of.
  assert (Hpf : 100 <> nullptr) by discriminate.
  assert (Hpw : 200 <> nullptr) by discriminate.
  assert (Hn : 1 <= 3) by lia.
  assert (Hfuel : 3 <= Z.of_nat 3) by lia.
  assert (Hnz : feqb (weight_total W) fzero = false) by reflexivity.
  repeat (split; [assumption|]).
  exact (CalculateUtility_normalized_weighted_sum 3 100 200 3 F W
           (example_heap F W) [] Harr Hpf Hpw Hn Hfuel Hnz).
Defined.

(** C2. For sequences of length [n >= 1] held by arrays at two non-null
    pointers: when the accumulated weight total compares equal to zero the
    call returns [0.0f], so it raises nothing; and a weight sequence of
    zeros only (of either sign) has such a total, whatever the factors
    are. *)
Theorem CalculateUtility_zero_weight_total
    (fuel : nat) (factors weights : ptr) (n : Z) (F W : list float32)
    (h : gmap Z float32) (t : list access) :
  arrays_of h factors weights n F W ->
  factors <> nullptr -> weights <> nullptr ->
  1 <= n -> n <= Z.of_nat fuel ->
  feqb (weight_total W) fzero = true \/
    Forall (fun w => feqb w fzero = true) W ->
  fst (CalculateUtility fuel factors weights n (World h t)) = Return fzero.
Proof.
  intros Harr Hpf Hpw Hn Hfuel Hz.
  assert (Hz' : feqb (weight_total W) fzero = true).
  { destruct Hz as [Hz|Hz]; [exact Hz | apply weight_total_zeros; exact Hz]. }
  rewrite (CalculateUtility_arrays fuel factors weights n F W h t)
    by assumption.
  unfold score. rewrite Hz'. reflexivity.
Qed.

Lemma CalculateUtility_zero_weight_total_witness :
  let F := [of_Z 7; S754_nan; S754_infinity true] in
  let W := [S754_zero false; S754_zero true; S754_zero false] in
  arrays_of (example_heap F W) 100 200 3 F W /\
  100 <> nullptr /\ 200 <> nullptr /\ 1 <= 3 /\ 3 <= Z.of_nat 3 /\
  (feqb (weight_total W) fzero = true \/
     Forall (fun w => feqb w fzero = true) W) /\
  fst (CalculateUtility 3 100 200 3 (example_world F W)) = Return fzero.
Proof.
  intros F W.
  assert (Harr : arrays_of (example_heap F W) 100 200 3 F W)
    by solve_arrays_of.
  assert (Hpf : 100 <> nullptr) by discriminate.
  assert (Hpw : 200 <> nullptr) by discriminate.
  assert (Hn : 1 <= 3) by lia.
  assert (Hfuel : 3 <= Z.of_nat 3) by lia.
  assert (Hz : feqb (weight_total W) fzero = true \/
               Forall (fun w => feqb w fzero = true) W).
  { right. repeat constructor. }
  repeat (split; [assumption|]).
  exact (CalculateUtility_zero_weight_total 3 100 200 3 F W
           (example_heap F W) [] Harr Hpf Hpw Hn Hfuel Hz).
Defined.

(** C3. The call raises InvalidInput if and only if the factor pointer is
    null, the weight pointer is null or the length is 0; and when it does,
    the world is as it was before the call: nothing was computed and no
    array element was read. *)
Theorem CalculateUtility_InvalidInput
    (fuel : nat) (factors weights : ptr) (n : Z) (w : world) :
  (raises_InvalidInput (fst (CalculateUtility fuel factors weights n w)) <->
     factors = nullptr \/ weights = nullptr \/ n = 0) /\
  (raises_InvalidInput (fst (CalculateUtility fuel factors weights n w)) ->
     snd (CalculateUtility fuel factors weights n w) = w).
Proof.
  assert (Hfail :
    raises_InvalidInput (fst (CalculateUtility fuel factors weights n w)) ->
    (factors =? nullptr) || (weights =? nullptr) || (n =? 0) = true).
  { intros [what E]. exact (CalculateUtility_throws _ _ _ _ _ _ E). }
  split; [split|].
  - intros Hr. apply checks_fail. exact (Hfail Hr).
  - intros Hc. apply checks_fail in Hc. unfold CalculateUtility.
    rewrite Hc. eexists. reflexivity.
  - intros Hr. apply Hfail in Hr. unfold CalculateUtility.
    rewrite Hr. reflexivity.
Qed.

(** C6. Two calls with the same arguments, the second one made in the
    world the first one leaves, have the same outcome, bit for bit; and on
    sequences held by arrays that outcome is the score whose two sums are
    accumulated left to right. *)
Theorem CalculateUtility_deterministic
    (fuel1 fuel2 : nat) (factors weights : ptr) (n : Z) (w : world) :
  n <= SIZE_MAX -> n <= Z.of_nat fuel1 -> n <= Z.of_nat fuel2 ->
  let first := CalculateUtility fuel1 factors weights n w in
  let second := CalculateUtility fuel2 factors weights n (snd first) in
  fst second = fst first /\
  (forall F W : list float32,
     arrays_of (heap w) factors weights n F W ->
     factors <> nullptr -> weights <> nullptr -> 1 <= n ->
     fst first = Return (score F W)).
Proof.
  intros Hmax Hfuel1 Hfuel2 first second. subst first second.
  destruct w as [h t]. split.
  - destruct (CalculateUtility_frame fuel1 factors weights n h)
      as (o1 & new1 & Hrun1).
    rewrite (Hrun1 t). cbn [fst snd].
    pose proof (CalculateUtility_enough_fuel fuel1 factors weights n
                  (World h (t ++ new1)) Hmax Hfuel1) as Hok1.
    pose proof (CalculateUtility_enough_fuel fuel2 factors weights n
                  (World h (t ++ new1)) Hmax Hfuel2) as Hok2.
    rewrite <- (CalculateUtility_more_fuel fuel2 (Nat.max fuel1 fuel2))
      by (try apply Nat.le_max_r; assumption).
    rewrite (CalculateUtility_more_fuel fuel1 (Nat.max fuel1 fuel2))
      by (try apply Nat.le_max_l; assumption).
    rewrite (Hrun1 (t ++ new1)). reflexivity.
  - intros F W Harr Hpf Hpw Hn. cbn [heap] in Harr.
    rewrite (CalculateUtility_arrays fuel1 factors weights n F W h t)
      by assumption.
    reflexivity.
Qed.

Lemma CalculateUtility_deterministic_witness :
  let F := [of_Z 1; of_Z 2; of_Z 3] in
  let W := [of_Z 3; of_Z 2; of_Z 1] in
  3 <= SIZE_MAX /\ 3 <= Z.of_nat 3 /\ 3 <= Z.of_nat 5 /\
  fst (CalculateUtility 5 100 200 3
         (snd (CalculateUtility 3 100 200 3 (example_world F W)))) =
  fst (CalculateUtility 3 100 200 3 (example_world F W)).
Proof.
  intros F W.
  assert (Hmax : 3 <= SIZE_MAX) by (vm_compute; discriminate).
  assert (Hfuel1 : 3 <= Z.of_nat 3) by lia.
  assert (Hfuel2 : 3 <= Z.of_nat 5) by lia.
  repeat (split; [assumption|]).
  exact (proj1 (CalculateUtility_deterministic 3 5 100 200 3
                  (example_world F W) Hmax Hfuel1 Hfuel2)).
Defined.

(** C8. A call changes no cell of memory, on any arguments and any memory:
    the factor and weight arrays are as they were, and the world, which is
    all the state there is, differs from the one before the call by log
    entries only. *)
Theorem CalculateUtility_no_side_effects
    (fuel : nat) (factors weights : ptr) (n : Z) (w : world) :
  heap (snd (CalculateUtility fuel factors weights n w)) = heap w /\
  exists new : list access,
    snd (CalculateUtility fuel factors weights n w) =
      World (heap w) (accesses w ++ new).
Proof.
  destruct w as [h t].
  destruct (CalculateUtility_frame fuel factors weights n h)
    as (o & new & Hrun).
  rewrite (Hrun t). cbn [fst snd heap accesses].
  split; [reflexivity|]. exists new. reflexivity.
Qed.

(** C9. When both pointers are non-null and address arrays of [n]
    elements, every subscript a call evaluates is on one of the two arrays
    at an index [i] with [0 <= i < n], and no read falls outside a [float]
    object, however far the loop gets. *)
Theorem CalculateUtility_accesses_in_bounds
    (fuel : nat) (factors weights : ptr) (n : Z) (F W : list float32)
    (h : gmap Z float32) (t : list access) :
  arrays_of h factors weights n F W ->
  factors <> nullptr -> weights <> nullptr ->
  fst (CalculateUtility fuel factors weights n (World h t)) <> Undefined /\
  exists new : list access,
    accesses (snd (CalculateUtility fuel factors weights n (World h t))) =
      t ++ new /\
    Forall (fun a => match a with
                     | Read p i =>
                         (p = factors \/ p = weights) /\ 0 <= i < n
                     end) new.
Proof.
  intros Harr Hpf Hpw.
  destruct (Z_lt_le_dec (Z.of_nat fuel) n) as [Hshort|Hfuel].
  - rewrite (CalculateUtility_short fuel factors weights n F W h t)
      by assumption.
    cbn [fst snd accesses]. split; [discriminate|].
    exists (loop_accesses factors weights 0 fuel). split; [reflexivity|].
    eapply Forall_impl; [apply loop_accesses_in_range|].
    intros [p i] [Hp Hi]. split; [exact Hp | lia].
  - destruct (Z_lt_le_dec n 1) as [Hzero|Hn].
    + assert (E : n = 0) by (destruct Harr; lia). subst n.
      unfold CalculateUtility.
      rewrite (proj2 (checks_fail factors weights 0)) by auto.
      cbn [fst snd accesses]. split; [discriminate|].
      exists []. split; [rewrite app_nil_r; reflexivity | constructor].
    + rewrite (CalculateUtility_arrays fuel factors weights n F W h t)
        by assumption.
      cbn [fst snd accesses]. split; [discriminate|].
      exists (loop_accesses factors weights 0 (List.length F)).
      split; [reflexivity|].
      eapply Forall_impl; [apply loop_accesses_in_range|].
      intros [p i] [Hp Hi]. split; [exact Hp|]. destruct Harr. lia.
Qed.

Lemma CalculateUtility_accesses_in_bounds_witness :
  let F := [of_Z 1; of_Z 2; of_Z 3] in
  let W := [of_Z 3; of_Z 2; of_Z 1] in
  arrays_of (example_heap F W) 100 200 3 F W /\
  100 <> nullptr /\ 200 <> nullptr /\
  fst (CalculateUtility 3 100 200 3 (example_world F W)) <> Undefined.
Proof.
  intros F W.
  assert (Harr : arrays_of (example_heap F W) 100 200 3 F W)
    by solve_arrays_of.
  assert (Hpf : 100 <> nullptr) by discriminate.
  assert (Hpw : 200 <> nullptr) by discriminate.
  repeat (split; [assumption|]).
  exact (proj1 (CalculateUtility_accesses_in_bounds 3 100 200 3 F W
                  (example_heap F W) [] Harr Hpf Hpw)).
Defined.

(** C10. For a length [n] that fits [size_t], [n] units of fuel are always
    enough: the call is never cut short, whatever memory holds.  On
    sequences held by arrays it either raises InvalidInput or returns a
    score; and with non-null pointers the loop body runs exactly [n] times,
    for the indices [0] to [n - 1] in turn, so no smaller amount of fuel
    is enough. *)
Theorem CalculateUtility_terminates
    (fuel : nat) (factors weights : ptr) (n : Z) (w : world) :
  n <= SIZE_MAX -> n <= Z.of_nat fuel ->
  fst (CalculateUtility fuel factors weights n w) <> OutOfFuel /\
  forall F W : list float32,
    arrays_of (heap w) factors weights n F W ->
    (raises_InvalidInput (fst (CalculateUtility fuel factors weights n w)) \/
     exists s : float32,
       fst (CalculateUtility fuel factors weights n w) = Return s) /\
    (factors <> nullptr -> weights <> nullptr ->
     accesses (snd (CalculateUtility fuel factors weights n w)) =
       accesses w ++ loop_accesses factors weights 0 (Z.to_nat n) /\
     forall fuel' : nat,
       Z.of_nat fuel' < n ->
       fst (CalculateUtility fuel' factors weights n w) = OutOfFuel).
Proof.
  intros Hmax Hfuel. split.
  { apply CalculateUtility_enough_fuel; assumption. }
  intros F W Harr. destruct w as [h t]. cbn [heap accesses] in *.
  assert (HnF : n = Z.of_nat (List.length F)) by (destruct Harr; assumption).
  destruct ((factors =? nullptr) || (weights =? nullptr) || (n =? 0))
    eqn:Hcheck.
  - split.
    + left. unfold CalculateUtility. rewrite Hcheck. eexists. reflexivity.
    + intros Hpf Hpw. apply checks_fail in Hcheck as Hc.
      destruct Hc as [Hc|[Hc|Hc]]; [contradiction | contradiction |].
      subst n. unfold CalculateUtility. rewrite Hcheck.
      cbn [fst snd accesses]. rewrite Hc. simpl. rewrite app_nil_r.
      split; [reflexivity | intros fuel' Hlt; lia].
  - apply orb_false_iff in Hcheck. destruct Hcheck as [Hcheck Hn0].
    apply orb_false_iff in Hcheck. destruct Hcheck as [Hpf Hpw].
    apply Z.eqb_neq in Hpf, Hpw, Hn0.
    assert (Hn : 1 <= n) by lia.
    rewrite (CalculateUtility_arrays fuel factors weights n F W h t)
      by assumption.
    cbn [fst snd accesses]. split.
    + right. eexists. reflexivity.
    + intros _ _. rewrite HnF, Nat2Z.id. split; [reflexivity|].
      intros fuel' Hlt.
      rewrite (CalculateUtility_short fuel' factors weights
                 (Z.of_nat (List.length F)) F W h t);
        [reflexivity | rewrite <- HnF; assumption | | | ]; assumption.
Qed.

Lemma CalculateUtility_terminates_witness :
  let F := [of_Z 1; of_Z 2; of_Z 3] in
  let W := [of_Z 3; of_Z 2; of_Z 1] in
  3 <= SIZE_MAX /\ 3 <= Z.of_nat 3 /\
  fst (CalculateUtility 3 100 200 3 (example_world F W)) <> OutOfFuel.
Proof.
  intros F W.
  assert (Hmax : 3 <= SIZE_MAX) by (vm_compute; discriminate).
  assert (Hfuel : 3 <= Z.of_nat 3) by lia.
  repeat (split; [assumption|]).
  exact (proj1 (CalculateUtility_terminates 3 100 200 3
                  (example_world F W) Hmax Hfuel)).
Defined.

(** * Rounding to the format *)

Lemma digits2_pos_lower (p : positive) :
  2 ^ (Zpos (digits2_pos p) - 1) <= Zpos p.
Proof.
  induction p as [p IH|p IH|]; cbn [digits2_pos].
  - rewrite Pos2Z.inj_succ. replace (Z.succ (Zpos (digits2_pos p)) - 1)
      with (Z.succ (Zpos (digits2_pos p) - 1)) by lia.
    rewrite Z.pow_succ_r by lia. lia.
  - rewrite Pos2Z.inj_succ. replace (Z.succ (Zpos (digits2_pos p)) - 1)
      with (Z.succ (Zpos (digits2_pos p) - 1)) by lia.
    rewrite Z.pow_succ_r by lia. lia.
  - simpl. lia.
Qed.

Lemma shr_1_lower (mrs : shr_record) (k : Z) :
  0 <= k -> 2 ^ (1 + k) <= shr_m mrs -> 2 ^ k <= shr_m (shr_1 mrs).
Proof.
  intros Hk. destruct mrs as [m r s]. cbn [shr_m].
  rewrite Z.pow_add_r by lia. change (2 ^ 1) with 2.
  assert (0 < 2 ^ k) by (apply Z.pow_pos_nonneg; lia).
  destruct m as [|[p|p|]|p]; cbn [shr_1 shr_m]; lia.
Qed.

Lemma iter_shr_1_lower (n : positive) :
  forall (mrs : shr_record) (k : Z),
    0 <= k -> 2 ^ (Zpos n + k) <= shr_m mrs ->
    2 ^ k <= shr_m (SpecFloat.iter_pos shr_1 n mrs).
Proof.
  induction n as [n IH|n IH|]; intros mrs k Hk Hm; cbn [SpecFloat.iter_pos].
  - apply IH; [lia|]. apply IH; [lia|]. apply shr_1_lower; [lia|].
    replace (1 + (Zpos n + (Zpos n + k))) with (Zpos n~1 + k) by lia. exact Hm.
  - apply IH; [lia|]. apply IH; [lia|].
    replace (Zpos n + (Zpos n + k)) with (Zpos n~0 + k) by lia. exact Hm.
  - apply shr_1_lower; assumption.
Qed.

Lemma shr_1_nonneg (mrs : shr_record) :
  0 <= shr_m mrs -> 0 <= shr_m (shr_1 mrs).
Proof.
  destruct mrs as [m r s]. destruct m as [|[p|p|]|p]; cbn [shr_1 shr_m]; lia.
Qed.

Lemma iter_shr_1_nonneg (n : positive) :
  forall mrs : shr_record,
    0 <= shr_m mrs -> 0 <= shr_m (SpecFloat.iter_pos shr_1 n mrs).
Proof.
  induction n as [n IH|n IH|]; intros mrs Hm; cbn [SpecFloat.iter_pos].
  - apply IH, IH, shr_1_nonneg, Hm.
  - apply IH, IH, Hm.
  - apply shr_1_nonneg, Hm.
Qed.

Lemma shr_record_of_loc_m (m : Z) (l : location) :
  shr_m (shr_record_of_loc m l) = m.
Proof. destruct l as [|[| |]]; reflexivity. Qed.

(** Shifting to the exponent of the format: the exponent reached is never
    below [emin], and a mantissa that is not negative stays so. *)
Lemma shr_fexp_exponent (m e : Z) (l : location) :
  emin32 <= snd (shr_fexp prec emax m e l).
Proof.
  unfold shr_fexp, shr, fexp, emin32.
  destruct (Z.max (Zdigits2 m + e - prec) (emin prec emax) - e) eqn:En;
    cbn [snd]; lia.
Qed.

Lemma shr_fexp_nonneg (m e : Z) (l : location) :
  0 <= m -> 0 <= shr_m (fst (shr_fexp prec emax m e l)).
Proof.
  intros Hm. unfold shr_fexp, shr.
  destruct (fexp prec emax (Zdigits2 m + e) - e); cbn [fst];
    try (rewrite shr_record_of_loc_m; exact Hm).
  apply iter_shr_1_nonneg. rewrite shr_record_of_loc_m. exact Hm.
Qed.

Lemma shr_fexp_pos (p : positive) (e : Z) (l : location) :
  emin32 <= e -> 0 < shr_m (fst (shr_fexp prec emax (Zpos p) e l)).
Proof.
  intros He. unfold shr_fexp, shr, fexp, emin32 in *. cbn [Zdigits2].
  destruct (Z.max (Zpos (digits2_pos p) + e - prec) (emin prec emax) - e)
    as [|n|n] eqn:En; cbn [fst]; try (rewrite shr_record_of_loc_m; lia).
  assert (Hn : Zpos n = Zpos (digits2_pos p) - prec) by lia.
  assert (H1 : 2 ^ 0 <= shr_m (SpecFloat.iter_pos shr_1 n (shr_record_of_loc (Zpos p) l))).
  { apply iter_shr_1_lower; [lia|]. rewrite shr_record_of_loc_m.
    etransitivity; [|apply digits2_pos_lower].
    apply Z.pow_le_mono_r; [lia|]. unfold prec in Hn. lia. }
  simpl in H1. lia.
Qed.

Lemma round_nearest_even_lower (m : Z) (l : location) :
  m <= round_nearest_even m l.
Proof.
  destruct l as [|[| |]]; cbn [round_nearest_even]; try lia.
  destruct (Z.even m); lia.
Qed.

Lemma binary_round_aux_cases (s : bool) (m e : Z) (l : location) :
  0 <= m ->
  binary_round_aux prec emax s m e l = S754_zero s \/
  binary_round_aux prec emax s m e l = S754_infinity s \/
  exists (m' : positive) (e' : Z),
    binary_round_aux prec emax s m e l = S754_finite s m' e' /\
    emin32 <= e'.
Proof.
  intros Hm. unfold binary_round_aux.
  pose proof (shr_fexp_nonneg m e l Hm) as H1.
  destruct (shr_fexp prec emax m e l) as [mrs' e'].
  cbn [fst] in H1.
  pose proof (round_nearest_even_lower (shr_m mrs') (loc_of_shr_record mrs'))
    as Hr.
  set (m1 := round_nearest_even (shr_m mrs') (loc_of_shr_record mrs')) in *.
  pose proof (shr_fexp_nonneg m1 e' loc_Exact ltac:(lia)) as H2.
  pose proof (shr_fexp_exponent m1 e' loc_Exact) as He2.
  destruct (shr_fexp prec emax m1 e' loc_Exact) as [mrs'' e''].
  cbn [fst snd] in H2, He2.
  destruct (shr_m mrs'') as [|q|q]; [left; reflexivity | | lia].
  right. destruct (e'' <=? emax - prec); [right | left; reflexivity].
  exists q, e''. split; [reflexivity | exact He2].
Qed.

Lemma binary_round_aux_nonzero (s s' : bool) (p : positive) (e : Z)
    (l : location) :
  emin32 <= e ->
  binary_round_aux prec emax s (Zpos p) e l <> S754_zero s'.
Proof.
  intros He. unfold binary_round_aux.
  pose proof (shr_fexp_pos p e l He) as H1.
  pose proof (shr_fexp_exponent (Zpos p) e l) as He1.
  destruct (shr_fexp prec emax (Zpos p) e l) as [mrs' e'].
  cbn [fst snd] in H1, He1.
  pose proof (round_nearest_even_lower (shr_m mrs') (loc_of_shr_record mrs'))
    as Hr.
  destruct (round_nearest_even (shr_m mrs') (loc_of_shr_record mrs'))
    as [|q|q]; try lia.
  pose proof (shr_fexp_pos q e' loc_Exact He1) as H2.
  destruct (shr_fexp prec emax (Zpos q) e' loc_Exact) as [mrs'' e''].
  cbn [fst] in H2.
  destruct (shr_m mrs'') as [|r|r]; try lia.
  destruct (e'' <=? emax - prec); discriminate.
Qed.

Lemma shl_align_exponent (m : positive) (e e' : Z) :
  emin32 <= e -> emin32 <= e' -> emin32 <= snd (shl_align m e e').
Proof.
  intros He He'. unfold shl_align. destruct (e' - e); cbn [snd]; lia.
Qed.

Lemma fexp_lower (e : Z) : emin32 <= fexp prec emax e.
Proof. unfold fexp, emin32. lia. Qed.

Lemma binary_round_cases (s : bool) (m : positive) (e : Z) :
  binary_round prec emax s m e = S754_zero s \/
  binary_round prec emax s m e = S754_infinity s \/
  exists (m' : positive) (e' : Z),
    binary_round prec emax s m e = S754_finite s m' e' /\ emin32 <= e'.
Proof.
  unfold binary_round.
  destruct (shl_align m e (fexp prec emax (Zpos (digits2_pos m) + e)))
    as [mz ez].
  apply binary_round_aux_cases. lia.
Qed.

Lemma binary_round_nonzero (s s' : bool) (m : positive) (e : Z) :
  emin32 <= e -> binary_round prec emax s m e <> S754_zero s'.
Proof.
  intros He. unfold binary_round.
  pose proof (shl_align_exponent m e
                (fexp prec emax (Zpos (digits2_pos m) + e)) He
                (fexp_lower _)) as Hz.
  destruct (shl_align m e (fexp prec emax (Zpos (digits2_pos m) + e)))
    as [mz ez].
  apply binary_round_aux_nonzero. exact Hz.
Qed.

(** A product is never a finite number with an exponent below [emin]. *)
Lemma fmul_low_exp (x y : float32) : low_exp (fmul x y).
Proof.
  destruct x as [sx|sx| |sx mx ex], y as [sy|sy| |sy my ey];
    try exact I.
  unfold fmul, SFmul.
  destruct (binary_round_aux_cases (xorb sx sy) (Zpos (mx * my)) (ex + ey)
              loc_Exact ltac:(lia)) as [E|[E|(m' & e' & E & He)]];
    rewrite E; [exact I | exact I | exact He].
Qed.

Lemma fadd_low_exp (x y : float32) :
  low_exp x -> low_exp y -> low_exp (fadd x y).
Proof.
  destruct x as [sx|sx| |sx mx ex], y as [sy|sy| |sy my ey];
    intros Hx Hy; try exact I; try assumption;
    try (destruct sx, sy; exact I).
  unfold fadd, SFadd.
  set (z := (cond_Zopp sx (Zpos (fst (shl_align mx ex (Z.min ex ey)))) +
             cond_Zopp sy (Zpos (fst (shl_align my ey (Z.min ex ey)))))).
  unfold binary_normalize. destruct z as [|p|p]; [exact I | |].
  - destruct (binary_round_cases false p (Z.min ex ey))
      as [E|[E|(m' & e' & E & He)]]; rewrite E; [exact I | exact I | exact He].
  - destruct (binary_round_cases true p (Z.min ex ey))
      as [E|[E|(m' & e' & E & He)]]; rewrite E; [exact I | exact I | exact He].
Qed.

(** A sum is a negative zero only if its first operand is one. *)
Lemma fadd_not_neg_zero (x y : float32) :
  low_exp x -> low_exp y -> x <> neg_zero -> fadd x y <> neg_zero.
Proof.
  unfold neg_zero, fadd.
  destruct x as [sx|sx| |sx mx ex], y as [sy|sy| |sy my ey];
    intros Hx Hy Hnz; cbn [SFadd]; try discriminate; try assumption;
    try (destruct sx, sy; discriminate || congruence).
  set (z := (cond_Zopp sx (Zpos (fst (shl_align mx ex (Z.min ex ey)))) +
             cond_Zopp sy (Zpos (fst (shl_align my ey (Z.min ex ey)))))).
  unfold binary_normalize. destruct z as [|p|p]; [discriminate | |];
    apply binary_round_nonzero; simpl in Hx, Hy; lia.
Qed.

(** * Accumulators *)

Lemma valid_low_exp (x : float32) : valid x = true -> low_exp x.
Proof.
  destruct x as [s|s| |s m e]; try (intros; exact I).
  unfold valid, valid_binary, bounded, canonical_mantissa. intros H.
  apply andb_true_iff in H. destruct H as [H _]. apply Z.eqb_eq in H.
  cbn [low_exp]. rewrite <- H. apply fexp_lower.
Qed.

Lemma acc_ok_fzero : acc_ok fzero.
Proof. split; [exact I | discriminate]. Qed.

Lemma weighted_sum_from_cons (acc f w : float32) (F W : list float32) :
  weighted_sum_from acc (f :: F) (w :: W) =
    weighted_sum_from (fadd acc (fmul f w)) F W.
Proof. reflexivity. Qed.

Lemma weight_total_from_cons (acc w : float32) (W : list float32) :
  weight_total_from acc (w :: W) = weight_total_from (fadd acc w) W.
Proof. reflexivity. Qed.

Lemma weighted_sum_from_app (F1 : list float32) :
  forall (W1 F2 W2 : list float32) (acc : float32),
    List.length F1 = List.length W1 ->
    weighted_sum_from acc (F1 ++ F2) (W1 ++ W2) =
      weighted_sum_from (weighted_sum_from acc F1 W1) F2 W2.
Proof.
  induction F1 as [|f F1 IH]; intros [|w W1] F2 W2 acc HL;
    try discriminate; [reflexivity|].
  injection HL as HL. cbn [app]. rewrite !weighted_sum_from_cons.
  apply IH. exact HL.
Qed.

Lemma weight_total_from_app (W1 W2 : list float32) (acc : float32) :
  weight_total_from acc (W1 ++ W2) =
    weight_total_from (weight_total_from acc W1) W2.
Proof. unfold weight_total_from. apply fold_left_app. Qed.

(** The accumulator of the weighted sum is never a negative zero, whatever
    the factors and weights are. *)
Lemma weighted_sum_from_ok (F : list float32) :
  forall (W : list float32) (acc : float32),
    acc_ok acc -> acc_ok (weighted_sum_from acc F W).
Proof.
  induction F as [|f F IH]; intros [|w W] acc Hacc; try exact Hacc.
  rewrite weighted_sum_from_cons. apply IH. destruct Hacc as [Hl Hz].
  split.
  - apply fadd_low_exp; [exact Hl | apply fmul_low_exp].
  - apply fadd_not_neg_zero; [exact Hl | apply fmul_low_exp | exact Hz].
Qed.

Lemma weight_total_from_ok (W : list float32) :
  forall acc : float32,
    Forall (fun w => valid w = true) W ->
    acc_ok acc -> acc_ok (weight_total_from acc W).
Proof.
  induction W as [|w W IH]; intros acc HW Hacc; [exact Hacc|].
  inversion HW as [|? ? Hw HW']; subst.
  rewrite weight_total_from_cons. apply IH; [exact HW'|].
  destruct Hacc as [Hl Hz]. apply valid_low_exp in Hw. split.
  - apply fadd_low_exp; assumption.
  - apply fadd_not_neg_zero; assumption.
Qed.

Lemma fadd_zero_r (x : float32) (s : bool) :
  x <> neg_zero -> fadd x (S754_zero s) = x.
Proof.
  unfold neg_zero. destruct x as [sx|sx| |sx mx ex]; intros Hx;
    try reflexivity.
  destruct sx; [congruence|]. destruct s; reflexivity.
Qed.

Lemma fmul_finite_zero (f z : float32) :
  is_finite f = true -> feqb z fzero = true ->
  exists s : bool, fmul f z = S754_zero s.
Proof.
  intros Hf Hz. apply feqb_zero_iff in Hz. destruct Hz as [sz ->].
  destruct f as [s|s| |s m e]; try discriminate; eexists; reflexivity.
Qed.

(** An element with a finite factor and a zero weight leaves both sums as
    they are. *)
Lemma sums_skip_zero_weight (F1 W1 F2 W2 : list float32) (f z : float32) :
  List.length F1 = List.length W1 ->
  is_finite f = true -> feqb z fzero = true ->
  Forall (fun w => valid w = true) W1 ->
  weighted_sum (F1 ++ f :: F2) (W1 ++ z :: W2) =
    weighted_sum (F1 ++ F2) (W1 ++ W2) /\
  weight_total (W1 ++ z :: W2) = weight_total (W1 ++ W2).
Proof.
  intros HL Hf Hz HW1. unfold weighted_sum, weight_total.
  rewrite !weighted_sum_from_app by exact HL.
  rewrite !weight_total_from_app.
  rewrite weighted_sum_from_cons, weight_total_from_cons.
  destruct (fmul_finite_zero f z Hf Hz) as [s Es]. rewrite Es.
  destruct (weighted_sum_from_ok F1 W1 fzero acc_ok_fzero) as [_ Hws].
  destruct (weight_total_from_ok W1 fzero HW1 acc_ok_fzero) as [_ Hwt].
  rewrite (fadd_zero_r _ s Hws).
  apply feqb_zero_iff in Hz. destruct Hz as [sz ->].
  rewrite (fadd_zero_r _ sz Hwt). split; reflexivity.
Qed.

Lemma score_skip_zero_weight (F1 W1 F2 W2 : list float32) (f z : float32) :
  List.length F1 = List.length W1 ->
  is_finite f = true -> feqb z fzero = true ->
  Forall (fun w => valid w = true) W1 ->
  score (F1 ++ f :: F2) (W1 ++ z :: W2) = score (F1 ++ F2) (W1 ++ W2).
Proof.
  intros HL Hf Hz HW1.
  destruct (sums_skip_zero_weight F1 W1 F2 W2 f z HL Hf Hz HW1) as [E1 E2].
  unfold score, normalized_weighted_sum. rewrite E1, E2. reflexivity.
Qed.

(** * NaNs *)

Lemma fadd_nan_l (y : float32) : fadd S754_nan y = S754_nan.
Proof. reflexivity. Qed.

Lemma fadd_nan_r (x : float32) : fadd x S754_nan = S754_nan.
Proof. destruct x; reflexivity. Qed.

Lemma fdiv_nan_l (y : float32) : fdiv S754_nan y = S754_nan.
Proof. reflexivity. Qed.

Lemma fdiv_nan_r (x : float32) : fdiv x S754_nan = S754_nan.
Proof. destruct x; reflexivity. Qed.

Lemma weighted_sum_from_nan (F : list float32) :
  forall W : list float32, weighted_sum_from S754_nan F W = S754_nan.
Proof.
  induction F as [|f F IH]; intros [|w W]; try reflexivity.
  rewrite weighted_sum_from_cons, fadd_nan_l. apply IH.
Qed.

Lemma weight_total_from_nan (W : list float32) :
  weight_total_from S754_nan W = S754_nan.
Proof.
  induction W as [|w W IH]; [reflexivity|].
  rewrite weight_total_from_cons, fadd_nan_l. exact IH.
Qed.

(** A NaN among the weights makes the weight total a NaN. *)
Lemma weight_total_nan (W : list float32) :
  In S754_nan W -> weight_total W = S754_nan.
Proof.
  intros Hin. apply in_split in Hin. destruct Hin as (W1 & W2 & ->).
  unfold weight_total.
  rewrite weight_total_from_app, weight_total_from_cons, fadd_nan_r.
  apply weight_total_from_nan.
Qed.

(** A product that is a NaN makes the weighted sum a NaN. *)
Lemma weighted_sum_nan (F1 W1 F2 W2 : list float32) (f w : float32) :
  List.length F1 = List.length W1 -> fmul f w = S754_nan ->
  weighted_sum (F1 ++ f :: F2) (W1 ++ w :: W2) = S754_nan.
Proof.
  intros HL Hp. unfold weighted_sum.
  rewrite weighted_sum_from_app by exact HL.
  rewrite weighted_sum_from_cons, Hp, fadd_nan_r.
  apply weighted_sum_from_nan.
Qed.

Lemma fmul_not_finite (f w : float32) :
  is_nan f = true \/ (is_finite f = false /\ feqb w fzero = true) ->
  fmul f w = S754_nan.
Proof.
  intros [Hf|[Hf Hw]].
  - destruct f; try discriminate. reflexivity.
  - apply feqb_zero_iff in Hw. destruct Hw as [s ->].
    destruct f; try discriminate; reflexivity.
Qed.

(** * Zero factors *)

Lemma weighted_sum_from_zeros (F : list float32) :
  forall W : list float32,
    Forall (fun f => feqb f fzero = true) F ->
    Forall (fun w => is_finite w = true) W ->
    weighted_sum_from fzero F W = fzero.
Proof.
  induction F as [|f F IH]; intros [|w W] HF HW; try reflexivity.
  inversion HF as [|? ? Hf HF']; subst.
  inversion HW as [|? ? Hw HW']; subst.
  rewrite weighted_sum_from_cons.
  apply feqb_zero_iff in Hf. destruct Hf as [sf ->].
  assert (E : fadd fzero (fmul (S754_zero sf) w) = fzero).
  { destruct w as [s|s| |s m e]; try discriminate Hw;
      destruct sf, s; reflexivity. }
  rewrite E. apply IH; assumption.
Qed.

Lemma fadd_finite_not_nan (x w : float32) :
  is_nan x = false -> is_finite w = true -> is_nan (fadd x w) = false.
Proof.
  destruct x as [sx|sx| |sx mx ex], w as [sw|sw| |sw mw ew];
    try discriminate; intros _ _; try reflexivity;
    try (destruct sx, sw; reflexivity).
  unfold fadd, SFadd.
  set (z := (cond_Zopp sx (Zpos (fst (shl_align mx ex (Z.min ex ew)))) +
             cond_Zopp sw (Zpos (fst (shl_align mw ew (Z.min ex ew)))))).
  unfold binary_normalize. destruct z as [|p|p]; [reflexivity | |].
  - destruct (binary_round_cases false p (Z.min ex ew))
      as [E|[E|(m' & e' & E & _)]]; rewrite E; reflexivity.
  - destruct (binary_round_cases true p (Z.min ex ew))
      as [E|[E|(m' & e' & E & _)]]; rewrite E; reflexivity.
Qed.

Lemma weight_total_from_not_nan (W : list float32) :
  forall acc : float32,
    Forall (fun w => is_finite w = true) W -> is_nan acc = false ->
    is_nan (weight_total_from acc W) = false.
Proof.
  induction W as [|w W IH]; intros acc HW Hacc; [exact Hacc|].
  inversion HW as [|? ? Hw HW']; subst.
  rewrite weight_total_from_cons. apply IH; [exact HW'|].
  apply fadd_finite_not_nan; assumption.
Qed.

Lemma score_zero_factors (F W : list float32) :
  Forall (fun f => feqb f fzero = true) F ->
  Forall (fun w => is_finite w = true) W ->
  feqb (score F W) fzero = true.
Proof.
  intros HF HW. unfold score, normalized_weighted_sum, weighted_sum.
  rewrite (weighted_sum_from_zeros F W HF HW).
  pose proof (weight_total_from_not_nan W fzero HW eq_refl) as Hnan.
  fold (weight_total W) in Hnan.
  destruct (feqb (weight_total W) fzero) eqn:Ez; [reflexivity|].
  destruct (weight_total W) as [s|s| |s m e]; try discriminate Hnan.
  - destruct s; discriminate Ez.
  - destruct s; reflexivity.
  - destruct s; reflexivity.
Qed.

(** * Changing signs *)

Lemma binary_round_aux_opp (s : bool) (m e : Z) (l : location) :
  binary_round_aux prec emax (negb s) m e l =
    fneg (binary_round_aux prec emax s m e l).
Proof.
  unfold binary_round_aux.
  destruct (shr_fexp prec emax m e l) as [mrs' e'].
  destruct (shr_fexp prec emax
              (round_nearest_even (shr_m mrs') (loc_of_shr_record mrs'))
              e' loc_Exact) as [mrs'' e''].
  destruct (shr_m mrs''); try reflexivity.
  destruct (e'' <=? emax - prec); reflexivity.
Qed.

Lemma binary_round_opp (s : bool) (m : positive) (e : Z) :
  binary_round prec emax (negb s) m e = fneg (binary_round prec emax s m e).
Proof.
  unfold binary_round.
  destruct (shl_align m e (fexp prec emax (Zpos (digits2_pos m) + e))).
  apply binary_round_aux_opp.
Qed.

Lemma xorb_negb_l (a b : bool) : xorb (negb a) b = negb (xorb a b).
Proof. destruct a, b; reflexivity. Qed.

Lemma xorb_negb_r (a b : bool) : xorb a (negb b) = negb (xorb a b).
Proof. destruct a, b; reflexivity. Qed.

Lemma fmul_fneg_l (x y : float32) : fmul (fneg x) y = fneg (fmul x y).
Proof.
  destruct x as [sx|sx| |sx mx ex], y as [sy|sy| |sy my ey];
    unfold fmul, fneg; cbn [SFmul SFopp]; rewrite ?xorb_negb_l;
    try reflexivity.
  apply binary_round_aux_opp.
Qed.

Lemma fmul_fneg_r (x y : float32) : fmul x (fneg y) = fneg (fmul x y).
Proof.
  destruct x as [sx|sx| |sx mx ex], y as [sy|sy| |sy my ey];
    unfold fmul, fneg; cbn [SFmul SFopp]; rewrite ?xorb_negb_r;
    try reflexivity.
  apply binary_round_aux_opp.
Qed.

Lemma fdiv_fneg_l (x y : float32) : fdiv (fneg x) y = fneg (fdiv x y).
Proof.
  destruct x as [sx|sx| |sx mx ex], y as [sy|sy| |sy my ey];
    unfold fdiv, fneg; cbn [SFdiv SFopp]; rewrite ?xorb_negb_l;
    try reflexivity.
  destruct (SFdiv_core_binary prec emax (Zpos mx) ex (Zpos my) ey)
    as [[mz ez] lz].
  apply binary_round_aux_opp.
Qed.

Lemma fdiv_fneg_r (x y : float32) : fdiv x (fneg y) = fneg (fdiv x y).
Proof.
  destruct x as [sx|sx| |sx mx ex], y as [sy|sy| |sy my ey];
    unfold fdiv, fneg; cbn [SFdiv SFopp]; rewrite ?xorb_negb_r;
    try reflexivity.
  destruct (SFdiv_core_binary prec emax (Zpos mx) ex (Zpos my) ey)
    as [[mz ez] lz].
  apply binary_round_aux_opp.
Qed.

Lemma fneg_involutive (x : float32) : fneg (fneg x) = x.
Proof. destruct x as [s|s| |s m e]; cbn; rewrite ?negb_involutive; reflexivity. Qed.

Lemma cond_Zopp_negb (s : bool) (m : Z) :
  cond_Zopp (negb s) m = - cond_Zopp s m.
Proof. destruct s; cbn; lia. Qed.

Lemma binary_normalize_opp (z e : Z) :
  z <> 0 ->
  binary_normalize prec emax (- z) e false =
    fneg (binary_normalize prec emax z e false).
Proof.
  intros Hz. destruct z as [|p|p]; [congruence | |]; cbn [Z.opp binary_normalize].
  - apply (binary_round_opp false).
  - pose proof (binary_round_opp false p e) as H. cbn [negb] in H.
    rewrite H. symmetry. apply fneg_involutive.
Qed.

(** Adding the negated operands gives the negated sum, or both sums are
    [0.0f]. *)
Lemma fadd_fneg (x y : float32) :
  mirrored (fadd x y) (fadd (fneg x) (fneg y)) \/
  (exists s s', x = S754_zero s /\ y = S754_zero s').
Proof.
  destruct x as [sx|sx| |sx mx ex], y as [sy|sy| |sy my ey];
    try (left; left; reflexivity);
    try (right; do 2 eexists; split; reflexivity);
    try (left; left; destruct sx, sy; reflexivity).
  left. unfold fadd, fneg. cbn [SFopp SFadd].
  rewrite !cond_Zopp_negb.
  set (a := cond_Zopp sx (Zpos (fst (shl_align mx ex (Z.min ex ey))))).
  set (b := cond_Zopp sy (Zpos (fst (shl_align my ey (Z.min ex ey))))).
  replace (- a + - b) with (- (a + b)) by lia.
  destruct (Z.eq_dec (a + b) 0) as [E0|Hnz].
  - right. rewrite E0. split; reflexivity.
  - left. apply binary_normalize_opp. exact Hnz.
Qed.

Lemma fadd_mirrored (x x' p : float32) :
  mirrored x x' -> x <> neg_zero -> x' <> neg_zero ->
  mirrored (fadd x p) (fadd x' (fneg p)).
Proof.
  intros [->|[-> ->]] Hx Hx'.
  - destruct (fadd_fneg x p) as [H|(s & s' & -> & ->)]; [exact H|].
    exfalso. destruct s; [apply Hx | apply Hx']; reflexivity.
  - destruct p as [s|s| |s m e].
    + right. destruct s; split; reflexivity.
    + left. reflexivity.
    + left. reflexivity.
    + left. reflexivity.
Qed.

Lemma mirrored_fzero : mirrored fzero fzero.
Proof. right. split; reflexivity. Qed.

Lemma low_exp_fneg (x : float32) : low_exp x -> low_exp (fneg x).
Proof. destruct x; exact (fun H => H). Qed.

Lemma valid_fneg (x : float32) : valid (fneg x) = valid x.
Proof. destruct x; reflexivity. Qed.

Lemma feqb_fneg_zero (x : float32) : feqb (fneg x) fzero = feqb x fzero.
Proof. destruct x as [s|s| |s m e]; try destruct s; reflexivity. Qed.

Lemma acc_ok_step (acc p : float32) :
  acc_ok acc -> low_exp p -> acc_ok (fadd acc p).
Proof.
  intros [Hl Hz] Hp. split.
  - apply fadd_low_exp; assumption.
  - apply fadd_not_neg_zero; assumption.
Qed.

Lemma weighted_sum_from_fneg_factors (F : list float32) :
  forall (W : list float32) (ws ws' : float32),
    mirrored ws ws' -> acc_ok ws -> acc_ok ws' ->
    mirrored (weighted_sum_from ws F W)
             (weighted_sum_from ws' (map fneg F) W).
Proof.
  induction F as [|f F IH]; intros [|w W] ws ws' Hm Hok Hok';
    try exact Hm.
  cbn [map]. rewrite !weighted_sum_from_cons, fmul_fneg_l.
  apply IH.
  - apply fadd_mirrored; [exact Hm | apply Hok | apply Hok'].
  - apply acc_ok_step; [exact Hok | apply fmul_low_exp].
  - apply acc_ok_step; [exact Hok' | apply low_exp_fneg, fmul_low_exp].
Qed.

Lemma weighted_sum_from_fneg_weights (F : list float32) :
  forall (W : list float32) (ws ws' : float32),
    mirrored ws ws' -> acc_ok ws -> acc_ok ws' ->
    mirrored (weighted_sum_from ws F W)
             (weighted_sum_from ws' F (map fneg W)).
Proof.
  induction F as [|f F IH]; intros [|w W] ws ws' Hm Hok Hok';
    try exact Hm.
  cbn [map]. rewrite !weighted_sum_from_cons, fmul_fneg_r.
  apply IH.
  - apply fadd_mirrored; [exact Hm | apply Hok | apply Hok'].
  - apply acc_ok_step; [exact Hok | apply fmul_low_exp].
  - apply acc_ok_step; [exact Hok' | apply low_exp_fneg, fmul_low_exp].
Qed.

Lemma weight_total_from_fneg (W : list float32) :
  forall wt wt' : float32,
    Forall (fun w => valid w = true) W ->
    mirrored wt wt' -> acc_ok wt -> acc_ok wt' ->
    mirrored (weight_total_from wt W) (weight_total_from wt' (map fneg W)).
Proof.
  induction W as [|w W IH]; intros wt wt' HW Hm Hok Hok'; [exact Hm|].
  inversion HW as [|? ? Hw HW']; subst. apply valid_low_exp in Hw.
  cbn [map]. rewrite !weight_total_from_cons.
  apply IH; [exact HW' | | |].
  - apply fadd_mirrored; [exact Hm | apply Hok | apply Hok'].
  - apply acc_ok_step; assumption.
  - apply acc_ok_step; [exact Hok' | apply low_exp_fneg, Hw].
Qed.

Lemma fdiv_fzero_cases (y : float32) :
  feqb y fzero = false ->
  is_nan y = true \/
  (feqb (fdiv fzero y) fzero = true /\
   feqb (fdiv fzero (fneg y)) fzero = true).
Proof.
  destruct y as [s|s| |s m e]; intros Hy.
  - destruct s; discriminate Hy.
  - right. destruct s; split; reflexivity.
  - left. reflexivity.
  - right. destruct s; split; reflexivity.
Qed.

(** Negating every factor negates the score, or both scores are zeros. *)
Lemma score_fneg_factors (F W : list float32) :
  score (map fneg F) W = fneg (score F W) \/
  (feqb (score F W) fzero = true /\
   feqb (score (map fneg F) W) fzero = true).
Proof.
  unfold score, normalized_weighted_sum.
  destruct (feqb (weight_total W) fzero) eqn:Ez.
  { right. split; reflexivity. }
  destruct (weighted_sum_from_fneg_factors F W fzero fzero mirrored_fzero
              acc_ok_fzero acc_ok_fzero) as [E|[E E']];
    fold (weighted_sum F W) in *; fold (weighted_sum (map fneg F) W) in *.
  - left. rewrite E. apply fdiv_fneg_l.
  - rewrite E, E'.
    destruct (fdiv_fzero_cases (weight_total W) Ez) as [Hnan|[H _]].
    + left. destruct (weight_total W); try discriminate Hnan. reflexivity.
    + right. split; exact H.
Qed.

(** Negating every weight leaves the score as it is, or both scores are
    zeros. *)
Lemma score_fneg_weights (F W : list float32) :
  Forall (fun w => valid w = true) W ->
  score F (map fneg W) = score F W \/
  (feqb (score F W) fzero = true /\
   feqb (score F (map fneg W)) fzero = true).
Proof.
  intros HW. unfold score, normalized_weighted_sum.
  pose proof (weight_total_from_fneg W fzero fzero HW mirrored_fzero
                acc_ok_fzero acc_ok_fzero) as Ht.
  fold (weight_total W) in Ht. fold (weight_total (map fneg W)) in Ht.
  destruct Ht as [Et|[Et Et']].
  2:{ rewrite Et, Et'. left. reflexivity. }
  rewrite Et, feqb_fneg_zero.
  destruct (feqb (weight_total W) fzero) eqn:Ez; [left; reflexivity|].
  destruct (weighted_sum_from_fneg_weights F W fzero fzero mirrored_fzero
              acc_ok_fzero acc_ok_fzero) as [E|[E E']];
    fold (weighted_sum F W) in *; fold (weighted_sum F (map fneg W)) in *.
  - left. rewrite E, fdiv_fneg_l, fdiv_fneg_r. apply fneg_involutive.
  - rewrite E, E'.
    destruct (fdiv_fzero_cases (weight_total W) Ez) as [Hnan|[H H']].
    + left. destruct (weight_total W); try discriminate Hnan. reflexivity.
    + right. split; assumption.
Qed.

(** * Reads outside the arrays *)

(** When the arrays end before index [n], the loop runs through what they
    hold and then reads past their end. *)
Lemma for_loop_overrun (F : list float32) :
  forall (W : list float32) (fuel : nat) (pf pw : ptr) (n i : Z)
         (ws wt : float32) (h : gmap Z float32) (t : list access),
    List.length F = List.length W ->
    array_at h (pf + i) F -> array_at h (pw + i) W ->
    0 <= i -> i + Z.of_nat (List.length F) < n -> n <= SIZE_MAX ->
    h !! (pf + (i + Z.of_nat (List.length F))) = None \/
      h !! (pw + (i + Z.of_nat (List.length F))) = None ->
    (List.length F < fuel)%nat ->
    exists new : list access,
      for_loop fuel pf pw n i ws wt (World h t) =
        (Undefined,
         World h (t ++ loop_accesses pf pw i (List.length F) ++ new)) /\
      (new = [Read pf (i + Z.of_nat (List.length F))] \/
       new = [Read pf (i + Z.of_nat (List.length F));
              Read pw (i + Z.of_nat (List.length F))]).
Proof.
  induction F as [|f F IH];
    intros W fuel pf pw n i ws wt h t HL HF HW Hi Hn Hmax Hend Hfuel.
  - destruct W; [|discriminate]. cbn [List.length Z.of_nat] in *.
    rewrite Z.add_0_r in *.
    destruct fuel as [|fuel]; [lia|]. cbn [for_loop loop_accesses].
    rewrite (proj2 (Z.ltb_lt i n)) by lia. unfold bind.
    destruct (h !! (pf + i)) as [f|] eqn:Ef.
    + destruct Hend as [Hend|Hend]; [discriminate|].
      exists [Read pf i; Read pw i].
      rewrite (load_hit _ _ _ _ _ Ef), (load_miss _ _ _ _ Hend).
      rewrite <- app_assoc. split; [reflexivity | right; reflexivity].
    + exists [Read pf i]. rewrite (load_miss _ _ _ _ Ef).
      split; [reflexivity | left; reflexivity].
  - destruct W as [|w W]; [discriminate|].
    destruct fuel as [|fuel]; [simpl in Hfuel; lia|].
    cbn [List.length] in *. injection HL as HL.
    destruct HF as [Ef HF]. destruct HW as [Ew HW].
    rewrite Nat2Z.inj_succ in *.
    cbn [for_loop]. rewrite (proj2 (Z.ltb_lt i n)) by lia.
    unfold bind. rewrite (load_hit _ _ _ _ _ Ef).
    rewrite (load_hit _ _ _ _ _ Ew). rewrite (load_hit _ _ _ _ _ Ew).
    rewrite (size_incr_small i n) by lia.
    rewrite <- Z.add_assoc in HF, HW.
    replace (i + Z.succ (Z.of_nat (List.length F)))
      with (i + 1 + Z.of_nat (List.length F)) in * by lia.
    destruct (IH W fuel pf pw n (i + 1) (fadd ws (fmul f w)) (fadd wt w) h
                (((t ++ [Read pf i]) ++ [Read pw i]) ++ [Read pw i])
                HL HF HW) as (new & Hrun & Hnew); try lia; try assumption.
    exists new. rewrite Hrun. split; [|exact Hnew].
    cbn [loop_accesses]. rewrite <- !app_assoc. reflexivity.
Qed.

(** The loop sees memory through the cells [i] to [n - 1] of the two
    arrays only. *)
Lemma for_loop_agree (fuel : nat) :
  forall (pf pw : ptr) (n i : Z) (ws wt : float32)
         (h h' : gmap Z float32) (t t' : list access),
    0 <= i -> n <= SIZE_MAX ->
    (forall j : Z, i <= j < n ->
       h !! (pf + j) = h' !! (pf + j) /\ h !! (pw + j) = h' !! (pw + j)) ->
    fst (for_loop fuel pf pw n i ws wt (World h t)) =
      fst (for_loop fuel pf pw n i ws wt (World h' t')).
Proof.
  induction fuel as [|fuel IH]; intros pf pw n i ws wt h h' t t' Hi Hmax Hag;
    cbn [for_loop].
  - destruct (i <? n); reflexivity.
  - destruct (i <? n) eqn:Elt; [|reflexivity]. apply Z.ltb_lt in Elt.
    destruct (Hag i ltac:(lia)) as [Hf Hw]. unfold bind.
    destruct (h !! (pf + i)) as [f|] eqn:Ef; symmetry in Hf.
    2:{ rewrite (load_miss _ _ _ _ Ef), (load_miss _ _ _ _ Hf).
        reflexivity. }
    rewrite (load_hit _ _ _ _ _ Ef), (load_hit _ _ _ _ _ Hf).
    destruct (h !! (pw + i)) as [w|] eqn:Ew; symmetry in Hw.
    2:{ rewrite (load_miss _ _ _ _ Ew), (load_miss _ _ _ _ Hw).
        reflexivity. }
    rewrite !(load_hit _ _ _ _ _ Ew), !(load_hit _ _ _ _ _ Hw).
    rewrite (size_incr_small i n) by lia.
    apply IH; [lia | exact Hmax |]. intros j Hj. apply Hag. lia.
Qed.

(** However far the loop gets, it keeps its accumulators off the negative
    zero. *)
Lemma for_loop_acc_ok (fuel : nat) :
  forall (pf pw : ptr) (n i : Z) (ws wt ws' wt' : float32) (w w' : world),
    for_loop fuel pf pw n i ws wt w = (Return (ws', wt'), w') ->
    acc_ok ws ->
    acc_ok ws' /\ (heap_valid (heap w) -> acc_ok wt -> acc_ok wt').
Proof.
  induction fuel as [|fuel IH];
    intros pf pw n i ws wt ws' wt' [h t] w' Hrun Hws; cbn [for_loop] in Hrun.
  - destruct (i <? n); [discriminate Hrun|].
    injection Hrun as <- <- _. split; [exact Hws | intros _ H; exact H].
  - destruct (i <? n).
    2:{ injection Hrun as <- <- _. split; [exact Hws | intros _ H; exact H]. }
    unfold bind in Hrun.
    destruct (h !! (pf + i)) as [f|] eqn:Ef;
      [rewrite (load_hit _ _ _ _ _ Ef) in Hrun
      | rewrite (load_miss _ _ _ _ Ef) in Hrun; discriminate Hrun].
    destruct (h !! (pw + i)) as [x|] eqn:Ew;
      [rewrite !(load_hit _ _ _ _ _ Ew) in Hrun
      | rewrite (load_miss _ _ _ _ Ew) in Hrun; discriminate Hrun].
    destruct (IH _ _ _ _ _ _ _ _ _ _ Hrun) as [H1 H2].
    { apply acc_ok_step; [exact Hws | apply fmul_low_exp]. }
    split; [exact H1|]. cbn [heap] in *. intros Hh Hwt. apply H2; [exact Hh|].
    apply acc_ok_step; [exact Hwt|]. apply valid_low_exp. exact (Hh _ _ Ew).
Qed.

(** * Further properties of the function *)

Lemma CalculateUtility_score (fuel : nat) (pf pw : ptr) (n : Z)
    (F W : list float32) (h : gmap Z float32) (t : list access) :
  arrays_of h pf pw n F W -> pf <> nullptr -> pw <> nullptr ->
  1 <= n -> n <= Z.of_nat fuel ->
  fst (CalculateUtility fuel pf pw n (World h t)) = Return (score F W).
Proof.
  intros Harr Hpf Hpw Hn Hfuel.
  rewrite (CalculateUtility_arrays fuel pf pw n F W h t) by assumption.
  reflexivity.
Qed.

(** X1. The length is taken on trust: when the arrays hold only [k]
    elements each and the call is made with a greater length, the loop
    works through the [k] elements and then reads index [k], outside the
    arrays, which is undefined behaviour; nothing is thrown. *)
Theorem CalculateUtility_reads_past_short_arrays
    (fuel : nat) (factors weights : ptr) (n : Z) (F W : list float32)
    (h : gmap Z float32) (t : list access) :
  factors <> nullptr -> weights <> nullptr ->
  array_at h factors F -> array_at h weights W ->
  List.length F = List.length W ->
  Z.of_nat (List.length F) < n -> n <= SIZE_MAX ->
  h !! (factors + Z.of_nat (List.length F)) = None \/
    h !! (weights + Z.of_nat (List.length F)) = None ->
  (List.length F < fuel)%nat ->
  fst (CalculateUtility fuel factors weights n (World h t)) = Undefined /\
  exists new : list access,
    accesses (snd (CalculateUtility fuel factors weights n (World h t))) =
      t ++ loop_accesses factors weights 0 (List.length F) ++ new /\
    (new = [Read factors (Z.of_nat (List.length F))] \/
     new = [Read factors (Z.of_nat (List.length F));
            Read weights (Z.of_nat (List.length F))]).
Proof.
  intros Hpf Hpw HF HW HL Hn Hmax Hend Hfuel. unfold CalculateUtility.
  rewrite (checks_pass _ _ _ Hpf Hpw) by lia. unfold bind.
  destruct (for_loop_overrun F W fuel factors weights n 0 fzero fzero h t)
    as (new & Hrun & Hnew); try assumption; try lia;
    try (rewrite Z.add_0_r; assumption).
  rewrite Hrun. cbn [fst snd accesses]. split; [reflexivity|].
  exists new. split; [reflexivity | exact Hnew].
Qed.

Lemma CalculateUtility_reads_past_short_arrays_witness :
  let F := [of_Z 1] in
  let W := [of_Z 1] in
  100 <> nullptr /\ 200 <> nullptr /\
  array_at (example_heap F W) 100 F /\ array_at (example_heap F W) 200 W /\
  List.length F = List.length W /\
  Z.of_nat (List.length F) < 2 /\ 2 <= SIZE_MAX /\
  (example_heap F W !! (100 + Z.of_nat (List.length F)) = None \/
   example_heap F W !! (200 + Z.of_nat (List.length F)) = None) /\
  (List.length F < 2)%nat /\
  fst (CalculateUtility 2 100 200 2 (example_world F W)) = Undefined.
Proof.
  intros F W.
  assert (Hpf : 100 <> nullptr) by discriminate.
  assert (Hpw : 200 <> nullptr) by discriminate.
  assert (HF : array_at (example_heap F W) 100 F)
    by (vm_compute; repeat split; reflexivity).
  assert (HW : array_at (example_heap F W) 200 W)
    by (vm_compute; repeat split; reflexivity).
  assert (HL : List.length F = List.length W) by reflexivity.
  assert (Hn : Z.of_nat (List.length F) < 2) by reflexivity.
  assert (Hmax : 2 <= SIZE_MAX) by (vm_compute; discriminate).
  assert (Hend : example_heap F W !! (100 + Z.of_nat (List.length F)) = None \/
                 example_heap F W !! (200 + Z.of_nat (List.length F)) = None)
    by (left; vm_compute; reflexivity).
  assert (Hfuel : (List.length F < 2)%nat) by (simpl; lia).
  repeat (split; [assumption|]).
  exact (proj1 (CalculateUtility_reads_past_short_arrays 2 100 200 2 F W
                  (example_heap F W) [] Hpf Hpw HF HW HL Hn Hmax Hend Hfuel)).
Defined.

(** X2. The outcome of a call depends on memory through the cells
    [factors[0 .. n-1]] and [weights[0 .. n-1]] only: two memories that
    agree on these cells give the same outcome, whatever else they hold
    and whatever was read before. *)
Theorem CalculateUtility_depends_on_arrays_only
    (fuel : nat) (factors weights : ptr) (n : Z)
    (h h' : gmap Z float32) (t t' : list access) :
  n <= SIZE_MAX ->
  (forall j : Z, 0 <= j < n ->
     h !! (factors + j) = h' !! (factors + j) /\
     h !! (weights + j) = h' !! (weights + j)) ->
  fst (CalculateUtility fuel factors weights n (World h t)) =
    fst (CalculateUtility fuel factors weights n (World h' t')).
Proof.
  intros Hmax Hag. unfold CalculateUtility.
  destruct ((factors =? nullptr) || (weights =? nullptr) || (n =? 0));
    [reflexivity|].
  unfold bind.
  pose proof (for_loop_agree fuel factors weights n 0 fzero fzero h h' t t'
                ltac:(lia) Hmax Hag) as Hloop.
  destruct (for_loop fuel factors weights n 0 fzero fzero (World h t))
    as [o w1].
  destruct (for_loop fuel factors weights n 0 fzero fzero (World h' t'))
    as [o' w1'].
  cbn [fst] in Hloop. subst o'.
  destruct o as [[ws wt]| | |]; try reflexivity.
  destruct (feqb wt fzero); reflexivity.
Qed.

Lemma CalculateUtility_depends_on_arrays_only_witness :
  let F := [of_Z 1; of_Z 2] in
  let W := [of_Z 3; of_Z 1] in
  let h := example_heap F W in
  let h' := <[300 := S754_nan]> (example_heap F W) in
  2 <= SIZE_MAX /\
  (forall j : Z, 0 <= j < 2 ->
     h !! (100 + j) = h' !! (100 + j) /\ h !! (200 + j) = h' !! (200 + j)) /\
  fst (CalculateUtility 2 100 200 2 (World h [])) =
    fst (CalculateUtility 2 100 200 2 (World h' [Read 300 0])).
Proof.
  intros F W h h'.
  assert (Hmax : 2 <= SIZE_MAX) by (vm_compute; discriminate).
  assert (Hag : forall j : Z, 0 <= j < 2 ->
            h !! (100 + j) = h' !! (100 + j) /\
            h !! (200 + j) = h' !! (200 + j)).
  { intros j Hj. subst h'. rewrite !lookup_insert_ne by lia.
    split; reflexivity. }
  repeat (split; [assumption|]).
  exact (CalculateUtility_depends_on_arrays_only 2 100 200 2 h h' []
           [Read 300 0] Hmax Hag).
Defined.

(** X3. A NaN among the weights makes the call return a NaN: the weight
    total is then a NaN, which does not compare equal to zero, so the
    zero-total guard does not apply and the quotient is a NaN. *)
Theorem CalculateUtility_nan_weight
    (fuel : nat) (factors weights : ptr) (n : Z) (F W : list float32)
    (h : gmap Z float32) (t : list access) :
  arrays_of h factors weights n F W ->
  factors <> nullptr -> weights <> nullptr ->
  1 <= n -> n <= Z.of_nat fuel ->
  In S754_nan W ->
  fst (CalculateUtility fuel factors weights n (World h t)) =
    Return S754_nan.
Proof.
  intros Harr Hpf Hpw Hn Hfuel Hin.
  rewrite (CalculateUtility_score fuel factors weights n F W h t)
    by assumption.
  unfold score, normalized_weighted_sum.
  rewrite (weight_total_nan W Hin), fdiv_nan_r. reflexivity.
Qed.

Lemma CalculateUtility_nan_weight_witness :
  let F := [of_Z 1; of_Z 2] in
  let W := [of_Z 1; S754_nan] in
  arrays_of (example_heap F W) 100 200 2 F W /\
  100 <> nullptr /\ 200 <> nullptr /\ 1 <= 2 /\ 2 <= Z.of_nat 2 /\
  In S754_nan W /\
  fst (CalculateUtility 2 100 200 2 (example_world F W)) = Return S754_nan.
Proof.
  intros F W.
  assert (Harr : arrays_of (example_heap F W) 100 200 2 F W)
    by solve_arrays_of.
  assert (Hpf : 100 <> nullptr) by discriminate.
  assert (Hpw : 200 <> nullptr) by discriminate.
  assert (Hn : 1 <= 2) by lia.
  assert (Hfuel : 2 <= Z.of_nat 2) by lia.
  assert (Hin : In S754_nan W) by (right; left; reflexivity).
  repeat (split; [assumption|]).
  exact (CalculateUtility_nan_weight 2 100 200 2 F W (example_heap F W) []
           Harr Hpf Hpw Hn Hfuel Hin).
Defined.

(** X4. A zero weight does not hide a factor that is not finite: when some
    factor is a NaN, or is infinite (or a NaN) and paired with a zero
    weight, and the weight total does not compare equal to zero, the call
    returns a NaN. *)
Theorem CalculateUtility_nan_product
    (fuel : nat) (factors weights : ptr) (n : Z)
    (F1 F2 W1 W2 : list float32) (f w : float32)
    (h : gmap Z float32) (t : list access) :
  arrays_of h factors weights n (F1 ++ f :: F2) (W1 ++ w :: W2) ->
  factors <> nullptr -> weights <> nullptr ->
  n <= Z.of_nat fuel ->
  List.length F1 = List.length W1 ->
  is_nan f = true \/ (is_finite f = false /\ feqb w fzero = true) ->
  feqb (weight_total (W1 ++ w :: W2)) fzero = false ->
  fst (CalculateUtility fuel factors weights n (World h t)) =
    Return S754_nan.
Proof.
  intros Harr Hpf Hpw Hfuel HL Hf Hnz.
  assert (Hn : 1 <= n).
  { destruct Harr as [_ _ HnF _ _]. rewrite HnF, length_app. simpl. lia. }
  rewrite (CalculateUtility_score fuel factors weights n _ _ h t Harr)
    by assumption.
  unfold score, normalized_weighted_sum. rewrite Hnz.
  rewrite (weighted_sum_nan F1 W1 F2 W2 f w HL (fmul_not_finite f w Hf)).
  rewrite fdiv_nan_l. reflexivity.
Qed.

Lemma CalculateUtility_nan_product_witness :
  let F1 := [of_Z 1] in
  let W1 := [of_Z 1] in
  let f := S754_infinity false in
  let w := fzero in
  let F := F1 ++ f :: [] in
  let W := W1 ++ w :: [] in
  arrays_of (example_heap F W) 100 200 2 F W /\
  100 <> nullptr /\ 200 <> nullptr /\ 2 <= Z.of_nat 2 /\
  List.length F1 = List.length W1 /\
  (is_nan f = true \/ (is_finite f = false /\ feqb w fzero = true)) /\
  feqb (weight_total W) fzero = false /\
  fst (CalculateUtility 2 100 200 2 (example_world F W)) = Return S754_nan.
Proof.
  intros F1 W1 f w F W.
  assert (Harr : arrays_of (example_heap F W) 100 200 2 F W)
    by solve_arrays_of.
  assert (Hpf : 100 <> nullptr) by discriminate.
  assert (Hpw : 200 <> nullptr) by discriminate.
  assert (Hfuel : 2 <= Z.of_nat 2) by lia.
  assert (HL : List.length F1 = List.length W1) by reflexivity.
  assert (Hf : is_nan f = true \/
               (is_finite f = false /\ feqb w fzero = true))
    by (right; split; reflexivity).
  assert (Hnz : feqb (weight_total W) fzero = false)
    by (vm_compute; reflexivity).
  repeat (split; [assumption|]).
  exact (CalculateUtility_nan_product 2 100 200 2 F1 [] W1 [] f w
           (example_heap F W) [] Harr Hpf Hpw Hfuel HL Hf Hnz).
Defined.

(** X5. The loop keeps [weightedSum] off the negative zero: whenever it
    completes from the initial accumulators, [weightedSum] is not
    [-0.0f]; and when every [float] in memory is a valid binary32 value,
    [weightTotal] is not [-0.0f] either. *)
Theorem for_loop_never_negative_zero
    (fuel : nat) (factors weights : ptr) (n : Z)
    (weightedSum weightTotal : float32) (w w' : world) :
  for_loop fuel factors weights n 0 fzero fzero w =
    (Return (weightedSum, weightTotal), w') ->
  weightedSum <> neg_zero /\
  (heap_valid (heap w) -> weightTotal <> neg_zero).
Proof.
  intros Hrun.
  destruct (for_loop_acc_ok fuel factors weights n 0 fzero fzero
              weightedSum weightTotal w w' Hrun acc_ok_fzero) as [H1 H2].
  split; [apply H1|]. intros Hh. apply (H2 Hh acc_ok_fzero).
Qed.

Lemma for_loop_never_negative_zero_witness :
  let F := [of_Z 1; of_Z (-1)] in
  let W := [of_Z 1; of_Z 1] in
  for_loop 2 100 200 2 0 fzero fzero (example_world F W) =
    (Return (fzero, of_Z 2),
     World (example_heap F W) (loop_accesses 100 200 0 2)) /\
  fzero <> neg_zero.
Proof.
  intros F W.
  assert (Hrun : for_loop 2 100 200 2 0 fzero fzero (example_world F W) =
                   (Return (fzero, of_Z 2),
                    World (example_heap F W) (loop_accesses 100 200 0 2)))
    by (vm_compute; reflexivity).
  split; [exact Hrun|].
  exact (proj1 (for_loop_never_negative_zero 2 100 200 2 fzero (of_Z 2)
                  (example_world F W) _ Hrun)).
Defined.

(** X6. An element with a zero weight and a finite factor has no
    influence on the score: the call on the sequences with that element
    returns the same [float], bit for bit, as the call on the sequences
    without it, when the weights before it are valid binary32 values and
    an element is left. *)
Theorem CalculateUtility_zero_weight_ignored
    (fuel fuel' : nat) (factors weights factors' weights' : ptr) (n n' : Z)
    (F1 F2 W1 W2 : list float32) (f z : float32)
    (h h' : gmap Z float32) (t t' : list access) :
  arrays_of h factors weights n (F1 ++ f :: F2) (W1 ++ z :: W2) ->
  arrays_of h' factors' weights' n' (F1 ++ F2) (W1 ++ W2) ->
  factors <> nullptr -> weights <> nullptr ->
  factors' <> nullptr -> weights' <> nullptr ->
  1 <= n' -> n <= Z.of_nat fuel -> n' <= Z.of_nat fuel' ->
  List.length F1 = List.length W1 ->
  is_finite f = true -> feqb z fzero = true ->
  Forall (fun w => valid w = true) W1 ->
  fst (CalculateUtility fuel factors weights n (World h t)) =
    fst (CalculateUtility fuel' factors' weights' n' (World h' t')).
Proof.
  intros Harr Harr' Hpf Hpw Hpf' Hpw' Hn' Hfuel Hfuel' HL Hf Hz HW1.
  assert (Hn : 1 <= n).
  { destruct Harr as [_ _ HnF _ _]. rewrite HnF, length_app. simpl. lia. }
  rewrite (CalculateUtility_score fuel factors weights n _ _ h t Harr)
    by assumption.
  rewrite (CalculateUtility_score fuel' factors' weights' n' _ _ h' t' Harr')
    by assumption.
  rewrite (score_skip_zero_weight F1 W1 F2 W2 f z HL Hf Hz HW1).
  reflexivity.
Qed.

Lemma CalculateUtility_zero_weight_ignored_witness :
  let F1 := [of_Z 1; of_Z (-1)] in
  let W1 := [of_Z 1; of_Z 1] in
  let F2 := [of_Z 3] in
  let W2 := [of_Z 2] in
  let f := of_Z 7 in
  let z := S754_zero true in
  let h := example_heap (F1 ++ f :: F2) (W1 ++ z :: W2) in
  let h' := example_heap (F1 ++ F2) (W1 ++ W2) in
  arrays_of h 100 200 4 (F1 ++ f :: F2) (W1 ++ z :: W2) /\
  arrays_of h' 100 200 3 (F1 ++ F2) (W1 ++ W2) /\
  100 <> nullptr /\ 200 <> nullptr /\ 1 <= 3 /\
  4 <= Z.of_nat 4 /\ 3 <= Z.of_nat 3 /\
  List.length F1 = List.length W1 /\
  is_finite f = true /\ feqb z fzero = true /\
  Forall (fun w => valid w = true) W1 /\
  fst (CalculateUtility 4 100 200 4 (World h [])) =
    fst (CalculateUtility 3 100 200 3 (World h' [])).
Proof.
  intros F1 W1 F2 W2 f z h h'.
  assert (Harr : arrays_of h 100 200 4 (F1 ++ f :: F2) (W1 ++ z :: W2))
    by solve_arrays_of.
  assert (Harr' : arrays_of h' 100 200 3 (F1 ++ F2) (W1 ++ W2))
    by solve_arrays_of.
  assert (Hpf : 100 <> nullptr) by discriminate.
  assert (Hpw : 200 <> nullptr) by discriminate.
  assert (Hn' : 1 <= 3) by lia.
  assert (Hfuel : 4 <= Z.of_nat 4) by lia.
  assert (Hfuel' : 3 <= Z.of_nat 3) by lia.
  assert (HL : List.length F1 = List.length W1) by reflexivity.
  assert (Hf : is_finite f = true) by reflexivity.
  assert (Hz : feqb z fzero = true) by reflexivity.
  assert (HW1 : Forall (fun w => valid w = true) W1)
    by (repeat (constructor; [vm_compute; reflexivity|]); constructor).
  repeat (split; [assumption|]).
  exact (CalculateUtility_zero_weight_ignored 4 3 100 200 100 200 4 3
           F1 F2 W1 W2 f z h h' [] []
           Harr Harr' Hpf Hpw Hpf Hpw Hn' Hfuel Hfuel' HL Hf Hz HW1).
Defined.

(** X7. The score is odd in the factors: the call on the negated factors
    returns the negated score of the call on the factors, or both scores
    compare equal to zero. *)
Theorem CalculateUtility_negated_factors
    (fuel fuel' : nat) (factors weights factors' weights' : ptr) (n : Z)
    (F W : list float32) (h h' : gmap Z float32) (t t' : list access) :
  arrays_of h factors weights n F W ->
  arrays_of h' factors' weights' n (map fneg F) W ->
  factors <> nullptr -> weights <> nullptr ->
  factors' <> nullptr -> weights' <> nullptr ->
  1 <= n -> n <= Z.of_nat fuel -> n <= Z.of_nat fuel' ->
  exists r r' : float32,
    fst (CalculateUtility fuel factors weights n (World h t)) = Return r /\
    fst (CalculateUtility fuel' factors' weights' n (World h' t')) =
      Return r' /\
    (r' = fneg r \/ (feqb r fzero = true /\ feqb r' fzero = true)).
Proof.
  intros Harr Harr' Hpf Hpw Hpf' Hpw' Hn Hfuel Hfuel'.
  exists (score F W), (score (map fneg F) W).
  split; [|split].
  - apply CalculateUtility_score; assumption.
  - apply CalculateUtility_score; assumption.
  - apply score_fneg_factors.
Qed.

Lemma CalculateUtility_negated_factors_witness :
  let F := [of_Z 1; of_Z (-2); of_Z 3] in
  let W := [of_Z 1; of_Z 1; of_Z 1] in
  let h := example_heap F W in
  let h' := example_heap (map fneg F) W in
  arrays_of h 100 200 3 F W /\
  arrays_of h' 100 200 3 (map fneg F) W /\
  100 <> nullptr /\ 200 <> nullptr /\ 1 <= 3 /\ 3 <= Z.of_nat 3 /\
  exists r r' : float32,
    fst (CalculateUtility 3 100 200 3 (World h [])) = Return r /\
    fst (CalculateUtility 3 100 200 3 (World h' [])) = Return r' /\
    (r' = fneg r \/ (feqb r fzero = true /\ feqb r' fzero = true)).
Proof.
  intros F W h h'.
  assert (Harr : arrays_of h 100 200 3 F W) by solve_arrays_of.
  assert (Harr' : arrays_of h' 100 200 3 (map fneg F) W) by solve_arrays_of.
  assert (Hpf : 100 <> nullptr) by discriminate.
  assert (Hpw : 200 <> nullptr) by discriminate.
  assert (Hn : 1 <= 3) by lia.
  assert (Hfuel : 3 <= Z.of_nat 3) by lia.
  repeat (split; [assumption|]).
  exact (CalculateUtility_negated_factors 3 3 100 200 100 200 3 F W h h'
           [] [] Harr Harr' Hpf Hpw Hpf Hpw Hn Hfuel Hfuel).
Defined.

(** X8. The score is even in the weights: with weights that are valid
    binary32 values, the call on the negated weights returns the score of
    the call on the weights, or both scores compare equal to zero. *)
Theorem CalculateUtility_negated_weights
    (fuel fuel' : nat) (factors weights factors' weights' : ptr) (n : Z)
    (F W : list float32) (h h' : gmap Z float32) (t t' : list access) :
  arrays_of h factors weights n F W ->
  arrays_of h' factors' weights' n F (map fneg W) ->
  factors <> nullptr -> weights <> nullptr ->
  factors' <> nullptr -> weights' <> nullptr ->
  1 <= n -> n <= Z.of_nat fuel -> n <= Z.of_nat fuel' ->
  Forall (fun w => valid w = true) W ->
  exists r r' : float32,
    fst (CalculateUtility fuel factors weights n (World h t)) = Return r /\
    fst (CalculateUtility fuel' factors' weights' n (World h' t')) =
      Return r' /\
    (r' = r \/ (feqb r fzero = true /\ feqb r' fzero = true)).
Proof.
  intros Harr Harr' Hpf Hpw Hpf' Hpw' Hn Hfuel Hfuel' HW.
  exists (score F W), (score F (map fneg W)).
  split; [|split].
  - apply CalculateUtility_score; assumption.
  - apply CalculateUtility_score; assumption.
  - apply score_fneg_weights. exact HW.
Qed.

Lemma CalculateUtility_negated_weights_witness :
  let F := [of_Z 1; of_Z (-2); of_Z 3] in
  let W := [of_Z 1; of_Z 2; of_Z 1] in
  let h := example_heap F W in
  let h' := example_heap F (map fneg W) in
  arrays_of h 100 200 3 F W /\
  arrays_of h' 100 200 3 F (map fneg W) /\
  100 <> nullptr /\ 200 <> nullptr /\ 1 <= 3 /\ 3 <= Z.of_nat 3 /\
  Forall (fun w => valid w = true) W /\
  exists r r' : float32,
    fst (CalculateUtility 3 100 200 3 (World h [])) = Return r /\
    fst (CalculateUtility 3 100 200 3 (World h' [])) = Return r' /\
    (r' = r \/ (feqb r fzero = true /\ feqb r' fzero = true)).
Proof.
  intros F W h h'.
  assert (Harr : arrays_of h 100 200 3 F W) by solve_arrays_of.
  assert (Harr' : arrays_of h' 100 200 3 F (map fneg W)) by solve_arrays_of.
  assert (Hpf : 100 <> nullptr) by discriminate.
  assert (Hpw : 200 <> nullptr) by discriminate.
  assert (Hn : 1 <= 3) by lia.
  assert (Hfuel : 3 <= Z.of_nat 3) by lia.
  assert (HW : Forall (fun w => valid w = true) W)
    by (repeat (constructor; [vm_compute; reflexivity|]); constructor).
  repeat (split; [assumption|]).
  exact (CalculateUtility_negated_weights 3 3 100 200 100 200 3 F W h h'
           [] [] Harr Harr' Hpf Hpw Hpf Hpw Hn Hfuel Hfuel HW).
Defined.

(** X9. When every factor is a zero and every weight is finite, the score
    compares equal to zero, whatever the weights add up to. *)
Theorem CalculateUtility_zero_factors
    (fuel : nat) (factors weights : ptr) (n : Z) (F W : list float32)
    (h : gmap Z float32) (t : list access) :
  arrays_of h factors weights n F W ->
  factors <> nullptr -> weights <> nullptr ->
  1 <= n -> n <= Z.of_nat fuel ->
  Forall (fun f => feqb f fzero = true) F ->
  Forall (fun w => is_finite w = true) W ->
  exists r : float32,
    fst (CalculateUtility fuel factors weights n (World h t)) = Return r /\
    feqb r fzero = true.
Proof.
  intros Harr Hpf Hpw Hn Hfuel HF HW. exists (score F W). split.
  - apply CalculateUtility_score; assumption.
  - apply score_zero_factors; assumption.
Qed.

Lemma CalculateUtility_zero_factors_witness :
  let F := [S754_zero false; S754_zero true] in
  let W := [f_3e38; f_3e38] in
  arrays_of (example_heap F W) 100 200 2 F W /\
  100 <> nullptr /\ 200 <> nullptr /\ 1 <= 2 /\ 2 <= Z.of_nat 2 /\
  Forall (fun f => feqb f fzero = true) F /\
  Forall (fun w => is_finite w = true) W /\
  exists r : float32,
    fst (CalculateUtility 2 100 200 2 (example_world F W)) = Return r /\
    feqb r fzero = true.
Proof.
  intros F W.
  assert (Harr : arrays_of (example_heap F W) 100 200 2 F W)
    by solve_arrays_of.
  assert (Hpf : 100 <> nullptr) by discriminate.
  assert (Hpw : 200 <> nullptr) by discriminate.
  assert (Hn : 1 <= 2) by lia.
  assert (Hfuel : 2 <= Z.of_nat 2) by lia.
  assert (HF : Forall (fun f => feqb f fzero = true) F)
    by (repeat (constructor; [vm_compute; reflexivity|]); constructor).
  assert (HW : Forall (fun w => is_finite w = true) W)
    by (repeat (constructor; [vm_compute; reflexivity|]); constructor).
  repeat (split; [assumption|]).
  exact (CalculateUtility_zero_factors 2 100 200 2 F W (example_heap F W) []
           Harr Hpf Hpw Hn Hfuel HF HW).
Defined.

(** * Signs of scores *)

Lemma binary_round_aux_not_negative (m e : Z) (l : location) :
  0 <= m -> not_negative (binary_round_aux prec emax false m e l).
Proof.
  intros Hm.
  destruct (binary_round_aux_cases false m e l Hm)
    as [E|[E|(m' & e' & E & _)]]; rewrite E; right; reflexivity.
Qed.

Lemma fmul_not_negative (x y : float32) :
  not_negative x -> not_negative y -> not_negative (fmul x y).
Proof.
  intros [Hx|Hx] [Hy|Hy];
    destruct x as [sx|sx| |sx mx ex]; try discriminate Hx;
    destruct y as [sy|sy| |sy my ey]; try discriminate Hy;
    try (left; reflexivity);
    try (destruct sx; try discriminate Hx);
    try (destruct sy; try discriminate Hy);
    try (right; reflexivity).
  apply binary_round_aux_not_negative. lia.
Qed.

Lemma fadd_not_negative (x y : float32) :
  not_negative x -> not_negative y -> not_negative (fadd x y).
Proof.
  intros [Hx|Hx] [Hy|Hy];
    destruct x as [sx|sx| |sx mx ex]; try discriminate Hx;
    destruct y as [sy|sy| |sy my ey]; try discriminate Hy;
    try (left; reflexivity);
    try (destruct sx; try discriminate Hx);
    try (destruct sy; try discriminate Hy);
    try (right; reflexivity).
  unfold fadd, SFadd, cond_Zopp.
  set (a := fst (shl_align mx ex (Z.min ex ey))).
  set (b := fst (shl_align my ey (Z.min ex ey))).
  change (Zpos a + Zpos b) with (Zpos (a + b)).
  unfold binary_normalize, binary_round.
  destruct (shl_align (a + b) (Z.min ex ey)
              (fexp prec emax (Zpos (digits2_pos (a + b)) + Z.min ex ey)))
    as [mz ez].
  apply binary_round_aux_not_negative. lia.
Qed.

Lemma SFdiv_core_binary_nonneg (m1 m2 : positive) (e1 e2 : Z) :
  0 <= fst (fst (SFdiv_core_binary prec emax (Zpos m1) e1 (Zpos m2) e2)).
Proof.
  unfold SFdiv_core_binary.
  set (s := e1 - e2 - _).
  set (m' := match s with
             | 0 => Zpos m1
             | Zpos _ => Z.shiftl (Zpos m1) s
             | Zneg _ => 0
             end).
  assert (Hm' : 0 <= m').
  { subst m'. destruct s; try lia. apply Z.shiftl_nonneg. lia. }
  pose proof (Z.div_pos m' (Zpos m2) Hm' ltac:(lia)) as Hq.
  unfold Z.div in Hq.
  destruct (Z.div_eucl m' (Zpos m2)) as [q r]. exact Hq.
Qed.

Lemma fdiv_not_negative (x y : float32) :
  not_negative x -> not_negative y -> feqb y fzero = false ->
  not_negative (fdiv x y).
Proof.
  intros [Hx|Hx] [Hy|Hy] Hnz;
    destruct x as [sx|sx| |sx mx ex]; try discriminate Hx;
    destruct y as [sy|sy| |sy my ey]; try discriminate Hy;
    try (destruct sy; discriminate Hnz);
    try (left; reflexivity);
    try (destruct sx; try discriminate Hx);
    try (destruct sy; try discriminate Hy);
    try (right; reflexivity).
  unfold fdiv, SFdiv.
  pose proof (SFdiv_core_binary_nonneg mx my ex ey) as Hq.
  destruct (SFdiv_core_binary prec emax (Zpos mx) ex (Zpos my) ey)
    as [[mz ez] lz].
  apply binary_round_aux_not_negative. exact Hq.
Qed.

Lemma weighted_sum_from_not_negative (F : list float32) :
  forall (W : list float32) (acc : float32),
    Forall not_negative F -> Forall not_negative W -> not_negative acc ->
    not_negative (weighted_sum_from acc F W).
Proof.
  induction F as [|f F IH]; intros [|w W] acc HF HW Hacc; try exact Hacc.
  inversion HF as [|? ? Hf HF']; subst.
  inversion HW as [|? ? Hw HW']; subst.
  rewrite weighted_sum_from_cons. apply IH; try assumption.
  apply fadd_not_negative; [exact Hacc|].
  apply fmul_not_negative; assumption.
Qed.

Lemma weight_total_from_not_negative (W : list float32) :
  forall acc : float32,
    Forall not_negative W -> not_negative acc ->
    not_negative (weight_total_from acc W).
Proof.
  induction W as [|w W IH]; intros acc HW Hacc; [exact Hacc|].
  inversion HW as [|? ? Hw HW']; subst.
  rewrite weight_total_from_cons. apply IH; [exact HW'|].
  apply fadd_not_negative; assumption.
Qed.

Lemma not_negative_fzero : not_negative fzero.
Proof. right. reflexivity. Qed.

Lemma score_not_negative (F W : list float32) :
  Forall not_negative F -> Forall not_negative W ->
  not_negative (score F W).
Proof.
  intros HF HW. unfold score, normalized_weighted_sum.
  destruct (feqb (weight_total W) fzero) eqn:Ez;
    [apply not_negative_fzero|].
  apply fdiv_not_negative; [| | exact Ez].
  - apply weighted_sum_from_not_negative;
      [assumption | assumption | apply not_negative_fzero].
  - apply weight_total_from_not_negative;
      [assumption | apply not_negative_fzero].
Qed.

(** X10. Factors and weights that are not negative give a score that is
    not negative: when every factor and every weight is a NaN or satisfies
    [0.0f <= x], so does the score.  No rounding can turn the sign. *)
Theorem CalculateUtility_not_negative
    (fuel : nat) (factors weights : ptr) (n : Z) (F W : list float32)
    (h : gmap Z float32) (t : list access) :
  arrays_of h factors weights n F W ->
  factors <> nullptr -> weights <> nullptr ->
  1 <= n -> n <= Z.of_nat fuel ->
  Forall not_negative F -> Forall not_negative W ->
  exists r : float32,
    fst (CalculateUtility fuel factors weights n (World h t)) = Return r /\
    not_negative r.
Proof.
  intros Harr Hpf Hpw Hn Hfuel HF HW. exists (score F W). split.
  - apply CalculateUtility_score; assumption.
  - apply score_not_negative; assumption.
Qed.

Lemma CalculateUtility_not_negative_witness :
  let F := [of_Z 3; of_Z 3] in
  let W := [one_19th; one_19th] in
  arrays_of (example_heap F W) 100 200 2 F W /\
  100 <> nullptr /\ 200 <> nullptr /\ 1 <= 2 /\ 2 <= Z.of_nat 2 /\
  Forall not_negative F /\ Forall not_negative W /\
  exists r : float32,
    fst (CalculateUtility 2 100 200 2 (example_world F W)) = Return r /\
    not_negative r.
Proof.
  intros F W.
  assert (Harr : arrays_of (example_heap F W) 100 200 2 F W)
    by solve_arrays_of.
  assert (Hpf : 100 <> nullptr) by discriminate.
  assert (Hpw : 200 <> nullptr) by discriminate.
  assert (Hn : 1 <= 2) by lia.
  assert (Hfuel : 2 <= Z.of_nat 2) by lia.
  assert (HF : Forall not_negative F)
    by (repeat (constructor; [right; vm_compute; reflexivity|]); constructor).
  assert (HW : Forall not_negative W)
    by (repeat (constructor; [right; vm_compute; reflexivity|]); constructor).
  repeat (split; [assumption|]).
  exact (CalculateUtility_not_negative 2 100 200 2 F W (example_heap F W) []
           Harr Hpf Hpw Hn Hfuel HF HW).
Defined.

(** * Quotients, correctly rounded

    What follows reads SpecFloat's division as arithmetic on rational
    numbers: the quotient of two finite [float]s is the exact quotient,
    truncated to the format and rounded to nearest.  Three facts come out
    of it: the quotient lies between any two valid [float]s the exact
    quotient lies between, it is the exact quotient when that is a valid
    [float], and it depends on the exact quotient only. *)

(** ** Powers of two *)

Lemma P2_pos (z : Z) : (0 < P2 z)%Q.
Proof. apply Qpower_0_lt. reflexivity. Qed.

Lemma P2_plus (a b : Z) : (P2 (a + b) == P2 a * P2 b)%Q.
Proof. apply Qpower_plus. discriminate. Qed.

Lemma P2_0 : (P2 0 == 1)%Q.
Proof. reflexivity. Qed.

Lemma P2_1 : (P2 1 == 2)%Q.
Proof. reflexivity. Qed.

Lemma P2_nonneg_Z (n : Z) : 0 <= n -> (P2 n == inject_Z (2 ^ n))%Q.
Proof.
  intros Hn. unfold P2. rewrite Zpower_Qpower by exact Hn. reflexivity.
Qed.

Lemma P2_le (a b : Z) : a <= b -> (P2 a <= P2 b)%Q.
Proof.
  intros Hab. replace b with (a + (b - a)) by lia. rewrite P2_plus.
  assert (H1 : (1 <= P2 (b - a))%Q).
  { rewrite P2_nonneg_Z by lia. change 1%Q with (inject_Z 1).
    rewrite <- Zle_Qle.
    assert (0 < 2 ^ (b - a)) by (apply Z.pow_pos_nonneg; lia). lia. }
  pose proof (P2_pos a). nra.
Qed.

Lemma P2_opp_1 : (P2 (- Zpos 1) == 1 # 2)%Q.
Proof. reflexivity. Qed.

Lemma P2_half (z : Z) : (P2 (z - 1) == P2 z * (1 # 2))%Q.
Proof.
  unfold Z.sub. rewrite P2_plus. change (P2 (- (1))) with (1 # 2)%Q.
  reflexivity.
Qed.

(** The number a finite [float] stands for, with [P2]. *)
Lemma Qval_P2 (s : bool) (m : positive) (e : Z) :
  (Qval (S754_finite s m e) ==
     (if s then -1 else 1) * (inject_Z (Zpos m) * P2 e))%Q.
Proof. reflexivity. Qed.

(** From here on [P2] is used through the lemmas above only. *)
Opaque P2.

Lemma P2_inv (e : Z) : (P2 e * P2 (- e) == 1)%Q.
Proof.
  rewrite <- P2_plus. replace (e + - e) with 0 by lia. reflexivity.
Qed.

Lemma P2_lt_inv (a b : Z) : (P2 a < P2 b)%Q -> a < b.
Proof.
  intros H. destruct (Z_lt_le_dec a b) as [Hlt|Hle]; [exact Hlt|].
  apply P2_le in Hle. lra.
Qed.

Lemma inject_Z_pow2 (n : Z) : 0 <= n -> (inject_Z (2 ^ n) == P2 n)%Q.
Proof. intros Hn. symmetry. apply P2_nonneg_Z. exact Hn. Qed.

Lemma P2_succ (e : Z) : (P2 (e + 1) == 2 * P2 e)%Q.
Proof. rewrite P2_plus, P2_1. ring. Qed.

Lemma Qval_false (m : positive) (e : Z) :
  (Qval (S754_finite false m e) == inject_Z (Zpos m) * P2 e)%Q.
Proof. rewrite Qval_P2. ring. Qed.

Lemma Qval_true (m : positive) (e : Z) :
  (Qval (S754_finite true m e) == - (inject_Z (Zpos m) * P2 e))%Q.
Proof. rewrite Qval_P2. ring. Qed.

Lemma P2_mant_pos (m : positive) (e : Z) : (0 < inject_Z (Zpos m) * P2 e)%Q.
Proof.
  apply Qmult_lt_0_compat; [reflexivity|apply P2_pos].
Qed.

Lemma inject_Z_pos (p : positive) : (0 < inject_Z (Zpos p))%Q.
Proof. change 0%Q with (inject_Z 0). rewrite <- Zlt_Qlt. lia. Qed.

(** ** Locations through right shifts *)

Lemma inject_Z_xO (p : positive) :
  (inject_Z (Zpos p~0) == 2 * inject_Z (Zpos p))%Q.
Proof. rewrite <- (inject_Z_mult 2). reflexivity. Qed.

Lemma inject_Z_xI (p : positive) :
  (inject_Z (Zpos p~1) == 2 * inject_Z (Zpos p) + 1)%Q.
Proof. rewrite <- (inject_Z_mult 2), <- (inject_Z_plus _ 1). reflexivity. Qed.

(** One shift to the right halves the number and keeps the location
    right. *)
Lemma shr_1_locr (mrs : shr_record) (u : Q) :
  locr mrs u -> locr (shr_1 mrs) (u * (1 # 2)).
Proof.
  destruct mrs as [m r s]. unfold locr. cbn [shr_m]. intros [Hm Hl].
  destruct m as [|[p|p|]|p]; try lia;
    destruct r, s; cbn [shr_1 shr_m loc_of_shr_record locu orb] in *;
    (split; [lia|]);
    rewrite ?inject_Z_xO, ?inject_Z_xI in Hl;
    change (inject_Z 0) with 0%Q in *; change (inject_Z 1) with 1%Q in *;
    lra.
Qed.

Lemma locr_ext (mrs : shr_record) (u u' : Q) :
  (u == u')%Q -> locr mrs u -> locr mrs u'.
Proof.
  intros E [Hm Hl]. split; [exact Hm|].
  destruct (loc_of_shr_record mrs) as [|[| |]]; cbn [locu] in *; lra.
Qed.

Lemma iter_shr_1_locr (n : positive) :
  forall (mrs : shr_record) (u : Q),
    locr mrs u ->
    locr (SpecFloat.iter_pos shr_1 n mrs) (u * P2 (- Zpos n)).
Proof.
  induction n as [n IH|n IH|]; intros mrs u H; cbn [SpecFloat.iter_pos].
  - eapply locr_ext; [|apply IH, IH, shr_1_locr, H].
    replace (- Zpos n~1) with ((- Zpos n + - Zpos n) - 1) by lia.
    rewrite P2_half, !P2_plus. ring.
  - eapply locr_ext; [|apply IH, IH, H].
    replace (- Zpos n~0) with (- Zpos n + - Zpos n) by lia.
    rewrite !P2_plus. ring.
  - eapply locr_ext; [|apply shr_1_locr, H]. rewrite P2_opp_1. reflexivity.
Qed.

Lemma loc_of_shr_record_of_loc (m : Z) (l : location) :
  loc_of_shr_record (shr_record_of_loc m l) = l.
Proof. destruct l as [|[| |]]; reflexivity. Qed.

(** Shifting to a greater exponent keeps track of where the value lies. *)
Lemma shr_loc_at (m e n : Z) (l : location) (v : Q) :
  loc_at m e l v ->
  loc_at (shr_m (fst (shr (shr_record_of_loc m l) e n)))
         (snd (shr (shr_record_of_loc m l) e n))
         (loc_of_shr_record (fst (shr (shr_record_of_loc m l) e n))) v.
Proof.
  intros [Hm Hl]. unfold shr.
  destruct n as [|n|n]; cbn [fst snd];
    try (rewrite loc_of_shr_record_of_loc, shr_record_of_loc_m;
         split; assumption).
  assert (H : locr (shr_record_of_loc m l) (v * P2 (- e))).
  { split; rewrite ?loc_of_shr_record_of_loc, shr_record_of_loc_m;
      assumption. }
  apply (iter_shr_1_locr n) in H. destruct H as [H1 H2].
  split; [exact H1|].
  destruct (loc_of_shr_record _) as [|[| |]]; cbn [locu] in *;
    replace (- (e + Zpos n)) with (- e + - Zpos n) by lia;
    rewrite P2_plus;
    set (a := (v * P2 (- e) * P2 (- Zpos n))%Q) in *;
    assert (Ea : (v * (P2 (- e) * P2 (- Zpos n)) == a)%Q) by (subst a; ring);
    rewrite Ea; assumption.
Qed.

Lemma locu_bounds (m : Z) (l : location) (u : Q) :
  locu m l u -> (inject_Z m <= u < inject_Z m + 1)%Q.
Proof. destruct l as [|[| |]]; cbn [locu]; lra. Qed.

(** From a location in units of [2^e] to bounds on the value. *)
Lemma loc_at_bounds (m e : Z) (l : location) (v : Q) :
  loc_at m e l v ->
  (inject_Z m * P2 e <= v < (inject_Z m + 1) * P2 e)%Q.
Proof.
  intros [_ H]. apply locu_bounds in H.
  pose proof (P2_pos e) as Hp. pose proof (P2_inv e) as Hi.
  assert (Ev : (v == v * P2 (- e) * P2 e)%Q).
  { rewrite <- Qmult_assoc, (Qmult_comm (P2 (- e))), Hi. ring. }
  set (u := (v * P2 (- e))%Q) in *. rewrite Ev. clearbody u.
  clear Ev Hi. split; nra.
Qed.

Lemma loc_at_exact (m e : Z) (v : Q) :
  loc_at m e loc_Exact v -> (v == inject_Z m * P2 e)%Q.
Proof.
  intros [_ H]. cbn [locu] in H.
  pose proof (P2_inv e) as Hi.
  rewrite <- H, <- Qmult_assoc, (Qmult_comm (P2 (- e))), Hi. ring.
Qed.

Lemma loc_at_inexact (m e : Z) (l : location) (v : Q) :
  loc_at m e l v -> l <> loc_Exact -> (inject_Z m * P2 e < v)%Q.
Proof.
  intros [Hm H] Hl.
  pose proof (P2_pos e) as Hp. pose proof (P2_inv e) as Hi.
  assert (Ev : (v == v * P2 (- e) * P2 e)%Q).
  { rewrite <- Qmult_assoc, (Qmult_comm (P2 (- e))), Hi. ring. }
  assert (Hu : (inject_Z m < v * P2 (- e))%Q).
  { destruct l as [|[| |]]; cbn [locu] in H; [congruence | lra | lra | lra]. }
  set (u := (v * P2 (- e))%Q) in *. rewrite Ev. clearbody u.
  clear Ev Hi H. nra.
Qed.

(** ** Digits *)

Lemma digits2_pos_upper (p : positive) :
  Zpos p < 2 ^ Zpos (digits2_pos p).
Proof.
  induction p as [p IH|p IH|]; cbn [digits2_pos];
    rewrite ?Pos2Z.inj_succ, ?Z.pow_succ_r by lia; lia.
Qed.

Lemma digits2_pos_le (p : positive) (k : Z) :
  Zpos p < 2 ^ k -> Zpos (digits2_pos p) <= k.
Proof.
  intros Hp. pose proof (digits2_pos_lower p) as Hl.
  destruct (Z_lt_le_dec k (Zpos (digits2_pos p))) as [Hlt|Hle]; [|exact Hle].
  exfalso. assert (2 ^ k <= 2 ^ (Zpos (digits2_pos p) - 1))
    by (apply Z.pow_le_mono_r; lia). lia.
Qed.

Lemma digits2_pos_ge (p : positive) (k : Z) :
  2 ^ k <= Zpos p -> k + 1 <= Zpos (digits2_pos p).
Proof.
  intros Hp. pose proof (digits2_pos_upper p) as Hu.
  destruct (Z_lt_le_dec (Zpos (digits2_pos p)) (k + 1)) as [Hlt|Hle];
    [|exact Hle].
  exfalso. assert (2 ^ Zpos (digits2_pos p) <= 2 ^ k)
    by (apply Z.pow_le_mono_r; lia). lia.
Qed.

Lemma shr_1_upper (mrs : shr_record) (k : Z) :
  0 <= k -> shr_m mrs < 2 ^ (1 + k) -> shr_m (shr_1 mrs) < 2 ^ k.
Proof.
  intros Hk. destruct mrs as [m r s]. cbn [shr_m].
  rewrite Z.pow_add_r by lia. change (2 ^ 1) with 2.
  assert (0 < 2 ^ k) by (apply Z.pow_pos_nonneg; lia).
  destruct m as [|[p|p|]|[p|p|]]; cbn [shr_1 shr_m]; lia.
Qed.

Lemma iter_shr_1_upper (n : positive) :
  forall (mrs : shr_record) (k : Z),
    0 <= k -> shr_m mrs < 2 ^ (Zpos n + k) ->
    shr_m (SpecFloat.iter_pos shr_1 n mrs) < 2 ^ k.
Proof.
  induction n as [n IH|n IH|]; intros mrs k Hk Hm; cbn [SpecFloat.iter_pos].
  - apply IH; [lia|]. apply IH; [lia|]. apply shr_1_upper; [lia|].
    replace (1 + (Zpos n + (Zpos n + k))) with (Zpos n~1 + k) by lia. exact Hm.
  - apply IH; [lia|]. apply IH; [lia|].
    replace (Zpos n + (Zpos n + k)) with (Zpos n~0 + k) by lia. exact Hm.
  - apply shr_1_upper; assumption.
Qed.

(** Shifting a mantissa that is at least as precise as the format asks
    for: the exponent reached is the format's, the mantissa fits the
    precision, and it is normal above the least exponent. *)
Lemma shr_fexp_bounds (m e : Z) (l : location) :
  0 <= m -> e <= fexp prec emax (Zdigits2 m + e) ->
  snd (shr_fexp prec emax m e l) = fexp prec emax (Zdigits2 m + e) /\
  0 <= shr_m (fst (shr_fexp prec emax m e l)) < 2 ^ prec /\
  (emin32 < snd (shr_fexp prec emax m e l) ->
   2 ^ (prec - 1) <= shr_m (fst (shr_fexp prec emax m e l))).
Proof.
  intros Hm He.
  pose proof (shr_fexp_nonneg m e l Hm) as Hnn.
  unfold shr_fexp, shr in *.
  destruct (fexp prec emax (Zdigits2 m + e) - e) as [|n|n] eqn:En;
    cbn [fst snd] in *; [| |lia].
  - rewrite shr_record_of_loc_m. split; [lia|].
    unfold fexp, emin32, emin, prec, emax in *.
    destruct m as [|p|p]; cbn [Zdigits2] in *; [split; lia | | lia].
    pose proof (digits2_pos_lower p) as Hl.
    pose proof (digits2_pos_upper p) as Hu.
    assert (Hd : Zpos (digits2_pos p) <= 24) by lia.
    split.
    + split; [lia|].
      assert (2 ^ Zpos (digits2_pos p) <= 2 ^ 24)
        by (apply Z.pow_le_mono_r; lia). lia.
    + intros Hlow. assert (Zpos (digits2_pos p) = 24) by lia.
      replace (24 - 1) with (Zpos (digits2_pos p) - 1) by lia. exact Hl.
  - split; [lia|]. split; [split; [exact Hnn|]|].
    + apply (iter_shr_1_upper n _ prec); [unfold prec; lia|].
      rewrite shr_record_of_loc_m.
      unfold fexp, emin32, emin, prec, emax in *.
      destruct m as [|p|p]; cbn [Zdigits2] in *; [|  | lia].
      * apply Z.pow_pos_nonneg; lia.
      * pose proof (digits2_pos_upper p) as Hu.
        assert (2 ^ Zpos (digits2_pos p) <= 2 ^ (Zpos n + 24))
          by (apply Z.pow_le_mono_r; lia). lia.
    + intros Hlow.
      apply (iter_shr_1_lower n _ (prec - 1)); [unfold prec; lia|].
      rewrite shr_record_of_loc_m.
      unfold fexp, emin32, emin, prec, emax in *.
      destruct m as [|p|p]; cbn [Zdigits2] in *; [lia | | lia].
      pose proof (digits2_pos_lower p) as Hl.
      replace (Zpos n + (24 - 1)) with (Zpos (digits2_pos p) - 1) by lia.
      exact Hl.
Qed.

(** ** Rounding a truncation *)

Lemma round_nearest_even_upper (m : Z) (l : location) :
  round_nearest_even m l <= m + 1.
Proof.
  destruct l as [|[| |]]; cbn [round_nearest_even]; try lia.
  destruct (Z.even m); lia.
Qed.

(** [binary_round_aux] is the first shift followed by [round_from]. *)
Lemma binary_round_aux_round_from (s : bool) (m e : Z) (l : location) :
  0 <= m -> e <= fexp prec emax (Zdigits2 m + e) ->
  binary_round_aux prec emax s m e l =
    round_from s (shr_m (fst (shr_fexp prec emax m e l)))
      (snd (shr_fexp prec emax m e l))
      (loc_of_shr_record (fst (shr_fexp prec emax m e l))).
Proof.
  intros Hm He.
  destruct (shr_fexp_bounds m e l Hm He) as (_ & [H0 Hup] & _).
  pose proof (shr_fexp_exponent m e l) as Hexp.
  unfold binary_round_aux, round_from.
  destruct (shr_fexp prec emax m e l) as [mrs e1]. cbn [fst snd] in *.
  pose proof (round_nearest_even_lower (shr_m mrs) (loc_of_shr_record mrs))
    as Hlo.
  pose proof (round_nearest_even_upper (shr_m mrs) (loc_of_shr_record mrs))
    as Hhi.
  set (m2 := round_nearest_even (shr_m mrs) (loc_of_shr_record mrs)) in *.
  destruct (m2 =? 2 ^ prec) eqn:E2.
  - apply Z.eqb_eq in E2. rewrite E2.
    unfold shr_fexp, shr, fexp, emin32, emin, prec, emax in *.
    change (Zdigits2 (2 ^ 24)) with 25.
    replace (Z.max (25 + e1 - 24) (3 - 128 - 24) - e1) with 1 by lia.
    reflexivity.
  - apply Z.eqb_neq in E2.
    assert (Hm2 : 0 <= m2 < 2 ^ prec) by lia.
    assert (Hshr : shr_fexp prec emax m2 e1 loc_Exact =
                     (shr_record_of_loc m2 loc_Exact, e1)).
    { unfold shr_fexp, shr.
      destruct (fexp prec emax (Zdigits2 m2 + e1) - e1) as [|n|n] eqn:En;
        try reflexivity.
      exfalso. unfold fexp, emin32, emin, prec, emax in *.
      destruct m2 as [|q|q]; cbn [Zdigits2] in En; [lia | | lia].
      pose proof (digits2_pos_le q 24 ltac:(lia)). lia. }
    rewrite Hshr. cbn [shr_record_of_loc shr_m]. reflexivity.
Qed.

(** ** The division core *)

Lemma quotient_pos (mx : positive) (ex : Z) (my : positive) (ey : Z) :
  (0 < quotient mx ex my ey)%Q.
Proof.
  unfold quotient. apply Qlt_shift_div_l.
  - apply Qmult_lt_0_compat; [apply inject_Z_pos | apply P2_pos].
  - rewrite Qmult_0_l.
    apply Qmult_lt_0_compat; [apply inject_Z_pos | apply P2_pos].
Qed.

(** The location SpecFloat computes from the remainder of a division is
    that of the exact quotient. *)
Lemma new_location_locu (my q r : Z) (u : Q) :
  0 < my -> 0 <= r < my ->
  (u * inject_Z my == inject_Z q * inject_Z my + inject_Z r)%Q ->
  locu q (new_location my r) u.
Proof.
  intros Hmy Hr E.
  assert (HY : (0 < inject_Z my)%Q)
    by (change 0%Q with (inject_Z 0); rewrite <- Zlt_Qlt; exact Hmy).
  assert (HrY : (inject_Z r < inject_Z my)%Q) by (rewrite <- Zlt_Qlt; lia).
  assert (Hcmp : match 2 * r ?= my with
                 | Lt => (2 * inject_Z r < inject_Z my)%Q
                 | Eq => (2 * inject_Z r == inject_Z my)%Q
                 | Gt => (inject_Z my < 2 * inject_Z r)%Q
                 end).
  { change 2%Q with (inject_Z 2). rewrite <- inject_Z_mult.
    destruct (2 * r ?= my) eqn:Hc;
      [apply Z.compare_eq in Hc; rewrite Hc; reflexivity
      | rewrite <- Zlt_Qlt; apply Z.compare_lt_iff; exact Hc
      | rewrite <- Zlt_Qlt; apply Z.compare_gt_iff; exact Hc]. }
  assert (Hzero : r = 0 -> (inject_Z r == 0)%Q) by (intros ->; reflexivity).
  assert (Hpos : r <> 0 -> (0 < inject_Z r)%Q).
  { intros Hr1. change 0%Q with (inject_Z 0). rewrite <- Zlt_Qlt. lia. }
  assert (Hodd : Z.even my = false -> 2 * r <> my).
  { intros Eev E2. rewrite <- E2, Z.even_mul in Eev. discriminate Eev. }
  assert (Hc1 : match 2 * r + 1 ?= my with
                | Gt => (2 * r ?= my) = Gt \/ 2 * r = my
                | _ => (2 * r ?= my) = Lt
                end).
  { destruct (2 * r + 1 ?= my) eqn:Ec.
    - apply Z.compare_eq in Ec. apply Z.compare_lt_iff. lia.
    - apply -> Z.compare_lt_iff in Ec. apply Z.compare_lt_iff. lia.
    - apply -> Z.compare_gt_iff in Ec.
      destruct (Z.eq_dec (2 * r) my) as [E2|N2]; [right; exact E2|].
      left. apply Z.compare_gt_iff. lia. }
  assert (Hlt : forall a b : Q,
            (a * inject_Z my < b * inject_Z my)%Q -> (a < b)%Q)
    by (intros a b H; apply (Qmult_lt_r _ _ _ HY); exact H).
  assert (Heq : forall a b : Q,
            (a * inject_Z my == b * inject_Z my)%Q -> (a == b)%Q).
  { intros a b H. apply (Qmult_inj_r _ _ (inject_Z my)); [lra | exact H]. }
  unfold new_location, new_location_even, new_location_odd.
  change (IntDef.Z.even my) with (Z.even my).
  destruct (Z.even my); cbn beta; destruct (r =? 0) eqn:Er0;
    [apply Z.eqb_eq in Er0; specialize (Hzero Er0)
    |apply Z.eqb_neq in Er0; specialize (Hpos Er0)
    |apply Z.eqb_eq in Er0; specialize (Hzero Er0)
    |apply Z.eqb_neq in Er0; specialize (Hpos Er0)].
  - clear - E HY Hzero Heq. cbn [locu]. apply Heq. lra.
  - destruct (2 * r ?= my); clear - E HY Hpos Hcmp HrY Hlt Heq; cbn [locu];
      [apply Heq | split; apply Hlt | split; apply Hlt]; lra.
  - clear - E HY Hzero Heq. cbn [locu]. apply Heq. lra.
  - specialize (Hodd eq_refl).
    destruct (2 * r + 1 ?= my);
      [rewrite Hc1 in Hcmp | rewrite Hc1 in Hcmp
      | destruct Hc1 as [Hc1|Hc1]; [rewrite Hc1 in Hcmp | contradiction]];
      clear - E HY Hpos Hcmp HrY Hlt Heq; cbn [locu];
      split; apply Hlt; lra.
Qed.

Lemma div_eucl_spec (a b : Z) :
  0 < b ->
  a = b * fst (Z.div_eucl a b) + snd (Z.div_eucl a b) /\
  0 <= snd (Z.div_eucl a b) < b.
Proof.
  intros Hb. pose proof (Z_div_mod a b ltac:(lia)) as H.
  destruct (Z.div_eucl a b) as [q r]. exact H.
Qed.

(** The division core hands the rounding a truncated quotient with at
    least the precision of the format, and says where the exact quotient
    lies from it on. *)
(** The division core returns a truncation of the exact quotient with
    its location, at an exponent that leaves at least the precision of the
    format. *)
Lemma SFdiv_core_binary_spec (mx my : positive) (ex ey : Z) :
  let mz := fst (fst (SFdiv_core_binary prec emax (Zpos mx) ex (Zpos my) ey)) in
  let ez := snd (fst (SFdiv_core_binary prec emax (Zpos mx) ex (Zpos my) ey)) in
  let lz := snd (SFdiv_core_binary prec emax (Zpos mx) ex (Zpos my) ey) in
  loc_at mz ez lz (quotient mx ex my ey) /\
  ez <= fexp prec emax (Zdigits2 mz + ez).
Proof.
  unfold SFdiv_core_binary. cbn [Zdigits2].
  set (d1 := Zpos (digits2_pos mx)). set (d2 := Zpos (digits2_pos my)).
  set (ez := Z.min (fexp prec emax (d1 + ex - (d2 + ey))) (ex - ey)).
  set (s := ex - ey - ez).
  assert (Hs : 0 <= s) by (subst s ez; lia).
  set (m' := match s with
             | 0 => Zpos mx
             | Zpos _ => Z.shiftl (Zpos mx) s
             | Zneg _ => 0
             end).
  assert (Em' : m' = Zpos mx * 2 ^ s).
  { subst m'. destruct s as [|p|p] eqn:Es; [simpl; lia | | lia].
    apply Z.shiftl_mul_pow2. lia. }
  destruct (div_eucl_spec m' (Zpos my) ltac:(lia)) as [Ediv Hr].
  destruct (Z.div_eucl m' (Zpos my)) as [q r]. cbn [fst snd] in *.
  assert (H2s : 0 < 2 ^ s) by (apply Z.pow_pos_nonneg; lia).
  assert (Hq : 0 <= q) by nia.
  split.
  - split; [exact Hq|].
    apply new_location_locu; [lia | exact Hr |].
    unfold quotient.
    assert (EP : (P2 ex == P2 s * P2 ez * P2 ey)%Q).
    { rewrite <- !P2_plus. replace (s + ez + ey) with ex by (subst s; lia).
      reflexivity. }
    assert (Einv : (P2 ez * P2 (- ez) == 1)%Q).
    { rewrite <- P2_plus. replace (ez + - ez) with 0 by lia. reflexivity. }
    assert (Em : (inject_Z (Zpos mx) * P2 s ==
                  inject_Z q * inject_Z (Zpos my) + inject_Z r)%Q).
    { rewrite P2_nonneg_Z by exact Hs.
      rewrite <- !inject_Z_mult, <- inject_Z_plus.
      rewrite <- Em', Ediv. rewrite (Z.mul_comm q). reflexivity. }
    pose proof (P2_pos ey) as Hey. pose proof (inject_Z_pos my) as Hmy.
    rewrite EP, <- Em.
    transitivity (inject_Z (Zpos mx) * P2 s * (P2 ez * P2 (- ez)))%Q;
      [field; split; lra | rewrite Einv; ring].
  - unfold fexp, emin, prec, emax in *.
    destruct (Z_le_gt_dec ez (3 - 128 - 24)) as [Hlow|Hhigh]; [lia|].
    pose proof (digits2_pos_lower mx) as Hl1.
    pose proof (digits2_pos_upper my) as Hu2.
    fold d1 in Hl1. fold d2 in Hu2.
    set (K := d1 - 1 + s - d2).
    assert (HK : 23 <= K) by (subst K s ez; lia).
    assert (HqK : 2 ^ K <= q).
    { assert (E1 : 2 ^ (d1 - 1 + s) = 2 ^ K * 2 ^ d2).
      { rewrite <- Z.pow_add_r by (subst d2; lia). f_equal. subst K. lia. }
      assert (E2 : 2 ^ (d1 - 1 + s) = 2 ^ (d1 - 1) * 2 ^ s).
      { apply Z.pow_add_r; subst d1; lia. }
      assert (0 < 2 ^ K) by (apply Z.pow_pos_nonneg; lia).
      nia. }
    assert (0 < 2 ^ K) by (apply Z.pow_pos_nonneg; lia).
    destruct q as [|qp|qp]; [lia | | lia]. cbn [Zdigits2].
    pose proof (digits2_pos_ge qp K HqK). subst K s ez. lia.
Qed.

(** ** Canonical truncations *)

(** The canonical truncation of a positive value is unique. *)
Lemma canon_at_unique (m1 e1 : Z) (l1 : location) (m1' e1' : Z)
    (l1' : location) (v : Q) :
  canon_at m1 e1 l1 v -> canon_at m1' e1' l1' v ->
  m1 = m1' /\ e1 = e1' /\ l1 = l1'.
Proof.
  intros (Hl & Hup & He & Hn) (Hl' & Hup' & He' & Hn').
  assert (Hexp : forall (a ea : Z) (la : location) (b eb : Z) (lb : location),
            loc_at a ea la v -> loc_at b eb lb v ->
            a < 2 ^ prec -> (emin32 < eb -> 2 ^ (prec - 1) <= b) ->
            emin32 <= ea -> ea < eb -> False).
  { intros a ea la b eb lb Ha Hb Haup Hbn Hea Hlt.
    specialize (Hbn ltac:(lia)).
    apply loc_at_bounds in Ha, Hb.
    assert (H1 : (inject_Z a + 1 <= P2 prec)%Q).
    { rewrite <- inject_Z_pow2 by (unfold prec; lia).
      change 1%Q with (inject_Z 1). rewrite <- inject_Z_plus, <- Zle_Qle.
      lia. }
    assert (H2 : (P2 (prec - 1) <= inject_Z b)%Q).
    { rewrite <- inject_Z_pow2 by (unfold prec; lia). rewrite <- Zle_Qle.
      exact Hbn. }
    assert (H3 : (P2 prec * P2 ea <= P2 (prec - 1) * P2 eb)%Q).
    { rewrite <- !P2_plus. apply P2_le. lia. }
    pose proof (P2_pos ea). pose proof (P2_pos eb).
    pose proof (P2_pos prec). pose proof (P2_pos (prec - 1)).
    generalize dependent (P2 prec). generalize dependent (P2 (prec - 1)).
    generalize dependent (P2 ea). generalize dependent (P2 eb).
    generalize dependent (inject_Z a). generalize dependent (inject_Z b).
    clear. intros. nra. }
  assert (Ee : e1 = e1').
  { destruct (Z.lt_trichotomy e1 e1') as [Hlt|[Heq|Hgt]]; [|exact Heq|].
    - exfalso. exact (Hexp _ _ _ _ _ _ Hl Hl' Hup Hn' He Hlt).
    - exfalso. exact (Hexp _ _ _ _ _ _ Hl' Hl Hup' Hn He' Hgt). }
  subst e1'. destruct Hl as [Hm Hu]. destruct Hl' as [Hm' Hu'].
  assert (Em : m1 = m1').
  { apply locu_bounds in Hu, Hu'.
    assert (inject_Z m1 < inject_Z m1' + 1)%Q by lra.
    assert (inject_Z m1' < inject_Z m1 + 1)%Q by lra.
    change 1%Q with (inject_Z 1) in *.
    rewrite <- inject_Z_plus, <- Zlt_Qlt in *. lia. }
  subst m1'. split; [reflexivity|]. split; [reflexivity|].
  destruct l1 as [|[| |]], l1' as [|[| |]]; cbn [locu] in *;
    try reflexivity; exfalso; lra.
Qed.

Lemma canon_at_ext (m e : Z) (l : location) (v v' : Q) :
  (v == v')%Q -> canon_at m e l v -> canon_at m e l v'.
Proof.
  intros E ([H0 Hl] & H). split; [|exact H]. split; [exact H0|].
  destruct l as [|[| |]]; cbn [locu] in *; rewrite <- E; exact Hl.
Qed.

(** Rounding a located truncation goes through the canonical truncation
    of the same number. *)
Lemma binary_round_aux_canon (s : bool) (m e : Z) (l : location) (v : Q) :
  loc_at m e l v -> e <= fexp prec emax (Zdigits2 m + e) ->
  exists (m1 e1 : Z) (l1 : location),
    binary_round_aux prec emax s m e l = round_from s m1 e1 l1 /\
    canon_at m1 e1 l1 v.
Proof.
  intros Hl He. pose proof Hl as [Hm _].
  destruct (shr_fexp_bounds m e l Hm He) as (E1 & [H0 Hup] & Hn).
  eexists _, _, _. split; [apply binary_round_aux_round_from; assumption|].
  split; [|split; [exact Hup|split; [rewrite E1; apply fexp_lower|exact Hn]]].
  unfold shr_fexp. apply shr_loc_at. exact Hl.
Qed.

(** The quotient of two finite non-zero [float]s is the canonical
    truncation of the exact quotient, rounded. *)
Lemma fdiv_canon (sx sy : bool) (mx my : positive) (ex ey : Z) :
  exists (m1 e1 : Z) (l1 : location),
    fdiv (S754_finite sx mx ex) (S754_finite sy my ey) =
      round_from (xorb sx sy) m1 e1 l1 /\
    canon_at m1 e1 l1 (quotient mx ex my ey).
Proof.
  pose proof (SFdiv_core_binary_spec mx my ex ey) as H. cbv zeta in H.
  unfold fdiv, SFdiv.
  destruct (SFdiv_core_binary prec emax (Zpos mx) ex (Zpos my) ey)
    as [[mz ez] lz].
  cbn [fst snd] in H. destruct H as [Hl He].
  apply binary_round_aux_canon; assumption.
Qed.

(** The value of a rounded truncation that does not overflow. *)
Lemma round_from_value (s : bool) (m1 e1 : Z) (l1 : location) :
  0 <= m1 -> (emin32 < e1 -> 2 ^ (prec - 1) <= m1) ->
  (inject_Z (round_nearest_even m1 l1) * P2 e1 < P2 emax)%Q ->
  is_finite (round_from s m1 e1 l1) = true /\
  (Qval (round_from s m1 e1 l1) ==
     (if s then -1 else 1) *
     (inject_Z (round_nearest_even m1 l1) * P2 e1))%Q.
Proof.
  intros H0 Hn Hlt.
  pose proof (round_nearest_even_lower m1 l1) as Hlo.
  unfold round_from.
  set (m2 := round_nearest_even m1 l1) in *.
  destruct (m2 =? 2 ^ prec) eqn:E2.
  - apply Z.eqb_eq in E2. rewrite E2 in Hlt.
    rewrite inject_Z_pow2 in Hlt by (unfold prec; lia).
    rewrite <- P2_plus in Hlt. apply P2_lt_inv in Hlt.
    change (2 ^ (prec - 1)) with 8388608.
    replace (e1 + 1 <=? emax - prec) with true
      by (symmetry; apply Z.leb_le; unfold emax, prec in *; lia).
    split; [reflexivity|].
    rewrite Qval_P2, E2, P2_succ.
    change (inject_Z (2 ^ prec)) with (2 * inject_Z 8388608)%Q. ring.
  - destruct m2 as [|p|p] eqn:Em; [| |lia].
    + split; [reflexivity|]. cbn [Qval]. destruct s; ring.
    + assert (He : e1 <= emax - prec).
      { destruct (Z_le_gt_dec e1 (emax - prec)) as [Hle|Hgt]; [exact Hle|].
        exfalso.
        assert (Hm : 2 ^ (prec - 1) <= Zpos p)
          by (unfold emin32, emin, emax, prec in *; lia).
        assert (H1 : (P2 (prec - 1) <= inject_Z (Zpos p))%Q).
        { rewrite <- inject_Z_pow2 by (unfold prec; lia).
          rewrite <- Zle_Qle. exact Hm. }
        assert (H2 : (P2 emax <= P2 (prec - 1) * P2 e1)%Q).
        { rewrite <- P2_plus. apply P2_le. unfold emax, prec in *. lia. }
        pose proof (P2_pos e1).
        generalize dependent (P2 emax). generalize dependent (P2 (prec - 1)).
        generalize dependent (P2 e1). generalize dependent (inject_Z (Zpos p)).
        clear. intros. nra. }
      replace (e1 <=? emax - prec) with true
        by (symmetry; apply Z.leb_le; exact He).
      split; [reflexivity|]. rewrite Qval_P2. reflexivity.
Qed.

Lemma round_from_not_nan (s : bool) (m1 e1 : Z) (l1 : location) :
  0 <= m1 -> is_nan (round_from s m1 e1 l1) = false.
Proof.
  intros H0. pose proof (round_nearest_even_lower m1 l1) as Hlo.
  unfold round_from.
  destruct (round_nearest_even m1 l1 =? 2 ^ prec).
  - change (2 ^ (prec - 1)) with 8388608.
    destruct (e1 + 1 <=? emax - prec); reflexivity.
  - destruct (round_nearest_even m1 l1) as [|p|p]; [reflexivity| |lia].
    destruct (e1 <=? emax - prec); reflexivity.
Qed.

(** ** Valid [float]s *)

(** What [valid] says of a finite [float], and back. *)
Lemma valid_finite (s : bool) (m : positive) (e : Z) :
  valid (S754_finite s m e) = true ->
  emin32 <= e <= emax - prec /\ Zpos m < 2 ^ prec /\
  (emin32 < e -> 2 ^ (prec - 1) <= Zpos m).
Proof.
  unfold valid, valid_binary, bounded, canonical_mantissa.
  intros H. apply andb_prop in H. destruct H as [Hc Hb].
  apply Z.leb_le in Hb. apply Z.eqb_eq in Hc.
  pose proof (digits2_pos_upper m) as Hup.
  pose proof (digits2_pos_lower m) as Hlo.
  unfold fexp, emin32, SpecFloat.emin in *.
  assert (Hd : Zpos (digits2_pos m) <= prec) by lia.
  split; [lia|]. split.
  - eapply Z.lt_le_trans; [exact Hup|].
    apply Z.pow_le_mono_r; lia.
  - intros He. replace (Zpos (digits2_pos m)) with prec in Hlo by lia.
    exact Hlo.
Qed.

(** A valid positive [float] is its own canonical truncation. *)
Lemma valid_canon_at (s : bool) (m : positive) (e : Z) :
  valid (S754_finite s m e) = true ->
  canon_at (Zpos m) e loc_Exact (inject_Z (Zpos m) * P2 e).
Proof.
  intros H. apply valid_finite in H. destruct H as ([He _] & Hup & Hn).
  split; [|split; [exact Hup|split; [exact He|exact Hn]]].
  split; [lia|]. cbn [locu].
  rewrite <- Qmult_assoc, P2_inv. ring.
Qed.

Lemma valid_of_bounds (s : bool) (m : positive) (e : Z) :
  emin32 <= e <= emax - prec -> Zpos m < 2 ^ prec ->
  (emin32 < e -> 2 ^ (prec - 1) <= Zpos m) ->
  valid (S754_finite s m e) = true.
Proof.
  intros [He1 He2] Hm Hn.
  unfold valid, valid_binary, bounded, canonical_mantissa.
  apply andb_true_intro. split; [|apply Z.leb_le; exact He2].
  apply Z.eqb_eq.
  pose proof (digits2_pos_le m prec Hm) as Hd.
  unfold fexp, emin32, SpecFloat.emin in *.
  destruct (Z_le_gt_dec e (3 - emax - prec)) as [Hle|Hgt]; [lia|].
  pose proof (digits2_pos_ge m (prec - 1) (Hn ltac:(lia))). lia.
Qed.

Lemma round_from_is_valid (s : bool) (m1 e1 : Z) (l1 : location) :
  0 <= m1 < 2 ^ prec -> emin32 <= e1 ->
  (emin32 < e1 -> 2 ^ (prec - 1) <= m1) ->
  valid (round_from s m1 e1 l1) = true.
Proof.
  intros [H0 Hup] He Hn.
  pose proof (round_nearest_even_lower m1 l1) as Hlo.
  pose proof (round_nearest_even_upper m1 l1) as Hhi.
  unfold round_from.
  destruct (round_nearest_even m1 l1 =? 2 ^ prec) eqn:E2.
  - change (2 ^ (prec - 1)) with 8388608.
    destruct (e1 + 1 <=? emax - prec) eqn:Ee; [|reflexivity].
    apply Z.leb_le in Ee. apply valid_of_bounds.
    + lia.
    + reflexivity.
    + intros _. discriminate.
  - apply Z.eqb_neq in E2.
    destruct (round_nearest_even m1 l1) as [|p|p]; [reflexivity| |reflexivity].
    destruct (e1 <=? emax - prec) eqn:Ee; [|reflexivity].
    apply Z.leb_le in Ee. apply valid_of_bounds; lia.
Qed.

(** The quotient of two [float]s is a valid [float]. *)
Lemma fdiv_valid (x y : float32) : valid (fdiv x y) = true.
Proof.
  destruct x as [sx|sx| |sx mx ex], y as [sy|sy| |sy my ey];
    try reflexivity.
  destruct (fdiv_canon sx sy mx my ex ey) as (m1 & e1 & l1 & -> & Hc).
  destruct Hc as ([H0 _] & Hup & He & Hn).
  apply round_from_is_valid; [lia|exact He|exact Hn].
Qed.

(** A valid [float] rounds to itself. *)
Lemma round_from_valid (s : bool) (m : positive) (e : Z) :
  valid (S754_finite s m e) = true ->
  round_from s (Zpos m) e loc_Exact = S754_finite s m e.
Proof.
  intros H. apply valid_finite in H. destruct H as ([_ He] & Hm & _).
  unfold round_from. cbn [round_nearest_even].
  replace (Zpos m =? 2 ^ prec) with false by (symmetry; apply Z.eqb_neq; lia).
  replace (e <=? emax - prec) with true by (symmetry; apply Z.leb_le; exact He).
  reflexivity.
Qed.

(** ** Rounding is monotone across valid [float]s *)

(** A value with an exponent not below [e1] is a whole number of units
    [2^e1]. *)
Lemma units_of (mg : positive) (eg e1 : Z) :
  e1 <= eg ->
  (inject_Z (Zpos mg) * P2 eg ==
     inject_Z (Zpos mg * 2 ^ (eg - e1)) * P2 e1)%Q.
Proof.
  intros H. rewrite inject_Z_mult, inject_Z_pow2 by lia.
  rewrite <- Qmult_assoc, <- P2_plus.
  replace (eg - e1 + e1) with eg by lia. reflexivity.
Qed.

(** A value with a smaller exponent is below every normal value of
    exponent [e1]. *)
Lemma below_normal (mg : positive) (eg m1 e1 : Z) :
  Zpos mg < 2 ^ prec -> eg < e1 -> 2 ^ (prec - 1) <= m1 ->
  (inject_Z (Zpos mg) * P2 eg < inject_Z m1 * P2 e1)%Q.
Proof.
  intros Hup He Hn.
  assert (H1 : (inject_Z (Zpos mg) < P2 prec)%Q).
  { rewrite <- inject_Z_pow2 by (unfold prec; lia).
    rewrite <- Zlt_Qlt. exact Hup. }
  assert (H2 : (P2 (prec - 1) <= inject_Z m1)%Q).
  { rewrite <- inject_Z_pow2 by (unfold prec; lia).
    rewrite <- Zle_Qle. exact Hn. }
  assert (H3 : (P2 prec * P2 eg <= P2 (prec - 1) * P2 e1)%Q).
  { rewrite <- !P2_plus. apply P2_le. lia. }
  pose proof (P2_pos eg). pose proof (P2_pos e1).
  pose proof (P2_pos prec). pose proof (P2_pos (prec - 1)).
  generalize dependent (P2 prec). generalize dependent (P2 (prec - 1)).
  generalize dependent (P2 eg). generalize dependent (P2 e1).
  generalize dependent (inject_Z (Zpos mg)). generalize dependent (inject_Z m1).
  clear. intros. nra.
Qed.

(** A valid [float] that is not above [v] is not above the truncation
    of [v]. *)
Lemma canon_at_lower (m1 e1 : Z) (l1 : location) (v : Q)
    (mg : positive) (eg : Z) :
  canon_at m1 e1 l1 v -> emin32 <= eg -> Zpos mg < 2 ^ prec ->
  (inject_Z (Zpos mg) * P2 eg <= v)%Q ->
  (inject_Z (Zpos mg) * P2 eg <= inject_Z m1 * P2 e1)%Q.
Proof.
  intros (Hl & Hup & He & Hn) Heg Hmg Hle.
  destruct (Z_le_gt_dec e1 eg) as [Hge|Hlt].
  - rewrite (units_of mg eg e1 Hge) in *.
    apply loc_at_bounds in Hl. destruct Hl as [_ Hl].
    assert (H : (inject_Z (Zpos mg * 2 ^ (eg - e1)) * P2 e1 <
                 (inject_Z m1 + 1) * P2 e1)%Q) by lra.
    apply Qmult_lt_r in H; [|apply P2_pos].
    change 1%Q with (inject_Z 1) in H.
    rewrite <- inject_Z_plus, <- Zlt_Qlt in H.
    apply Qmult_le_compat_r; [|apply Qlt_le_weak, P2_pos].
    rewrite <- Zle_Qle. lia.
  - apply Qlt_le_weak, below_normal; [exact Hmg|lia|apply Hn; lia].
Qed.

(** A valid [float] that is not below [v] is not below [v] rounded. *)
Lemma canon_at_upper (m1 e1 : Z) (l1 : location) (v : Q)
    (mg : positive) (eg : Z) :
  canon_at m1 e1 l1 v -> emin32 <= eg -> Zpos mg < 2 ^ prec ->
  (v <= inject_Z (Zpos mg) * P2 eg)%Q ->
  (inject_Z (round_nearest_even m1 l1) * P2 e1 <=
     inject_Z (Zpos mg) * P2 eg)%Q.
Proof.
  intros (Hl & Hup & He & Hn) Heg Hmg Hle.
  assert (Hdec : l1 = loc_Exact \/ l1 <> loc_Exact)
    by (destruct l1; [left; reflexivity|right; discriminate]).
  destruct Hdec as [->|Hl1].
  - cbn [round_nearest_even]. apply loc_at_exact in Hl. rewrite <- Hl.
    exact Hle.
  - pose proof (loc_at_inexact _ _ _ _ Hl Hl1) as Hlt.
    pose proof (round_nearest_even_upper m1 l1) as Hr.
    destruct (Z_le_gt_dec e1 eg) as [Hge|Hgt].
    + rewrite (units_of mg eg e1 Hge) in *.
      assert (H : (inject_Z m1 * P2 e1 <
                   inject_Z (Zpos mg * 2 ^ (eg - e1)) * P2 e1)%Q) by lra.
      apply Qmult_lt_r in H; [|apply P2_pos].
      rewrite <- Zlt_Qlt in H.
      apply Qmult_le_compat_r; [|apply Qlt_le_weak, P2_pos].
      rewrite <- Zle_Qle. lia.
    + exfalso.
      pose proof (below_normal mg eg m1 e1 Hmg ltac:(lia) (Hn ltac:(lia))).
      lra.
Qed.

Lemma Qval_fneg (x : float32) : (Qval (fneg x) == - Qval x)%Q.
Proof.
  destruct x as [s|s| |s m e]; cbn [fneg SFopp Qval]; try reflexivity.
  destruct s; cbn [negb]; ring.
Qed.

Lemma is_finite_fneg (x : float32) : is_finite (fneg x) = is_finite x.
Proof. destruct x; reflexivity. Qed.

(** Every valid finite [float] is below [2^emax]. *)
Lemma valid_below_max (m : positive) (e : Z) :
  emin32 <= e <= emax - prec -> Zpos m < 2 ^ prec ->
  (inject_Z (Zpos m) * P2 e < P2 emax)%Q.
Proof.
  intros He Hm.
  assert (H1 : (inject_Z (Zpos m) < P2 prec)%Q).
  { rewrite <- inject_Z_pow2 by (unfold prec; lia).
    rewrite <- Zlt_Qlt. exact Hm. }
  assert (H2 : (P2 prec * P2 e <= P2 emax)%Q).
  { rewrite <- P2_plus. apply P2_le. lia. }
  pose proof (P2_pos e).
  generalize dependent (P2 prec). generalize dependent (P2 emax).
  generalize dependent (P2 e). generalize dependent (inject_Z (Zpos m)).
  clear. intros. nra.
Qed.

(** A positive value between two valid [float]s rounds to a value between
    them, without overflow. *)
Lemma round_between (m1 e1 : Z) (l1 : location) (v : Q) (g1 g2 : float32) :
  canon_at m1 e1 l1 v -> (0 < v)%Q ->
  valid g1 = true -> is_finite g1 = true ->
  valid g2 = true -> is_finite g2 = true ->
  (Qval g1 <= v <= Qval g2)%Q ->
  (inject_Z (round_nearest_even m1 l1) * P2 e1 < P2 emax)%Q /\
  (Qval g1 <= inject_Z (round_nearest_even m1 l1) * P2 e1 <= Qval g2)%Q.
Proof.
  intros Hc Hv V1 F1 V2 F2 [Hlo Hhi].
  assert (H0 : (0 <= inject_Z m1 * P2 e1)%Q).
  { destruct Hc as ([H0 _] & _). apply Qmult_le_0_compat.
    - change 0%Q with (inject_Z 0). rewrite <- Zle_Qle. exact H0.
    - apply Qlt_le_weak, P2_pos. }
  assert (Hr : (inject_Z m1 * P2 e1 <=
                inject_Z (round_nearest_even m1 l1) * P2 e1)%Q).
  { apply Qmult_le_compat_r; [|apply Qlt_le_weak, P2_pos].
    rewrite <- Zle_Qle. apply round_nearest_even_lower. }
  assert (Hupper : (inject_Z (round_nearest_even m1 l1) * P2 e1 < P2 emax)%Q /\
                   (inject_Z (round_nearest_even m1 l1) * P2 e1 <= Qval g2)%Q).
  { destruct g2 as [s|s| |s mg eg]; try discriminate.
    - cbn [Qval] in Hhi. lra.
    - pose proof (P2_mant_pos mg eg) as Hpos.
      destruct s; [rewrite Qval_true in Hhi; lra|].
      rewrite Qval_false in *.
      destruct (valid_finite _ _ _ V2) as (He & Hm & _).
      pose proof (canon_at_upper _ _ _ _ mg eg Hc (proj1 He) Hm Hhi) as Hu.
      pose proof (valid_below_max mg eg He Hm).
      split; [lra|exact Hu]. }
  destruct Hupper as [Hmax Hu]. split; [exact Hmax|]. split; [|exact Hu].
  destruct g1 as [s|s| |s mg eg]; try discriminate.
  - cbn [Qval]. lra.
  - pose proof (P2_mant_pos mg eg) as Hpos.
    destruct s; [rewrite Qval_true; lra|].
    rewrite Qval_false in *.
    destruct (valid_finite _ _ _ V1) as (He & Hm & _).
    pose proof (canon_at_lower _ _ _ _ mg eg Hc (proj1 He) Hm Hlo). lra.
Qed.

Lemma Qval_div_finite (sx sy : bool) (mx my : positive) (ex ey : Z) :
  (Qval (S754_finite sx mx ex) / Qval (S754_finite sy my ey) ==
     (if xorb sx sy then -1 else 1) * quotient mx ex my ey)%Q.
Proof.
  rewrite !Qval_P2. unfold quotient.
  pose proof (P2_pos ey). pose proof (inject_Z_pos my).
  destruct sx, sy; cbn [xorb]; field; split; lra.
Qed.

(** The quotient of finite [float]s lies between any two valid [float]s
    that the exact quotient lies between, and is finite. *)
Lemma fdiv_between (x y g1 g2 : float32) :
  is_finite x = true -> is_finite y = true -> feqb y fzero = false ->
  valid g1 = true -> is_finite g1 = true ->
  valid g2 = true -> is_finite g2 = true ->
  (Qval g1 <= Qval x / Qval y <= Qval g2)%Q ->
  is_finite (fdiv x y) = true /\
  (Qval g1 <= Qval (fdiv x y) <= Qval g2)%Q.
Proof.
  intros Fx Fy Ny V1 F1 V2 F2 Hb.
  destruct y as [sy|sy| |sy my ey]; try discriminate.
  destruct x as [sx|sx| |sx mx ex]; try discriminate.
  - split; [reflexivity|].
    cbn [fdiv SFdiv Qval] in *.
    assert (E : (0 / Qval (S754_finite sy my ey) == 0)%Q)
      by (unfold Qdiv; ring).
    rewrite E in Hb. exact Hb.
  - rewrite Qval_div_finite in Hb.
    destruct (fdiv_canon sx sy mx my ex ey) as (m1 & e1 & l1 & -> & Hc).
    pose proof (quotient_pos mx ex my ey) as Hv.
    pose proof Hc as ([H0 _] & _ & _ & Hn).
    destruct (xorb sx sy).
    + destruct (round_between m1 e1 l1 _ (fneg g2) (fneg g1) Hc Hv)
        as (Hmax & Hlo & Hhi);
        rewrite ?valid_fneg, ?is_finite_fneg, ?Qval_fneg; try assumption;
        [lra|].
      rewrite Qval_fneg in Hlo, Hhi.
      destruct (round_from_value true m1 e1 l1 H0 Hn Hmax) as [Hf Ev].
      split; [exact Hf|]. rewrite Ev. lra.
    + destruct (round_between m1 e1 l1 _ g1 g2 Hc Hv)
        as (Hmax & Hlo & Hhi); try assumption; [lra|].
      destruct (round_from_value false m1 e1 l1 H0 Hn Hmax) as [Hf Ev].
      split; [exact Hf|]. rewrite Ev. lra.
Qed.

(** ** The quotient is determined by the exact quotient *)

Lemma feqb_refl (x : float32) : is_nan x = false -> feqb x x = true.
Proof.
  destruct x as [s|s| |s m e]; try discriminate; intros _;
    try (destruct s; reflexivity).
  unfold feqb, SFeqb, SFcompare.
  destruct s; rewrite Z.compare_refl, Pos.compare_cont_refl; reflexivity.
Qed.

Lemma finite_Qval_zero (x : float32) :
  is_finite x = true -> (Qval x == 0)%Q -> exists s : bool, x = S754_zero s.
Proof.
  destruct x as [s|s| |s m e]; try discriminate; intros _ E.
  - exists s. reflexivity.
  - exfalso. exact (Qval_finite s m e E).
Qed.

(** When the exact quotient of two finite [float]s is the value of a
    valid [float], the quotient in [float] is that [float], up to the sign
    of a zero. *)
Lemma fdiv_exact (x y g : float32) :
  is_finite x = true -> is_finite y = true -> feqb y fzero = false ->
  valid g = true -> is_finite g = true ->
  (Qval x / Qval y == Qval g)%Q ->
  feqb (fdiv x y) g = true /\
  (feqb g fzero = false -> fdiv x y = g).
Proof.
  intros Fx Fy Ny Vg Fg E.
  destruct y as [sy|sy| |sy my ey]; try discriminate.
  destruct x as [sx|sx| |sx mx ex]; try discriminate.
  - assert (E0 : (Qval g == 0)%Q)
      by (rewrite <- E; cbn [Qval]; unfold Qdiv; ring).
    destruct (finite_Qval_zero g Fg E0) as [sg ->].
    cbn [fdiv SFdiv].
    split; [destruct (xorb sx sy), sg; reflexivity|].
    destruct sg; discriminate.
  - rewrite Qval_div_finite in E.
    destruct (fdiv_canon sx sy mx my ex ey) as (m1 & e1 & l1 & -> & Hc).
    pose proof (quotient_pos mx ex my ey) as Hv.
    destruct g as [sg|sg| |sg mg eg]; try discriminate.
    + cbn [Qval] in E. destruct (xorb sx sy); lra.
    + pose proof (P2_mant_pos mg eg) as Hpos.
      pose proof (valid_canon_at sg mg eg Vg) as Hg.
      assert (Es : xorb sx sy = sg /\
                   (inject_Z (Zpos mg) * P2 eg == quotient mx ex my ey)%Q).
      { destruct (xorb sx sy), sg;
          rewrite ?Qval_true, ?Qval_false in E;
          (split; [reflexivity || (exfalso; lra) | lra]). }
      destruct Es as [Es Ev]. rewrite Es.
      apply (canon_at_ext _ _ _ _ _ Ev) in Hg.
      destruct (canon_at_unique _ _ _ _ _ _ _ Hc Hg) as (-> & -> & ->).
      rewrite (round_from_valid sg mg eg Vg).
      split; [apply feqb_refl|]; reflexivity.
Qed.

(** Two quotients of finite [float]s with the same exact value are
    equal in [float]. *)
Lemma fdiv_same_quotient (x y x' y' : float32) :
  is_finite x = true -> is_finite y = true -> feqb y fzero = false ->
  is_finite x' = true -> is_finite y' = true -> feqb y' fzero = false ->
  (Qval x / Qval y == Qval x' / Qval y')%Q ->
  feqb (fdiv x y) (fdiv x' y') = true.
Proof.
  intros Fx Fy Ny Fx' Fy' Ny' E.
  destruct y as [sy|sy| |sy my ey]; try discriminate.
  destruct y' as [sy'|sy'| |sy' my' ey']; try discriminate.
  assert (Hz : forall (a : float32) (sb : bool) (mb : positive) (eb : Z),
             is_finite a = true ->
             (0 == Qval a / Qval (S754_finite sb mb eb))%Q ->
             exists s' : bool, fdiv a (S754_finite sb mb eb) = S754_zero s').
  { intros a sb mb eb Fa Ea.
    pose proof (Qval_finite sb mb eb) as Hb.
    assert (E0 : (Qval a == 0)%Q).
    { transitivity (Qval a / Qval (S754_finite sb mb eb) *
                    Qval (S754_finite sb mb eb))%Q; [field; exact Hb|].
      rewrite <- Ea. ring. }
    destruct (finite_Qval_zero a Fa E0) as [sa ->].
    eexists. reflexivity. }
  destruct x as [sx|sx| |sx mx ex]; try discriminate.
  - assert (E0 : (0 == Qval x' / Qval (S754_finite sy' my' ey'))%Q)
      by (rewrite <- E; cbn [Qval]; unfold Qdiv; ring).
    destruct (Hz x' sy' my' ey' Fx' E0) as [s' ->].
    cbn [fdiv SFdiv]. destruct (xorb sx sy), s'; reflexivity.
  - destruct x' as [sx'|sx'| |sx' mx' ex']; try discriminate.
    + assert (E0 : (0 == Qval (S754_finite sx mx ex) /
                         Qval (S754_finite sy my ey))%Q)
        by (rewrite E; cbn [Qval]; unfold Qdiv; ring).
      rewrite Qval_div_finite in E0.
      pose proof (quotient_pos mx ex my ey) as Hv.
      exfalso. destruct (xorb sx sy); lra.
    + rewrite !Qval_div_finite in E.
      destruct (fdiv_canon sx sy mx my ex ey) as (m1 & e1 & l1 & -> & Hc).
      destruct (fdiv_canon sx' sy' mx' my' ex' ey')
        as (m1' & e1' & l1' & -> & Hc').
      pose proof (quotient_pos mx ex my ey) as Hv.
      pose proof (quotient_pos mx' ex' my' ey') as Hv'.
      assert (Es : xorb sx sy = xorb sx' sy' /\
                   (quotient mx' ex' my' ey' == quotient mx ex my ey)%Q).
      { destruct (xorb sx sy), (xorb sx' sy');
          (split; [reflexivity || (exfalso; lra) | lra]). }
      destruct Es as [Es Ev]. rewrite Es.
      apply (canon_at_ext _ _ _ _ _ Ev) in Hc'.
      destruct (canon_at_unique _ _ _ _ _ _ _ Hc Hc') as (-> & -> & ->).
      apply feqb_refl, round_from_not_nan.
      destruct Hc as ([H0 _] & _). exact H0.
Qed.

(** ** Comparing valid [float]s *)

Lemma same_exp_le (m1 m2 : positive) (e : Z) :
  (inject_Z (Zpos m1) * P2 e <= inject_Z (Zpos m2) * P2 e)%Q ->
  (m1 <= m2)%positive.
Proof.
  intros H. apply Qmult_le_r in H; [|apply P2_pos].
  rewrite <- Zle_Qle in H. exact H.
Qed.

(** On valid finite [float]s, [<=] is the order of the numbers they stand
    for. *)
Lemma fleb_of_Qle (x y : float32) :
  valid x = true -> valid y = true ->
  is_finite x = true -> is_finite y = true ->
  (Qval x <= Qval y)%Q -> fleb x y = true.
Proof.
  intros Vx Vy Fx Fy Hle.
  destruct x as [sx|sx| |sx mx ex], y as [sy|sy| |sy my ey];
    try discriminate; try reflexivity.
  - pose proof (P2_mant_pos my ey).
    destruct sy; [|reflexivity].
    rewrite Qval_true in Hle. cbn [Qval] in Hle. lra.
  - pose proof (P2_mant_pos mx ex).
    destruct sx; [reflexivity|].
    rewrite Qval_false in Hle. cbn [Qval] in Hle. lra.
  - pose proof (P2_mant_pos mx ex). pose proof (P2_mant_pos my ey).
    destruct (valid_finite _ _ _ Vx) as ([Hex _] & Hmx & Hnx).
    destruct (valid_finite _ _ _ Vy) as ([Hey _] & Hmy & Hny).
    unfold fleb, SFleb, SFcompare.
    change (PosDef.Pos.compare_cont Eq mx my) with (Pos.compare mx my).
    destruct sx, sy; rewrite ?Qval_true, ?Qval_false in Hle;
      try reflexivity; try (exfalso; lra).
    + destruct (Z.compare_spec ex ey) as [->|Hlt|Hgt]; [| |reflexivity].
      * assert (Hm : (my <= mx)%positive) by (apply (same_exp_le _ _ ey); lra).
        destruct (Pos.compare_spec mx my) as [->|Hc|Hc]; try reflexivity.
        exfalso. lia.
      * exfalso.
        pose proof (below_normal mx ex (Zpos my) ey Hmx Hlt (Hny ltac:(lia))).
        lra.
    + destruct (Z.compare_spec ex ey) as [->|Hlt|Hgt]; [|reflexivity|].
      * assert (Hm : (mx <= my)%positive) by (apply (same_exp_le _ _ ey); lra).
        destruct (Pos.compare_spec mx my) as [->|Hc|Hc]; try reflexivity.
        exfalso. lia.
      * exfalso.
        pose proof (below_normal my ey (Zpos mx) ex Hmy Hgt (Hnx ltac:(lia))).
        lra.
Qed.

(** ** Whole numbers as [float]s *)

Lemma iter_xO_Z (d : positive) (m : positive) :
  Zpos (Pos.iter xO m d) = Zpos m * 2 ^ Zpos d.
Proof.
  induction d as [|d IH] using Pos.peano_ind.
  - cbn [Pos.iter]. lia.
  - rewrite Pos.iter_succ, Pos2Z.inj_xO, IH, Pos2Z.inj_succ,
      Z.pow_succ_r by lia.
    ring.
Qed.

Lemma iter_xO_digits (d : positive) (m : positive) :
  Zpos (digits2_pos (Pos.iter xO m d)) = Zpos (digits2_pos m) + Zpos d.
Proof.
  induction d as [|d IH] using Pos.peano_ind.
  - cbn [Pos.iter digits2_pos]. lia.
  - rewrite Pos.iter_succ. cbn [digits2_pos]. lia.
Qed.

(** Aligning a mantissa on a smaller exponent leaves the number and the
    position of its leading digit as they were. *)
Lemma shl_align_spec (m : positive) (e e' : Z) :
  (inject_Z (Zpos (fst (shl_align m e e'))) * P2 (snd (shl_align m e e')) ==
     inject_Z (Zpos m) * P2 e)%Q /\
  Zpos (digits2_pos (fst (shl_align m e e'))) + snd (shl_align m e e') =
    Zpos (digits2_pos m) + e /\
  snd (shl_align m e e') <= e'.
Proof.
  unfold shl_align. destruct (e' - e) as [|d|d] eqn:Ed; cbn [fst snd].
  - split; [reflexivity|]. lia.
  - split; [reflexivity|]. lia.
  - change (PosDef.Pos.iter xO m d) with (Pos.iter xO m d).
    rewrite iter_xO_Z, iter_xO_digits. split; [|lia].
    rewrite inject_Z_mult, inject_Z_pow2 by lia.
    rewrite <- Qmult_assoc, <- P2_plus.
    replace (Zpos d + e') with e by lia. reflexivity.
Qed.

(** Rounding [m * 2^e] to the format gives the canonical truncation of
    that number, rounded. *)
Lemma binary_round_canon (s : bool) (m : positive) (e : Z) :
  exists (m1 e1 : Z) (l1 : location),
    binary_round prec emax s m e = round_from s m1 e1 l1 /\
    canon_at m1 e1 l1 (inject_Z (Zpos m) * P2 e).
Proof.
  unfold binary_round.
  destruct (shl_align_spec m e (fexp prec emax (Zpos (digits2_pos m) + e)))
    as (Ev & Ed & He).
  destruct (shl_align m e (fexp prec emax (Zpos (digits2_pos m) + e)))
    as [mz ez].
  cbn [fst snd] in *.
  apply binary_round_aux_canon.
  - split; [lia|]. cbn [locu]. rewrite <- Ev, <- Qmult_assoc, P2_inv. ring.
  - cbn [Zdigits2]. rewrite Ed. exact He.
Qed.

(** A positive number of at most [prec] digits, in canonical form. *)
Lemma canon_at_small (p : positive) :
  Zpos p < 2 ^ prec ->
  canon_at (Zpos p * 2 ^ (prec - Zpos (digits2_pos p)))
    (Zpos (digits2_pos p) - prec) loc_Exact (inject_Z (Zpos p) * P2 0).
Proof.
  intros Hp.
  pose proof (digits2_pos_le p prec Hp) as Hd.
  pose proof (digits2_pos_upper p) as Hup.
  pose proof (digits2_pos_lower p) as Hlo.
  set (d := Zpos (digits2_pos p)) in *.
  assert (Hpow : 0 < 2 ^ (prec - d)) by (apply Z.pow_pos_nonneg; lia).
  assert (E1 : 2 ^ d * 2 ^ (prec - d) = 2 ^ prec)
    by (rewrite <- Z.pow_add_r by lia; f_equal; lia).
  assert (E2 : 2 ^ (d - 1) * 2 ^ (prec - d) = 2 ^ (prec - 1))
    by (rewrite <- Z.pow_add_r by lia; f_equal; lia).
  split; [split|split; [|split]].
  - nia.
  - cbn [locu]. rewrite inject_Z_mult, inject_Z_pow2 by lia.
    replace (- (d - prec)) with (prec - d) by lia. rewrite P2_0. ring.
  - nia.
  - unfold emin32, emin, emax, prec in *. lia.
  - intros _. nia.
Qed.

(** Whole numbers below [2^24] are [float]s. *)
Lemma of_Z_below (n : Z) :
  0 < n < 2 ^ prec ->
  is_finite (of_Z n) = true /\ (Qval (of_Z n) == inject_Z n)%Q.
Proof.
  intros [H0 Hn]. destruct n as [|p|p]; try lia.
  unfold of_Z, binary_normalize.
  destruct (binary_round_canon false p 0) as (m1 & e1 & l1 & -> & Hc).
  destruct (canon_at_unique _ _ _ _ _ _ _ Hc (canon_at_small p Hn))
    as (-> & -> & ->).
  pose proof (canon_at_small p Hn) as ([Hm0 Hl] & Hup & He & Hnorm).
  cbn [locu] in Hl.
  assert (Ev : (inject_Z (Zpos p * 2 ^ (prec - Zpos (digits2_pos p))) *
                P2 (Zpos (digits2_pos p) - prec) == inject_Z (Zpos p))%Q).
  { rewrite <- Hl, <- !Qmult_assoc, (Qmult_comm (P2 (- _))), P2_inv, P2_0.
    ring. }
  destruct (round_from_value false _ _ loc_Exact Hm0 Hnorm) as [Hf Er].
  - cbn [round_nearest_even]. rewrite Ev.
    apply Qlt_le_trans with (P2 prec).
    + rewrite <- inject_Z_pow2 by (unfold prec; lia).
      rewrite <- Zlt_Qlt. exact Hn.
    + apply P2_le. unfold prec, emax. lia.
  - split; [exact Hf|]. rewrite Er. cbn [round_nearest_even]. rewrite Ev.
    ring.
Qed.

(** Whole numbers up to [2^24] are [float]s. *)
Lemma of_Z_exact (n : Z) :
  0 < n <= 2 ^ prec ->
  is_finite (of_Z n) = true /\ (Qval (of_Z n) == inject_Z n)%Q.
Proof.
  intros [H0 Hn]. destruct (Z_lt_le_dec n (2 ^ prec)) as [Hlt|Hge].
  - apply of_Z_below. lia.
  - assert (n = 2 ^ prec) by lia. subst n. split; reflexivity.
Qed.

(** ** Exact sums of factors *)

(** When no partial sum of [F] rounds, the sum in [float] stands for the
    exact sum. *)
Lemma exact_adds_value (F : list float32) :
  forall acc : float32,
    exact_adds acc F -> is_finite acc = true ->
    is_finite (fold_left fadd F acc) = true /\
    (Qval (fold_left fadd F acc) == Qval acc + qsum (map Qval F))%Q.
Proof.
  induction F as [|f F IH]; intros acc Hex Hacc.
  - split; [exact Hacc|]. simpl. ring.
  - destruct Hex as ((_ & _ & Hs & Es) & Hex).
    destruct (IH _ Hex Hs) as [H1 E1].
    split; [exact H1|]. cbn [fold_left map qsum]. rewrite E1, Es. ring.
Qed.

(** What compares equal to a finite [float] is finite. *)
Lemma feqb_finite (w c : float32) :
  is_finite w = true -> feqb w c = true -> is_finite c = true.
Proof.
  destruct w as [s|s| |s m e], c as [s'|s'| |s' m' e']; try discriminate;
    try reflexivity; destruct s, s'; discriminate.
Qed.

(** A finite [float] that stands for a number other than zero does not
    compare equal to [0.0f]. *)
Lemma finite_not_zero (x : float32) :
  is_finite x = true -> ~ (Qval x == 0)%Q -> feqb x fzero = false.
Proof.
  destruct x as [s|s| |s m e]; try discriminate; intros _ H.
  - exfalso. apply H. reflexivity.
  - destruct s; reflexivity.
Qed.

(** ** How many equal weights add up exactly *)

Lemma binary_round_valid (s : bool) (m : positive) (e : Z) :
  valid (binary_round prec emax s m e) = true.
Proof.
  destruct (binary_round_canon s m e)
    as (m1 & e1 & l1 & -> & ([H0 _] & Hup & He & Hn)).
  apply round_from_is_valid; [lia|exact He|exact Hn].
Qed.

(** The sum of two finite non-zero [float]s is a valid [float]. *)
Lemma fadd_finite_valid (sx sy : bool) (mx my : positive) (ex ey : Z) :
  valid (fadd (S754_finite sx mx ex) (S754_finite sy my ey)) = true.
Proof.
  unfold fadd, SFadd.
  set (z := (cond_Zopp sx (Zpos (fst (shl_align mx ex (Z.min ex ey)))) +
             cond_Zopp sy (Zpos (fst (shl_align my ey (Z.min ex ey)))))).
  unfold binary_normalize.
  destruct z as [|p|p]; [reflexivity| |]; apply binary_round_valid.
Qed.

(** An odd multiple of a mantissa has no fewer digits than the odd
    number. *)
Lemma odd_multiple (d : Z) :
  0 <= d ->
  forall mc m : Z, 0 < mc -> (2 ^ prec + 1) * mc = m * 2 ^ d ->
  2 ^ prec + 1 <= m.
Proof.
  intros Hd. pattern d. apply natlike_ind; [| |exact Hd]; clear d Hd.
  - intros mc m Hmc E. rewrite Z.pow_0_r in E.
    change (2 ^ prec) with 16777216 in *. nia.
  - intros d Hd IH mc m Hmc E. rewrite Z.pow_succ_r in E by exact Hd.
    change (2 ^ prec) with 16777216 in *.
    assert (Hq : mc = 2 * (mc / 2)).
    { pose proof (Z.div_mod mc 2 ltac:(lia)) as Hdm.
      pose proof (Z.mod_pos_bound mc 2 ltac:(lia)) as Hb.
      replace (m * (2 * 2 ^ d)) with (2 * (m * 2 ^ d)) in E by ring.
      generalize dependent (m * 2 ^ d). intros X E.
      generalize dependent (mc / 2). generalize dependent (mc mod 2).
      intros r Hr q Hdm. lia. }
    apply (IH (mc / 2)); [lia|].
    rewrite Hq in E at 1. lia.
Qed.

(** [2^24 + 1] times the value of a [float] is not the value of a valid
    [float]. *)
Lemma no_float_at_odd_multiple (sc s : bool) (mc m : positive) (ec e : Z) :
  Zpos m < 2 ^ prec ->
  ~ (Qval (S754_finite s m e) ==
       inject_Z (2 ^ prec + 1) * Qval (S754_finite sc mc ec))%Q.
Proof.
  intros Hm E.
  pose proof (P2_mant_pos mc ec) as Hc. pose proof (P2_mant_pos m e) as Hx.
  assert (Hk : (0 < inject_Z (2 ^ prec + 1))%Q) by reflexivity.
  assert (Ev : (inject_Z (Zpos m) * P2 e ==
                inject_Z (2 ^ prec + 1) * (inject_Z (Zpos mc) * P2 ec))%Q).
  { destruct s, sc; rewrite ?Qval_true, ?Qval_false in E;
      try lra; exfalso; nra. }
  clear E. destruct (Z_le_gt_dec e ec) as [Hle|Hgt].
  - rewrite (units_of mc ec e Hle), Qmult_assoc in Ev.
    apply Qmult_inj_r in Ev; [|pose proof (P2_pos e); lra].
    rewrite <- inject_Z_mult, inject_Z_injective in Ev.
    assert (0 < 2 ^ (ec - e)) by (apply Z.pow_pos_nonneg; lia).
    change (2 ^ prec) with 16777216 in *. nia.
  - rewrite (units_of m e ec ltac:(lia)), Qmult_assoc in Ev.
    apply Qmult_inj_r in Ev; [|pose proof (P2_pos ec); lra].
    rewrite <- inject_Z_mult, inject_Z_injective in Ev.
    pose proof (odd_multiple (e - ec) ltac:(lia) (Zpos mc) (Zpos m)
                  ltac:(lia)) as H.
    rewrite Ev in H. specialize (H eq_refl). lia.
Qed.

(** Equal weights that add up exactly are at most [2^24]: the next
    partial sum would need 25 digits. *)
Lemma exact_sums_length (c : float32) (F : list float32) :
  is_finite c = true -> ~ (Qval c == 0)%Q ->
  forall (W : list float32) (ws wt : float32) (j : Z),
    List.length F = List.length W ->
    Forall (fun w => feqb w c = true) W ->
    exact_sums ws wt F W ->
    0 <= j <= 2 ^ prec -> (Qval wt == inject_Z j * Qval c)%Q ->
    j + Z.of_nat (List.length W) <= 2 ^ prec.
Proof.
  intros Hc Hc0.
  induction F as [|f F IH]; intros [|w W] ws wt j HL HW Hex Hj Ej;
    try discriminate.
  - simpl. lia.
  - injection HL as HL. inversion HW as [|? ? Hw HW']; subst.
    destruct Hex as (_ & _ & (Hwt & Hwf & Hs & Es) & Hex).
    pose proof (feqb_Qval _ _ Hw) as Ew.
    assert (Ej' : (Qval (fadd wt w) == inject_Z (j + 1) * Qval c)%Q).
    { rewrite Es, Ej, Ew, inject_Z_plus. change (inject_Z 1) with 1%Q. ring. }
    assert (Hj' : j + 1 <= 2 ^ prec).
    { destruct (Z_lt_le_dec j (2 ^ prec)) as [Hlt|Hge]; [lia|].
      exfalso. assert (j = 2 ^ prec) by lia. subst j.
      assert (Hwt0 : ~ (Qval wt == 0)%Q).
      { rewrite Ej. intros E0. apply Qmult_integral in E0.
        destruct E0 as [E0|E0]; [discriminate E0|contradiction]. }
      assert (Hw0 : ~ (Qval w == 0)%Q) by (rewrite Ew; exact Hc0).
      destruct wt as [?|?| |swt mwt ewt]; try discriminate Hwt;
        [exfalso; apply Hwt0; reflexivity|].
      destruct w as [?|?| |sw mw ew]; try discriminate Hwf;
        [exfalso; apply Hw0; reflexivity|].
      destruct c as [?|?| |sc mc ec]; try discriminate Hc;
        [exfalso; apply Hc0; reflexivity|].
      pose proof (fadd_finite_valid swt sw mwt mw ewt ew) as Hv.
      destruct (fadd (S754_finite swt mwt ewt) (S754_finite sw mw ew))
        as [?|?| |s m e] eqn:Esum; try discriminate Hs.
      - assert (E0 : (inject_Z (2 ^ prec + 1) *
                      Qval (S754_finite sc mc ec) == 0)%Q)
          by (rewrite <- Ej'; reflexivity).
        apply Qmult_integral in E0.
        destruct E0 as [E0|E0]; [discriminate E0|contradiction].
      - destruct (valid_finite _ _ _ Hv) as (_ & Hm & _).
        exact (no_float_at_odd_multiple sc s mc m ec e Hm Ej'). }
    specialize (IH W _ _ (j + 1) HL HW' Hex ltac:(lia) Ej').
    cbn [List.length]. lia.
Qed.

(** * The specification: scores and factor values

    The remaining claims compare the score with the factors.  They hold
    once the products and the partial sums of the loop are exact; the
    quotient the function returns may round, and needs no assumption. *)

(** Proves [exact_sums], [exact_adds] and [exact_op] for operands given in
    full. *)
Ltac solve_exact :=
  unfold exact_sums, exact_adds, exact_op;
  repeat split; vm_compute; reflexivity.

(** ** Scores as weighted averages *)

(** A weight total that is zero gives the score [0.0f] whatever the factors
    are, and a product or a partial sum that rounds moves the quotient off
    the exact weighted average: with weights that are not negative the
    score can still fall outside [min(F), max(F)].  Here [F = [5.0f]],
    [W = [0.0f]] scores [0.0f]; [F = [3.0f]], [W = [0.05263158f]], whose
    product rounds, scores [2.9999998f]; and [F = [3.0f; 3.0f]],
    [W = [1.0f; 2^-24]], whose products are exact and whose sums round,
    scores [3.0000002f]. *)
Lemma CalculateUtility_outside_factors :
  (let F := [of_Z 5] in
   let W := [fzero] in
   arrays_of (example_heap F W) 100 200 1 F W /\
   forallb valid (F ++ W) = true /\
   Forall (fun w => fleb fzero w = true) W /\
   fst (CalculateUtility 1 100 200 1 (example_world F W)) = Return fzero /\
   within_factors F fzero = false /\
   ~ value_within_factors F fzero) /\
  (let F := [of_Z 3] in
   let W := [one_19th] in
   arrays_of (example_heap F W) 100 200 1 F W /\
   forallb valid (F ++ W) = true /\
   Forall (fun w => fleb fzero w = true) W /\
   fst (CalculateUtility 1 100 200 1 (example_world F W)) = Return below_3 /\
   within_factors F below_3 = false /\
   ~ value_within_factors F below_3) /\
  (let F := [of_Z 3; of_Z 3] in
   let W := [of_Z 1; two_m24] in
   arrays_of (example_heap F W) 100 200 2 F W /\
   forallb valid (F ++ W) = true /\
   Forall (fun w => fleb fzero w = true) W /\
   Forall2 (exact_op fmul Qmult) F W /\
   fst (CalculateUtility 2 100 200 2 (example_world F W)) = Return above_3 /\
   within_factors F above_3 = false /\
   ~ value_within_factors F above_3).
Proof.
  split; [|split]; intros F W.
  - split; [solve_arrays_of|]. split; [reflexivity|].
    split; [repeat constructor|]. split; [vm_compute; reflexivity|].
    split; [reflexivity|].
    intros (_ & (f & Hin & Hle) & _).
    destruct Hin as [<-|[]].
    apply (Qlt_not_le (Qval fzero) (Qval (of_Z 5))); [reflexivity | exact Hle].
  - split; [solve_arrays_of|]. split; [reflexivity|].
    split; [repeat constructor|]. split; [vm_compute; reflexivity|].
    split; [reflexivity|].
    intros (_ & (f & Hin & Hle) & _).
    destruct Hin as [<-|[]].
    apply (Qlt_not_le (Qval below_3) (Qval (of_Z 3)));
      [reflexivity | exact Hle].
  - split; [solve_arrays_of|]. split; [reflexivity|].
    split; [repeat constructor|].
    split; [repeat (constructor; [solve_exact|]); constructor|].
    split; [vm_compute; reflexivity|].
    split; [reflexivity|].
    intros (_ & _ & (f & Hin & Hle)).
    destruct Hin as [<-|[<-|[]]];
      apply (Qlt_not_le (Qval (of_Z 3)) (Qval above_3));
      (reflexivity || exact Hle).
Qed.

(** C4, amended. For sequences of length [n >= 1] held by arrays at two
    non-null pointers, with valid factors, weights that are not negative
    and a weight total that does not compare equal to zero, when no
    product and no partial sum of the loop rounds (each is finite and
    exact), the call returns a finite score that lies between the least
    and the greatest factor, as a number and with the comparisons of
    [float].  The quotient the function returns may round: rounding to
    nearest does not carry it across a [float]. *)
Theorem CalculateUtility_within_factors_exact_sums
    (fuel : nat) (factors weights : ptr) (n : Z) (F W : list float32)
    (h : gmap Z float32) (t : list access) :
  arrays_of h factors weights n F W ->
  factors <> nullptr -> weights <> nullptr ->
  1 <= n -> n <= Z.of_nat fuel ->
  Forall (fun f => valid f = true) F ->
  Forall (fun w => fleb fzero w = true) W ->
  feqb (weight_total W) fzero = false ->
  exact_sums fzero fzero F W ->
  exists r : float32,
    fst (CalculateUtility fuel factors weights n (World h t)) = Return r /\
    value_within_factors F r /\
    within_factors F r = true.
Proof.
  intros Harr Hpf Hpw Hn Hfuel Hvalid Hnonneg Hnz Hexact.
  assert (HL : List.length F = List.length W) by (destruct Harr; lia).
  assert (HF0 : F <> []).
  { destruct Harr as [_ _ HnF _ _]. intros ->. simpl in HnF. lia. }
  destruct (exact_sums_values F W fzero fzero HL Hexact eq_refl eq_refl)
    as (Hws & Hwt & Ews & Ewt & HFfin & HWfin).
  fold (weighted_sum F W) in Hws, Ews. fold (weight_total W) in Hwt, Ewt.
  exists (normalized_weighted_sum F W). split.
  { rewrite (CalculateUtility_arrays fuel factors weights n F W h t)
      by assumption.
    unfold score. rewrite Hnz. reflexivity. }
  destruct (factors_have_min F HF0) as (fmin & Hinmin & Hmin).
  destruct (factors_have_max F HF0) as (fmax & Hinmax & Hmax).
  assert (HT : ~ (qsum (map Qval W) == 0)%Q).
  { intros E0. apply (feqb_zero_false _ Hwt Hnz). rewrite Ewt, E0.
    reflexivity. }
  assert (HW0 : Forall (fun q => (0 <= q)%Q) (map Qval W)).
  { apply List.Forall_map. rewrite List.Forall_forall in *.
    intros w Hw. apply fleb_zero_nonneg; auto. }
  destruct (weighted_average_bounds (Qval fmin) (Qval fmax)
              (map Qval F) (map Qval W)) as [Hlo Hhi];
    try assumption.
  { apply List.Forall_map. exact Hmin. }
  { apply List.Forall_map. exact Hmax. }
  { rewrite !List.length_map. exact HL. }
  rewrite List.Forall_forall in Hvalid, HFfin.
  destruct (fdiv_between (weighted_sum F W) (weight_total W) fmin fmax)
    as (Hfin & Hlo' & Hhi'); auto.
  { rewrite Ews, Ewt. cbn [Qval fzero]. rewrite !Qplus_0_l.
    split; assumption. }
  fold (normalized_weighted_sum F W) in Hfin, Hlo', Hhi'.
  pose proof (fdiv_valid (weighted_sum F W) (weight_total W)) as Hrv.
  fold (normalized_weighted_sum F W) in Hrv.
  split; [split; [exact Hfin|split]|].
  - exists fmin. split; [exact Hinmin|exact Hlo'].
  - exists fmax. split; [exact Hinmax|exact Hhi'].
  - unfold within_factors. apply andb_true_intro.
    split; apply existsb_exists.
    + exists fmin. split; [exact Hinmin|]. apply fleb_of_Qle; auto.
    + exists fmax. split; [exact Hinmax|]. apply fleb_of_Qle; auto.
Qed.

Lemma CalculateUtility_within_factors_exact_sums_witness :
  let F := [of_Z 1; of_Z 2] in
  let W := [of_Z 1; of_Z 2] in
  arrays_of (example_heap F W) 100 200 2 F W /\
  100 <> nullptr /\ 200 <> nullptr /\ 1 <= 2 /\ 2 <= Z.of_nat 2 /\
  Forall (fun f => valid f = true) F /\
  Forall (fun w => fleb fzero w = true) W /\
  feqb (weight_total W) fzero = false /\
  exact_sums fzero fzero F W /\
  exists r : float32,
    fst (CalculateUtility 2 100 200 2 (example_world F W)) = Return r /\
    value_within_factors F r /\
    within_factors F r = true.
Proof.
  intros F W.
  assert (Harr : arrays_of (example_heap F W) 100 200 2 F W)
    by solve_arrays_of.
  assert (Hpf : 100 <> nullptr) by discriminate.
  assert (Hpw : 200 <> nullptr) by discriminate.
  assert (Hn : 1 <= 2) by lia.
  assert (Hfuel : 2 <= Z.of_nat 2) by lia.
  assert (Hvalid : Forall (fun f => valid f = true) F)
    by (repeat constructor).
  assert (Hnonneg : Forall (fun w => fleb fzero w = true) W)
    by (repeat constructor).
  assert (Hnz : feqb (weight_total W) fzero = false)
    by (vm_compute; reflexivity).
  assert (Hexact : exact_sums fzero fzero F W) by solve_exact.
  repeat (split; [assumption|]).
  exact (CalculateUtility_within_factors_exact_sums 2 100 200 2 F W
           (example_heap F W) [] Harr Hpf Hpw Hn Hfuel Hvalid Hnonneg Hnz
           Hexact).
Defined.

(** ** A single element *)

(** With one element and a weight that is not zero the score need not be
    the factor: the product [3.0f * 0.05263158f] rounds, and the quotient
    comes out as [2.9999998f]; the product [3e38f * 2.0f] overflows, and
    the quotient is infinite. *)
Lemma CalculateUtility_single_element_differs :
  (let F := [of_Z 3] in
   let W := [one_19th] in
   arrays_of (example_heap F W) 100 200 1 F W /\
   forallb valid (F ++ W) = true /\
   feqb one_19th fzero = false /\
   fst (CalculateUtility 1 100 200 1 (example_world F W)) = Return below_3 /\
   feqb below_3 (of_Z 3) = false) /\
  (let F := [f_3e38] in
   let W := [of_Z 2] in
   arrays_of (example_heap F W) 100 200 1 F W /\
   forallb valid (F ++ W) = true /\
   feqb (of_Z 2) fzero = false /\
   fst (CalculateUtility 1 100 200 1 (example_world F W)) =
     Return (S754_infinity false) /\
   feqb (S754_infinity false) f_3e38 = false).
Proof.
  split; intros F W.
  - split; [solve_arrays_of|]. repeat split; vm_compute; reflexivity.
  - split; [solve_arrays_of|]. repeat split; vm_compute; reflexivity.
Qed.

(** Adding a finite [float] to [0.0f] gives a [float] of the same value. *)
Lemma fadd_fzero (x : float32) :
  is_finite x = true ->
  is_finite (fadd fzero x) = true /\ (Qval (fadd fzero x) == Qval x)%Q.
Proof.
  destruct x as [s|s| |s m e]; try discriminate; intros _.
  - destruct s; split; reflexivity.
  - split; reflexivity.
Qed.

(** C5, amended. For one valid factor [f] and one weight [w] held by
    arrays at two non-null pointers, with [w] not comparing equal to zero,
    when the product [f * w] is finite and exact the call returns a score
    that compares equal to [f], and that is [f] itself unless [f] is a
    zero.  The quotient needs no assumption: the exact quotient of the
    product by [w] is the value of [f], a [float], so the division returns
    it.  [F = [5.0f]], [W = [2.0f]] is such an input and scores [5.0f]. *)
Theorem CalculateUtility_single_element_exact_product :
  (forall (fuel : nat) (factors weights : ptr) (f w : float32)
          (h : gmap Z float32) (t : list access),
     arrays_of h factors weights 1 [f] [w] ->
     factors <> nullptr -> weights <> nullptr ->
     1 <= Z.of_nat fuel ->
     valid f = true ->
     feqb w fzero = false ->
     exact_op fmul Qmult f w ->
     exists r : float32,
       fst (CalculateUtility fuel factors weights 1 (World h t)) = Return r /\
       feqb r f = true /\
       (feqb f fzero = false -> r = f)) /\
  fst (CalculateUtility 1 100 200 1 (example_world [of_Z 5] [of_Z 2])) =
    Return (of_Z 5).
Proof.
  split; [|vm_compute; reflexivity].
  intros fuel factors weights f w h t Harr Hpf Hpw Hfuel Hvalid Hwnz
    (Hf & Hw & Hp & Ep).
  assert (Hw0 : ~ (Qval w == 0)%Q) by (apply feqb_zero_false; assumption).
  assert (Etot : weight_total [w] = w).
  { destruct w as [s|s| |s m e]; try discriminate Hw;
      [destruct s; discriminate Hwnz | reflexivity]. }
  destruct (fadd_fzero (fmul f w) Hp) as [Hs Es].
  exists (fdiv (fadd fzero (fmul f w)) w). split.
  - rewrite (CalculateUtility_arrays fuel factors weights 1 [f] [w] h t)
      by (assumption || lia).
    unfold score, normalized_weighted_sum. rewrite Etot, Hwnz. reflexivity.
  - apply fdiv_exact; try assumption.
    rewrite Es, Ep. apply Qdiv_mult_l. exact Hw0.
Qed.

Lemma CalculateUtility_single_element_exact_product_witness :
  let f := of_Z 5 in
  let w := of_Z 2 in
  arrays_of (example_heap [f] [w]) 100 200 1 [f] [w] /\
  100 <> nullptr /\ 200 <> nullptr /\ 1 <= Z.of_nat 1 /\
  valid f = true /\ feqb w fzero = false /\
  exact_op fmul Qmult f w /\
  exists r : float32,
    fst (CalculateUtility 1 100 200 1 (example_world [f] [w])) = Return r /\
    feqb r f = true /\
    (feqb f fzero = false -> r = f).
Proof.
  intros f w.
  assert (Harr : arrays_of (example_heap [f] [w]) 100 200 1 [f] [w])
    by solve_arrays_of.
  assert (Hpf : 100 <> nullptr) by discriminate.
  assert (Hpw : 200 <> nullptr) by discriminate.
  assert (Hfuel : 1 <= Z.of_nat 1) by lia.
  assert (Hvalid : valid f = true) by reflexivity.
  assert (Hwnz : feqb w fzero = false) by reflexivity.
  assert (Hmul : exact_op fmul Qmult f w) by solve_exact.
  repeat (split; [assumption|]).
  exact (proj1 CalculateUtility_single_element_exact_product 1%nat 100 200
           f w (example_heap [f] [w]) [] Harr Hpf Hpw Hfuel Hvalid Hwnz Hmul).
Defined.

(** ** Equal weights *)

(** With equal weights that are not zero the score need not be the
    arithmetic mean of the factors: for [F = [3.0f; 3.0f]] and
    [W = [0.05263158f; 0.05263158f]] the products round and the score is
    [2.9999998f], while the mean is [3.0f]; for [F = [3e38f; -3e38f]] and
    [W = [2.0f; 2.0f]] the products overflow and the score is a NaN, while
    the mean is [0.0f]; and for [F = [3e38f; 3e38f]] and
    [W = [0.5f; 0.5f]] the loop is exact and the score is [3e38f], while
    the sum of the factors overflows and the mean is infinite; and for
    [F = [1.0f; 2^-24]] and [W = [3.0f; 3.0f]] the products are exact and
    the sum of the products rounds, which makes the score [0.50000006f],
    while the mean is [0.5f]. *)
Lemma CalculateUtility_equal_weights_differs :
  (let F := [of_Z 3; of_Z 3] in
   let W := [one_19th; one_19th] in
   arrays_of (example_heap F W) 100 200 2 F W /\
   forallb valid (F ++ W) = true /\
   Forall (fun w => feqb w one_19th = true) W /\
   feqb one_19th fzero = false /\
   fst (CalculateUtility 2 100 200 2 (example_world F W)) = Return below_3 /\
   arithmetic_mean F = of_Z 3 /\
   feqb below_3 (arithmetic_mean F) = false) /\
  (let F := [f_3e38; SFopp f_3e38] in
   let W := [of_Z 2; of_Z 2] in
   arrays_of (example_heap F W) 100 200 2 F W /\
   forallb valid (F ++ W) = true /\
   Forall (fun w => feqb w (of_Z 2) = true) W /\
   feqb (of_Z 2) fzero = false /\
   fst (CalculateUtility 2 100 200 2 (example_world F W)) = Return S754_nan /\
   arithmetic_mean F = fzero /\
   feqb S754_nan (arithmetic_mean F) = false) /\
  (let F := [f_3e38; f_3e38] in
   let W := [one_half; one_half] in
   arrays_of (example_heap F W) 100 200 2 F W /\
   forallb valid (F ++ W) = true /\
   Forall (fun w => feqb w one_half = true) W /\
   feqb one_half fzero = false /\
   exact_sums fzero fzero F W /\
   fst (CalculateUtility 2 100 200 2 (example_world F W)) = Return f_3e38 /\
   arithmetic_mean F = S754_infinity false /\
   feqb f_3e38 (arithmetic_mean F) = false) /\
  (let F := [of_Z 1; two_m24] in
   let W := [of_Z 3; of_Z 3] in
   arrays_of (example_heap F W) 100 200 2 F W /\
   forallb valid (F ++ W) = true /\
   Forall (fun w => feqb w (of_Z 3) = true) W /\
   feqb (of_Z 3) fzero = false /\
   Forall2 (exact_op fmul Qmult) F W /\
   fst (CalculateUtility 2 100 200 2 (example_world F W)) =
     Return above_half /\
   arithmetic_mean F = one_half /\
   feqb above_half (arithmetic_mean F) = false).
Proof.
  split; [|split; [|split]]; intros F W.
  - split; [solve_arrays_of|]. split; [vm_compute; reflexivity|].
    split; [repeat (constructor; [vm_compute; reflexivity|]); constructor|].
    repeat split; vm_compute; reflexivity.
  - split; [solve_arrays_of|]. split; [vm_compute; reflexivity|].
    split; [repeat (constructor; [vm_compute; reflexivity|]); constructor|].
    repeat split; vm_compute; reflexivity.
  - split; [solve_arrays_of|]. split; [vm_compute; reflexivity|].
    split; [repeat (constructor; [vm_compute; reflexivity|]); constructor|].
    split; [vm_compute; reflexivity|].
    split; [solve_exact|].
    repeat split; vm_compute; reflexivity.
  - split; [solve_arrays_of|]. split; [vm_compute; reflexivity|].
    split; [repeat (constructor; [vm_compute; reflexivity|]); constructor|].
    split; [vm_compute; reflexivity|].
    split; [repeat (constructor; [solve_exact|]); constructor|].
    repeat split; vm_compute; reflexivity.
Qed.

(** C7, amended. For sequences of length [n >= 1] held by arrays at two
    non-null pointers, with weights that all compare equal to one weight
    [c] that is not zero, when no product and no partial sum of the loop
    rounds (each is finite and exact) the call returns the exact mean of
    the factor values, their sum divided by [n], rounded once to a
    [float]: the score compares equal to the quotient in [float] of any
    two finite [float]s [a] and [b] whose exact quotient is that mean.  In
    particular it compares equal to the arithmetic mean of the factors
    computed in [float] whenever the partial sums of the factors alone
    are exact as well; [n] is a [float] then, since weights that add up
    exactly number at most [2^24].
    [F = [1; 2; 3]] with [W = [1; 1; 1]] scores [2.0f], and [F = [-4; 4]]
    with [W = [1; 1]] scores [0.0f]. *)
Theorem CalculateUtility_equal_weights_exact_sums :
  (forall (fuel : nat) (factors weights : ptr) (n : Z) (F W : list float32)
          (c : float32) (h : gmap Z float32) (t : list access),
     arrays_of h factors weights n F W ->
     factors <> nullptr -> weights <> nullptr ->
     1 <= n -> n <= Z.of_nat fuel ->
     Forall (fun w => feqb w c = true) W ->
     feqb c fzero = false ->
     exact_sums fzero fzero F W ->
     exists r : float32,
       fst (CalculateUtility fuel factors weights n (World h t)) = Return r /\
       (forall a b : float32,
          is_finite a = true -> is_finite b = true ->
          feqb b fzero = false ->
          (Qval a / Qval b == qsum (map Qval F) / inject_Z n)%Q ->
          feqb r (fdiv a b) = true) /\
       (exact_adds fzero F -> feqb r (arithmetic_mean F) = true)) /\
  fst (CalculateUtility 3 100 200 3
         (example_world [of_Z 1; of_Z 2; of_Z 3] [of_Z 1; of_Z 1; of_Z 1])) =
    Return (of_Z 2) /\
  fst (CalculateUtility 2 100 200 2
         (example_world [of_Z (-4); of_Z 4] [of_Z 1; of_Z 1])) =
    Return fzero.
Proof.
  split; [|split; vm_compute; reflexivity].
  intros fuel factors weights n F W c h t Harr Hpf Hpw Hn Hfuel Hc Hcnz Hexact.
  assert (HL : List.length F = List.length W) by (destruct Harr; lia).
  assert (HnF : n = Z.of_nat (List.length F)) by (destruct Harr; assumption).
  destruct (exact_sums_values F W fzero fzero HL Hexact eq_refl eq_refl)
    as (Hws & Hwt & Ews & Ewt & _ & HWfin).
  fold (weighted_sum F W) in Hws, Ews. fold (weight_total W) in Hwt, Ewt.
  cbn [Qval fzero] in Ews, Ewt. rewrite Qplus_0_l in Ews, Ewt.
  assert (HWc : Forall (fun q => (q == Qval c)%Q) (map Qval W)).
  { apply List.Forall_map. eapply List.Forall_impl; [|exact Hc].
    intros w Hw. apply feqb_Qval. exact Hw. }
  destruct (qdot_equal_weights (Qval c) (map Qval F) (map Qval W) HWc)
    as [Edot Esum].
  { rewrite !List.length_map. exact HL. }
  rewrite List.length_map, <- HnF in Esum.
  assert (Hcfin : is_finite c = true).
  { destruct W as [|w W]; [simpl in HL; lia|].
    inversion Hc; subst. inversion HWfin; subst.
    eapply feqb_finite; eassumption. }
  assert (Hc0 : ~ (Qval c == 0)%Q) by (apply feqb_zero_false; assumption).
  assert (Hn0 : ~ (inject_Z n == 0)%Q).
  { change 0%Q with (inject_Z 0). rewrite inject_Z_injective. lia. }
  assert (HT : ~ (qsum (map Qval W) == 0)%Q).
  { rewrite Esum. intros E0. apply Qmult_integral in E0. tauto. }
  assert (Hnz : feqb (weight_total W) fzero = false).
  { apply finite_not_zero; [exact Hwt|]. rewrite Ewt. exact HT. }
  assert (Emean : (Qval (weighted_sum F W) / Qval (weight_total W) ==
                   qsum (map Qval F) / inject_Z n)%Q).
  { rewrite Ews, Ewt, Edot, Esum. field. split; assumption. }
  exists (normalized_weighted_sum F W). split; [|split].
  - rewrite (CalculateUtility_arrays fuel factors weights n F W h t)
      by assumption.
    unfold score. rewrite Hnz. reflexivity.
  - intros a b Ha Hb Hbnz E.
    apply fdiv_same_quotient; try assumption.
    rewrite Emean, E. reflexivity.
  - intros Hadds.
    assert (Hlen : 0 + Z.of_nat (List.length W) <= 2 ^ prec).
    { apply (exact_sums_length c F Hcfin Hc0 W fzero fzero 0 HL Hc Hexact);
        [split; [lia|discriminate]|].
      cbn [Qval fzero]. ring. }
    destruct (of_Z_exact n) as [_ En]; [lia|].
    destruct (exact_adds_value F fzero Hadds eq_refl) as [Hsum Esumf].
    cbn [Qval fzero] in Esumf. rewrite Qplus_0_l in Esumf.
    assert (Hnn0 : ~ (Qval (of_Z n) == 0)%Q) by (rewrite En; exact Hn0).
    assert (Hnfin : is_finite (of_Z n) = true).
    { destruct (of_Z n); try reflexivity; exfalso; apply Hnn0; reflexivity. }
    unfold arithmetic_mean. rewrite <- HnF.
    apply fdiv_same_quotient; try assumption.
    + apply finite_not_zero; assumption.
    + rewrite Emean, Esumf, En. reflexivity.
Qed.

Lemma CalculateUtility_equal_weights_exact_sums_witness :
  let F := [of_Z 1; of_Z 1; of_Z 2] in
  let W := [of_Z 1; of_Z 1; of_Z 1] in
  arrays_of (example_heap F W) 100 200 3 F W /\
  100 <> nullptr /\ 200 <> nullptr /\ 1 <= 3 /\ 3 <= Z.of_nat 3 /\
  Forall (fun w => feqb w (of_Z 1) = true) W /\
  feqb (of_Z 1) fzero = false /\
  exact_sums fzero fzero F W /\
  exact_adds fzero F /\
  exists r : float32,
    fst (CalculateUtility 3 100 200 3 (example_world F W)) = Return r /\
    feqb r (fdiv (of_Z 4) (of_Z 3)) = true /\
    feqb r (arithmetic_mean F) = true.
Proof.
  intros F W.
  assert (Harr : arrays_of (example_heap F W) 100 200 3 F W)
    by solve_arrays_of.
  assert (Hpf : 100 <> nullptr) by discriminate.
  assert (Hpw : 200 <> nullptr) by discriminate.
  assert (Hn : 1 <= 3) by lia.
  assert (Hfuel : 3 <= Z.of_nat 3) by lia.
  assert (Hc : Forall (fun w => feqb w (of_Z 1) = true) W)
    by (repeat constructor).
  assert (Hcnz : feqb (of_Z 1) fzero = false) by reflexivity.
  assert (Hexact : exact_sums fzero fzero F W) by solve_exact.
  assert (Hadds : exact_adds fzero F) by solve_exact.
  repeat (split; [assumption|]).
  destruct (proj1 CalculateUtility_equal_weights_exact_sums 3%nat 100 200 3
              F W (of_Z 1) (example_heap F W) [] Harr Hpf Hpw Hn Hfuel Hc
              Hcnz Hexact) as (r & Hr & Hab & Hmean).
  exists r. split; [exact Hr|]. split.
  - apply Hab; vm_compute; reflexivity.
  - apply Hmean. exact Hadds.
Defined.
